(** * wa-modules-loader: the export engine of [src/export]

    A shallow embedding of the scanning / extraction engine, the naming and
    grouping step, the bounded concurrency runner, the worker pool, the
    worker and the command-line helpers of [src/src/export/worker.ts], and
    of the function-expression extractor of
    [src/src/import/metro-loader.ts], with the properties the specification
    states about them and further properties read off the code.

    JavaScript strings are sequences of UTF-16 code units: a string is a
    [list N] here, an index is a [nat], and [source[i]] is the list lookup
    [source !! i] ([None] stands for [undefined]). *)

From Stdlib Require Import ZArith NArith QArith Qround Lia List Ascii String
  DecimalString DecimalNat.
From stdpp Require Import base option list gmap.

Close Scope Q_scope.

Local Open Scope nat_scope.

(** ** Strings *)

Abbreviation jsstring := (list N).

Definition chr (a : ascii) : N := N_of_ascii a.

(** A string literal of the source, as code units. *)
Definition lit (s : string) : jsstring := List.map chr (list_ascii_of_string s).

(** [c === 'a'] for [c = source[i]]; [undefined] and [''] equal no
    character. *)
Definition is_chr (c : option N) (a : ascii) : bool :=
  match c with
  | Some n => N.eqb n (chr a)
  | None => false
  end.

(** [\s] of a JavaScript regular expression (white space and line
    terminators). *)
Definition isSpace (c : N) : bool :=
  ((9 <=? c) && (c <=? 13) || (c =? 32) || (c =? 160) || (c =? 5760)
   || (8192 <=? c) && (c <=? 8202) || (c =? 8232) || (c =? 8233)
   || (c =? 8239) || (c =? 8287) || (c =? 12288) || (c =? 65279))%N.

(** [\w] without the unicode flag: [A-Za-z0-9_]. *)
Definition isWord (c : N) : bool :=
  ((65 <=? c) && (c <=? 90) || (97 <=? c) && (c <=? 122)
   || (48 <=? c) && (c <=? 57) || (c =? 95))%N.

(** [source.slice(a, b)] for [0 <= a]. *)
Definition slice (source : jsstring) (a b : nat) : jsstring :=
  take (b - a) (drop a source).

(** [source.startsWith(pat, i)]. *)
Definition startsWithAt (pat source : jsstring) (i : nat) : bool :=
  bool_decide (take (length pat) (drop i source) = pat).

Definition marker : jsstring := lit "__d(".

(** The double quote character. *)
Definition dquote : N := 34%N.

(** ** The lexical context tracker *)

Inductive Mode :=
  code | single | double | template | regex | lineComment | blockComment.

(** The local variables of the two scanning loops.  [templateExprStack] has
    its top (the end of the JavaScript array) at the head. *)
Record Lex := mkLex {
  mode : Mode;
  regexInClass : bool;
  templateExprDepth : Z;
  templateExprStack : list Z
}.

Definition initLex : Lex := mkLex code false 0 [].

Definition setMode (m : Mode) (st : Lex) : Lex :=
  mkLex m (regexInClass st) (templateExprDepth st) (templateExprStack st).

Definition setInClass (b : bool) (st : Lex) : Lex :=
  mkLex (mode st) b (templateExprDepth st) (templateExprStack st).

Definition setDepth (d : Z) (st : Lex) : Lex :=
  mkLex (mode st) (regexInClass st) d (templateExprStack st).

(** [while (j >= 0 && /\s/.test(source[j])) j--], with [n = j + 1] so that
    [j = -1] is [n = 0]. *)
Fixpoint skipSpaceBack (source : jsstring) (n : nat) : nat :=
  match n with
  | 0 => 0
  | S j =>
      match source !! j with
      | Some c => if isSpace c then skipSpaceBack source j else n
      | None => n
      end
  end.

(** [while (k >= 0 && /[\w$]/.test(source[k])) k--], with [n = k + 1]. *)
Fixpoint skipWordBack (source : jsstring) (n : nat) : nat :=
  match n with
  | 0 => 0
  | S k =>
      match source !! k with
      | Some c =>
          if isWord c || N.eqb c (chr "$") then skipWordBack source k else n
      | None => n
      end
  end.

Definition closers : jsstring := lit ")]}".
Definition openers : jsstring := lit "([{,:;=!?~+-*%&|^<>".

Definition looksLikeRegexStart (source : jsstring) (slashIdx : nat) : bool :=
  let next := source !! (slashIdx + 1) in
  if is_chr next "/" || is_chr next "*" then false
  else
    match skipSpaceBack source slashIdx with
    | 0 => true
    | S j =>
        match source !! j with
        | None => false (* not reached: j < slashIdx < source.length *)
        | Some prev =>
            if bool_decide (prev ∈ closers) then false
            else if isWord prev || N.eqb prev (chr "$") then
              let k1 := skipWordBack source (S j) in
              let word := slice source k1 (S j) in
              bool_decide (word = lit "return" ∨ word = lit "throw"
                           ∨ word = lit "case")
            else if bool_decide (prev ∈ [chr "."; dquote; chr "'"; chr "`"])
            then false
            else bool_decide (prev ∈ openers)
        end
    end.

(** The outcome of the tracker part of one loop iteration at index [i]:
    [Skip st i'] when a [continue] is reached with state [st] and loop
    variable [i'] (the loop then goes on at [i' + 1]); [Plain st] when the
    character is ordinary code and control reaches the end of the tracker
    part.  The bodies of [findNextDCallStart] and [findMatchingParen] are
    the same text up to that point. *)
Inductive Step :=
| Skip (st : Lex) (i' : nat)
| Plain (st : Lex).

Definition lexStep (source : jsstring) (st : Lex) (i : nat) : Step :=
  let ch := source !! i in
  let next := source !! (i + 1) in
  match mode st with
  | lineComment =>
      if is_chr ch "010" then Skip (setMode code st) i else Skip st i
  | blockComment =>
      if is_chr ch "*" && is_chr next "/" then Skip (setMode code st) (i + 1)
      else Skip st i
  | single =>
      if is_chr ch "\" then Skip st (i + 1)
      else if is_chr ch "'" then Skip (setMode code st) i
      else Skip st i
  | double =>
      if is_chr ch "\" then Skip st (i + 1)
      else if bool_decide (ch = Some dquote) then Skip (setMode code st) i
      else Skip st i
  | template =>
      if is_chr ch "\" then Skip st (i + 1)
      else if is_chr ch "`" then
        match templateExprStack st with
        | prevDepth :: stack => Skip (mkLex code (regexInClass st) prevDepth stack) i
        | [] => Skip (mkLex code (regexInClass st) 0 []) i
        end
      else if is_chr ch "$" && is_chr next "{" then
        Skip (setMode code (setDepth 1 st)) (i + 1)
      else Skip st i
  | regex =>
      if is_chr ch "\" then Skip st (i + 1)
      else if is_chr ch "[" then Skip (setInClass true st) i
      else if is_chr ch "]" && regexInClass st then Skip (setInClass false st) i
      else if is_chr ch "/" && negb (regexInClass st) then Skip (setMode code st) i
      else Skip st i
  | code =>
      if is_chr ch "/" && is_chr next "/" then Skip (setMode lineComment st) (i + 1)
      else if is_chr ch "/" && is_chr next "*" then
        Skip (setMode blockComment st) (i + 1)
      else if is_chr ch "'" then Skip (setMode single st) i
      else if bool_decide (ch = Some dquote) then Skip (setMode double st) i
      else if is_chr ch "`" then
        Skip (mkLex template (regexInClass st) 0
                (templateExprDepth st :: templateExprStack st)) i
      else if is_chr ch "/" && looksLikeRegexStart source i then
        Skip (setMode regex (setInClass false st)) i
      else if (0 <? templateExprDepth st)%Z then
        if is_chr ch "{" then Plain (setDepth (templateExprDepth st + 1) st)
        else if is_chr ch "}" then
          if (templateExprDepth st - 1 =? 0)%Z
          then Skip (setMode template (setDepth 0 st)) i
          else Plain (setDepth (templateExprDepth st - 1) st)
        else Plain st
      else Plain st
  end.

(** ** The call locator *)

(** The [for] loop of [findNextDCallStart].  The outer [option] is the
    fuel: [None] when it runs out; [Some None] is the return value [-1]. *)
Fixpoint findNextDCallStart_loop (fuel : nat) (source : jsstring) (st : Lex)
    (i : nat) : option (option nat) :=
  if length source <=? i then Some None
  else
    match fuel with
    | 0 => None
    | S fuel' =>
        match lexStep source st i with
        | Skip st' i' => findNextDCallStart_loop fuel' source st' (S i')
        | Plain st' =>
            if is_chr (source !! i) "_" && startsWithAt marker source i
            then Some (Some i)
            else findNextDCallStart_loop fuel' source st' (S i)
        end
    end.

Definition findNextDCallStart (source : jsstring) (fromIdx : nat)
    : option (option nat) :=
  findNextDCallStart_loop (length source - fromIdx) source initLex fromIdx.

(** ** The balanced-extent matcher *)

(** A returned value or a thrown [Error] with its message. *)
Inductive Result (A : Type) :=
| Ok (a : A)
| Throw (message : jsstring).
Arguments Ok {A} a.
Arguments Throw {A} message.

Definition noMatchingParen : jsstring :=
  lit "No matching closing parenthesis found for __d(".

Fixpoint findMatchingParen_loop (fuel : nat) (source : jsstring) (st : Lex)
    (depth : Z) (i : nat) : option (Result nat) :=
  if length source <=? i then Some (Throw noMatchingParen)
  else
    match fuel with
    | 0 => None
    | S fuel' =>
        match lexStep source st i with
        | Skip st' i' => findMatchingParen_loop fuel' source st' depth (S i')
        | Plain st' =>
            if is_chr (source !! i) "(" then
              findMatchingParen_loop fuel' source st' (depth + 1) (S i)
            else if is_chr (source !! i) ")" then
              if (depth - 1 =? 0)%Z then Some (Ok i)
              else findMatchingParen_loop fuel' source st' (depth - 1) (S i)
            else findMatchingParen_loop fuel' source st' depth (S i)
        end
    end.

Definition findMatchingParen (source : jsstring) (openParenIdx : nat)
    : option (Result nat) :=
  findMatchingParen_loop (length source - openParenIdx) source initLex 0
    openParenIdx.

(** The tracker alone, run from index [i] in state [st] up to index
    [target]: the state in which the loops enter [target], or [None] when
    [target] is not the index of an iteration (it is the second character of
    a two-character token or follows a backslash) or lies before [i]. *)
Fixpoint lexTrack (fuel : nat) (source : jsstring) (st : Lex) (i target : nat)
    : option Lex :=
  if i =? target then Some st
  else if target <? i then None
  else
    match fuel with
    | 0 => None
    | S fuel' =>
        match lexStep source st i with
        | Skip st' i' => lexTrack fuel' source st' (S i') target
        | Plain st' => lexTrack fuel' source st' (S i) target
        end
    end.

(** The lexical state at index [i] of a scan started at [fromIdx]. *)
Definition lexStateAt (source : jsstring) (fromIdx i : nat) : option Lex :=
  lexTrack (i - fromIdx) source initLex fromIdx i.

(** ** The module extractor *)

(** [while (end < source.length && /\s/.test(source[end])) end++], on the
    characters from [end] on. *)
Fixpoint skipSpaceFwd (rest : jsstring) (end_ : nat) : nat :=
  match rest with
  | c :: rest' => if isSpace c then skipSpaceFwd rest' (S end_) else end_
  | [] => end_
  end.

(** The end of the span of a call whose closing parenthesis is at
    [closeParenIdx]. *)
Definition callEnd (source : jsstring) (closeParenIdx : nat) : nat :=
  let end_ := skipSpaceFwd (drop (closeParenIdx + 1) source) (closeParenIdx + 1) in
  if is_chr (source !! end_) ";" then end_ + 1 else end_.

(** Decimal digits of a non-negative integer, as template literals and
    string concatenation print it. *)
Definition decimal (n : nat) : jsstring :=
  lit (NilZero.string_of_uint (Nat.to_uint n)).

(** The line written by [console.error] in the [catch] block. *)
Definition parseWarning (start : nat) (msg : jsstring) : jsstring :=
  lit "Warning: failed to parse __d(...) at offset " ++ decimal start
  ++ lit ": " ++ msg.

(** The [while] loop of [extractDCalls], with the array [out] and the lines
    written to the console so far as state.  [None] when the fuel runs out. *)
Fixpoint extractDCalls_loop (fuel : nat) (source : jsstring) (i : nat)
    (out : list jsstring) (log : list jsstring)
    : option (list jsstring * list jsstring) :=
  if length source <=? i then Some (out, log)
  else
    match fuel with
    | 0 => None
    | S fuel' =>
        match findNextDCallStart source i with
        | None => None
        | Some None => Some (out, log)
        | Some (Some start) =>
            let openParenIdx := start + 3 in
            match findMatchingParen source openParenIdx with
            | None => None
            | Some (Ok closeParenIdx) =>
                let end_ := callEnd source closeParenIdx in
                extractDCalls_loop fuel' source end_
                  (out ++ [slice source start end_]) log
            | Some (Throw msg) =>
                extractDCalls_loop fuel' source (start + 4) out
                  (log ++ [parseWarning start msg])
            end
        end
    end.

(** [extractDCalls source]: the extracted calls and the warnings logged. *)
Definition extractDCalls_log (source : jsstring)
    : option (list jsstring * list jsstring) :=
  extractDCalls_loop (length source) source 0 [] [].

Definition extractDCalls (source : jsstring) : option (list jsstring) :=
  fst <$> extractDCalls_log source.

(** Whether index [p] holds an ordinary code character in the scan started
    at [o]: the tracker enters [p] and does not consume the character. *)
Definition plainAt (source : jsstring) (o p : nat) : bool :=
  match lexStateAt source o p with
  | Some st => match lexStep source st p with Plain _ => true | Skip _ _ => false end
  | None => false
  end.

(** What the character at [p] adds to the nesting depth: parentheses count
    only where they are ordinary code. *)
Definition parenValue (source : jsstring) (o p : nat) : Z :=
  if plainAt source o p then
    if is_chr (source !! p) "(" then 1
    else if is_chr (source !! p) ")" then (-1)
    else 0
  else 0.

(** The nesting depth after the characters [o .. j - 1]. *)
Definition parenDepth (source : jsstring) (o j : nat) : Z :=
  foldr (λ p acc, parenValue source o p + acc)%Z 0%Z (seq o (j - o)).

(** One iteration of the loop of [extractDCalls]: a call extracted, from
    [start] with its closing parenthesis at [close], or a call skipped. *)
Inductive Event :=
| Extracted (start close : nat)
| Skipped (start : nat) (msg : jsstring).

(** The iterations of the loop started with the cursor at [i]. *)
Inductive iterations (source : jsstring) : nat → list Event → Prop :=
| iter_end i :
    length source ≤ i → iterations source i []
| iter_none i :
    i < length source → findNextDCallStart source i = Some None →
    iterations source i []
| iter_extract i start close evs :
    i < length source →
    findNextDCallStart source i = Some (Some start) →
    findMatchingParen source (start + 3) = Some (Ok close) →
    iterations source (callEnd source close) evs →
    iterations source i (Extracted start close :: evs)
| iter_skip i start msg evs :
    i < length source →
    findNextDCallStart source i = Some (Some start) →
    findMatchingParen source (start + 3) = Some (Throw msg) →
    iterations source (start + 4) evs →
    iterations source i (Skipped start msg :: evs).

(** The strings pushed and the lines logged by a list of iterations. *)
Definition pushed (source : jsstring) (evs : list Event) : list jsstring :=
  omap (λ ev, match ev with
              | Extracted start close =>
                  Some (slice source start (callEnd source close))
              | Skipped _ _ => None
              end) evs.

Definition logged (evs : list Event) : list jsstring :=
  omap (λ ev, match ev with
              | Extracted _ _ => None
              | Skipped start msg => Some (parseWarning start msg)
              end) evs.


(** The spans [(start, end)] of the calls extracted by a list of
    iterations. *)
Definition spansOf (source : jsstring) (evs : list Event) : list (nat * nat) :=
  omap (λ ev, match ev with
              | Extracted start close => Some (start, callEnd source close)
              | Skipped _ _ => None
              end) evs.

(** Spans in source order that do not overlap, between [lo] and [hi]:
    [lo <= start_1 < end_1 <= start_2 < end_2 <= ... <= hi]. *)
Fixpoint ordered (lo : nat) (spans : list (nat * nat)) (hi : nat) : Prop :=
  match spans with
  | [] => True
  | (a, b) :: rest => lo ≤ a ∧ a < b ∧ b ≤ hi ∧ ordered b rest hi
  end.

(** [c] is the closing parenthesis that matches the opening one at [o]:
    counting only parentheses that are ordinary code, the depth is positive
    from [o] up to [c] and zero after [c]. *)
Definition matchingClose (source : jsstring) (o c : nat) : Prop :=
  o < c < length source
  ∧ is_chr (source !! o) "(" = true
  ∧ is_chr (source !! c) ")" = true
  ∧ plainAt source o c = true
  ∧ parenDepth source o (S c) = 0%Z
  ∧ ∀ j, o ≤ j < c → (0 < parenDepth source o (S j))%Z.

(** The text from [start] to [end_] is one call: [__d], the argument list
    up to the matching closing parenthesis, the white space that follows
    it, all of it, and the [;] after that when there is one. *)
Definition isCallSpan (source : jsstring) (start end_ : nat) : Prop :=
  ∃ (close : nat) (ws semi : jsstring),
    matchingClose source (start + 3) close
    ∧ slice source start end_
      = lit "__d" ++ slice source (start + 3) (close + 1) ++ ws ++ semi
    ∧ Forall (λ c, isSpace c = true) ws
    ∧ (∀ c, source !! (close + 1 + length ws) = Some c → isSpace c = false)
    ∧ semi = (if is_chr (source !! (close + 1 + length ws)) ";"
              then lit ";" else [])
    ∧ end_ = close + 1 + length ws + length semi.

(** The cursor after an iteration, and the start of the call it met. *)
Definition nextCursor (source : jsstring) (ev : Event) : nat :=
  match ev with
  | Extracted _ close => callEnd source close
  | Skipped start _ => start + 4
  end.

Definition eventStart (ev : Event) : nat :=
  match ev with
  | Extracted start _ => start
  | Skipped start _ => start
  end.

(** Every iteration moves the cursor forward, past the marker it met. *)
Fixpoint progress (source : jsstring) (i : nat) (evs : list Event) : Prop :=
  match evs with
  | [] => True
  | ev :: rest =>
      i ≤ eventStart ev
      ∧ eventStart ev + 4 ≤ nextCursor source ev
      ∧ nextCursor source ev ≤ length source
      ∧ progress source (nextCursor source ev) rest
  end.

(** ** Naming and grouping *)

(** [dCall.indexOf(pat)]; [None] is [-1]. *)
Fixpoint indexOfFrom (pat s : jsstring) (i : nat) : option nat :=
  if bool_decide (take (length pat) s = pat) then Some i
  else
    match s with
    | [] => None
    | _ :: rest => indexOfFrom pat rest (S i)
    end.

Definition indexOf (pat s : jsstring) : option nat := indexOfFrom pat s 0.

(** The characters of a string literal after its opening [quote], up to the
    closing one; [None] is [null]. *)
Fixpoint readString (quote : N) (rest out : jsstring) : option jsstring :=
  match rest with
  | [] => None
  | ch :: rest' =>
      if N.eqb ch (chr "\") then
        match rest' with
        | next :: rest'' => readString quote rest'' (out ++ [next])
        | [] => None
        end
      else if N.eqb ch quote then Some out
      else readString quote rest' (out ++ [ch])
  end.

Fixpoint dropSpaces (s : jsstring) : jsstring :=
  match s with
  | c :: rest => if isSpace c then dropSpaces rest else s
  | [] => []
  end.

Definition extractFirstStringArg (dCall : jsstring) : option jsstring :=
  match indexOf marker dCall with
  | None => None
  | Some start =>
      match dropSpaces (drop (start + 4) dCall) with
      | quote :: rest =>
          if N.eqb quote dquote || N.eqb quote (chr "'")
          then readString quote rest []
          else None
      | [] => None
      end
  end.

(** [s.trim()]. *)
Definition trim (s : jsstring) : jsstring :=
  reverse (dropSpaces (reverse (dropSpaces s))).

(** The class [[\w\-\[\]]]. *)
Definition isNameChar (c : N) : bool :=
  isWord c || N.eqb c (chr "-") || N.eqb c (chr "[") || N.eqb c (chr "]").

(** [rawName && /^[\w\[\]-]+/.test(rawName)]. *)
Definition hasNameHead (rawName : jsstring) : bool :=
  match rawName with
  | c :: _ => isNameChar c
  | [] => false
  end.

(** [s.replace(/[^\w\-\[\]]+/g, '_')]; [inRun] when the previous character
    was replaced too. *)
Fixpoint replaceRuns (inRun : bool) (s : jsstring) : jsstring :=
  match s with
  | [] => []
  | c :: rest =>
      if isNameChar c then c :: replaceRuns false rest
      else if inRun then replaceRuns true rest
      else chr "_" :: replaceRuns true rest
  end.

Definition sanitize (s : jsstring) : jsstring := replaceRuns false s.

Definition WAWeb : jsstring := lit "WAWeb".

Definition normalizeForMerge (name : jsstring) : jsstring :=
  if startsWithAt WAWeb name 0 then drop (length WAWeb) name else name.

Fixpoint longestCommonPrefix (a b : jsstring) : jsstring :=
  match a, b with
  | x :: a', y :: b' => if N.eqb x y then x :: longestCommonPrefix a' b' else []
  | _, _ => []
  end.

(** [Array.prototype.sort] with a comparator: a stable sort, [x] before [y]
    when [cmp x y <= 0] and [x] came first. *)
Fixpoint insertSorted {A} (cmp : A → A → Z) (x : A) (l : list A) : list A :=
  match l with
  | [] => [x]
  | y :: rest =>
      if (cmp x y <=? 0)%Z then x :: l else y :: insertSorted cmp x rest
  end.

Definition sortBy {A} (cmp : A → A → Z) (l : list A) : list A :=
  foldr (insertSorted cmp) [] l.

(** The objects [{ raw, norm }]. *)
Record Named := mkNamed { raw : jsstring; norm : jsstring }.

(** [set.add(m)] on a [Set] kept in insertion order. *)
Definition setAdd (m : jsstring) (ms : list jsstring) : list jsstring :=
  if bool_decide (m ∈ ms) then ms else ms ++ [m].

(** [if (!pm.has(key)) pm.set(key, new Set()); pm.get(key).add(m)] on a
    [Map] kept in insertion order. *)
Fixpoint addMember (key m : jsstring) (pm : list (jsstring * list jsstring))
    : list (jsstring * list jsstring) :=
  match pm with
  | [] => [(key, [m])]
  | (k, ms) :: rest =>
      if bool_decide (k = key) then (k, setAdd m ms) :: rest
      else (k, ms) :: addMember key m rest
  end.

(** The loop on [j], for [items[i] = a] and [rest] the items after it. *)
Fixpoint pairInner (minPrefixLen : nat) (a : Named) (rest : list Named)
    (pm : list (jsstring * list jsstring)) : list (jsstring * list jsstring) :=
  match rest with
  | [] => pm
  | b :: rest' =>
      let lcp := longestCommonPrefix (norm a) (norm b) in
      if length lcp <? minPrefixLen then pm
      else pairInner minPrefixLen a rest'
             (addMember lcp (raw b) (addMember lcp (raw a) pm))
  end.

(** The loop on [i]. *)
Fixpoint pairOuter (minPrefixLen : nat) (items : list Named)
    (pm : list (jsstring * list jsstring)) : list (jsstring * list jsstring) :=
  match items with
  | [] => pm
  | a :: rest => pairOuter minPrefixLen rest (pairInner minPrefixLen a rest pm)
  end.

(** The loop over [candidates], with [selected] and [covered] as state. *)
Fixpoint selectPrefixes (minMembers : nat)
    (candidates : list (jsstring * list jsstring))
    (selected : list jsstring) (covered : list jsstring) : list jsstring :=
  match candidates with
  | [] => selected
  | (prefix, members) :: rest =>
      let uncovered := filter (λ m, m ∉ covered) members in
      if minMembers <=? length uncovered then
        selectPrefixes minMembers rest (selected ++ [prefix])
          (foldl (λ cov m, setAdd m cov) covered members)
      else selectPrefixes minMembers rest selected covered
  end.

(** [b[0].length - a[0].length || b[1].size - a[1].size]. *)
Definition candidateOrder (a b : jsstring * list jsstring) : Z :=
  let d := (Z.of_nat (length b.1) - Z.of_nat (length a.1))%Z in
  if (d =? 0)%Z then (Z.of_nat (length b.2) - Z.of_nat (length a.2))%Z else d.

Section Naming.

(** [String.prototype.localeCompare], the SHA-1 digest in hexadecimal of
    [crypto], [minify] of terser ([None] when it throws, else [out.code],
    the empty string when it is missing) and [path.sep]. *)
Variable localeCompare : jsstring → jsstring → Z.
Variable sha1hex : jsstring → jsstring.
Variable minify : jsstring → option jsstring.
Variable sep : jsstring.

Definition prefixMembersOf (minPrefixLen : nat) (rawNames : list jsstring)
    : list Named * list (jsstring * list jsstring) :=
  let items :=
    filter (λ x, minPrefixLen ≤ length (norm x))
      ((λ r, mkNamed r (normalizeForMerge r)) <$> rawNames) in
  let items := sortBy (λ a b, localeCompare (norm a) (norm b)) items in
  (items, pairOuter minPrefixLen items []).

Definition computeMergePrefixes (rawNames : list jsstring)
    (minPrefixLen minMembers : nat) : list Named :=
  if length rawNames <? minMembers then []
  else
    let '(items, prefixMembers) := prefixMembersOf minPrefixLen rawNames in
    let candidates :=
      sortBy candidateOrder
        (filter (λ e, minMembers ≤ length e.2) prefixMembers) in
    let selected := selectPrefixes minMembers candidates [] [] in
    (λ n,
       let matching := filter (λ i, startsWithAt n (norm i) 0 = true) items in
       let withWAWeb :=
         length (filter (λ i, startsWithAt WAWeb (raw i) 0 = true) matching) in
       mkNamed (if length matching <? 2 * withWAWeb then WAWeb ++ n else n) n)
    <$> selected.

Definition safeNameComponent (name : jsstring) : jsstring :=
  let cleaned := trim (sanitize name) in
  let raw := match cleaned with [] => lit "group" | _ => cleaned end in
  let maxLen := 80 in
  if length raw <=? maxLen then raw
  else
    let hash := take 10 (sha1hex raw) in
    let prefixLen := Nat.max 1 (maxLen - (1 + length hash)) in
    take prefixLen raw ++ lit "_" ++ hash.

(** [for (const p of prefixes) if (matches p) if (!best || p.norm.length >
    best.norm.length) best = p]. *)
Definition pickBest (matches : Named → bool) (prefixes : list Named)
    : option Named :=
  foldl (λ best p,
           if matches p then
             match best with
             | None => Some p
             | Some b => if length (norm b) <? length (norm p) then Some p else best
             end
           else best) None prefixes.

(** [s.lastIndexOf(c)], as [index + 1]: [0] is [-1]. *)
Fixpoint lastIndexOf1 (c : N) (s : jsstring) (i : nat) (found : nat) : nat :=
  match s with
  | [] => found
  | x :: rest => lastIndexOf1 c rest (S i) (if N.eqb x c then S i else found)
  end.

(** The cluster chosen for a name, and whether it was chosen by the suffix
    after the last dot. *)
Definition pickMergePrefix (rawName : jsstring) (prefixes : list Named)
    : option (Named * bool) :=
  let norm_ := normalizeForMerge rawName in
  let dot1 := lastIndexOf1 (chr ".") norm_ 0 0 in
  let bySuffix :=
    if 1 <? dot1 then
      let suffix := drop dot1 norm_ in
      pickBest (λ p, bool_decide (suffix = norm p)
                     || startsWithAt (norm p) suffix 0) prefixes
    else None in
  match bySuffix with
  | Some best => Some (best, true)
  | None =>
      match pickBest (λ p, startsWithAt (norm p) norm_ 0) prefixes with
      | Some best => Some (best, false)
      | None => None
      end
  end.

Definition pickMergeDir (rawName : jsstring) (prefixes : list Named)
    : option jsstring :=
  (λ b, safeNameComponent (raw b.1)) <$> pickMergePrefix rawName prefixes.

(** ** The export pipeline *)

(** [s.replace(/c(?=...)/g, 'c\n')]: a line break after every [c] that is
    followed by a character satisfying [ahead]. *)
Fixpoint breakAfter (c : N) (ahead : N → bool) (s : jsstring) : jsstring :=
  match s with
  | [] => []
  | x :: rest =>
      if N.eqb x c && match rest with y :: _ => ahead y | [] => false end
      then x :: chr "010" :: breakAfter c ahead rest
      else x :: breakAfter c ahead rest
  end.

Definition formatForIA (minified : jsstring) : jsstring :=
  breakAfter (chr "}")
    (λ y, negb (isSpace y || bool_decide (y ∈ lit ",;)]")))
    (breakAfter (chr "{") (λ y, negb (isSpace y))
       (breakAfter (chr ";") (λ y, negb (isSpace y)) minified)).

Definition maybeToIA (code_ : jsstring) (enabled : bool) : jsstring :=
  if enabled then
    match minify code_ with
    | Some ((_ :: _) as min) => formatForIA min
    | Some [] => formatForIA code_
    | None => formatForIA code_
    end
  else code_.

Record ExportFile := mkExportFile { fileName : jsstring; content : jsstring }.

(** The optional fields of [opts]; [None] is a missing field. *)
Record Opts := mkOpts {
  disambiguate : option bool;
  toIa : option bool;
  mergeCommonNames : option bool;
  mergeCommonPrefixes : option (list jsstring)
}.

Definition noOpts : Opts := mkOpts None None None None.

(** The variables [count], [usedNames] ([None] is [null]) and [out] of
    [buildExportFiles]. *)
Record Naming := mkNaming {
  count : nat;
  usedNames : option (gmap jsstring nat);
  out : list ExportFile
}.

Definition rawNameOf (dCall : jsstring) : jsstring :=
  trim (default [] (extractFirstStringArg dCall)).

(** The body of the loop over [calls]. *)
Definition exportStep (toIa_ mergeCommonNames_ : bool)
    (mergePrefixes : list Named) (st : Naming) (dCall : jsstring) : Naming :=
  let rawName := rawNameOf dCall in
  let named := hasNameHead rawName in
  let count' := if named then count st else S (count st) in
  let safeBaseBase :=
    if named then sanitize rawName else lit "module_" ++ decimal count' in
  let '(usedNames', safeBase) :=
    match usedNames st with
    | Some used =>
        let seen := default 0 (used !! safeBaseBase) in
        (Some (<[safeBaseBase := seen + 1]> used),
         if seen =? 0 then safeBaseBase
         else safeBaseBase ++ lit "_" ++ decimal (seen + 1))
    | None => (None, safeBaseBase)
    end in
  let content_ := maybeToIA dCall toIa_ in
  let file := safeBase ++ lit ".js" in
  let relPath :=
    if mergeCommonNames_ && named then
      match pickMergeDir rawName mergePrefixes with
      | Some ((_ :: _) as dir) => dir ++ sep ++ file
      | _ => file
      end
    else file in
  mkNaming count' usedNames' (out st ++ [mkExportFile relPath content_]).

Definition mergePrefixesFor (mergeCommonNames_ : bool)
    (mergeCommonPrefixes_ : option (list jsstring)) (calls : list jsstring)
    : list Named :=
  if mergeCommonNames_ then
    match mergeCommonPrefixes_ with
    | Some ((_ :: _) as given) =>
        (λ r, mkNamed r (normalizeForMerge r)) <$> given
    | _ =>
        computeMergePrefixes (filter (λ n, hasNameHead n = true) (rawNameOf <$> calls))
          3 2
    end
  else [].

(** [buildExportFiles]; [None] only when the extraction runs out of fuel. *)
Definition buildExportFiles (bundleContent : jsstring) (opts : Opts)
    : option (list ExportFile) :=
  calls ← extractDCalls bundleContent;
  match calls with
  | [] => Some []
  | _ =>
      let disambiguate_ := negb (bool_decide (disambiguate opts = Some false)) in
      let toIa_ := bool_decide (toIa opts = Some true) in
      let mergeCommonNames_ := bool_decide (mergeCommonNames opts = Some true) in
      let mergePrefixes :=
        mergePrefixesFor mergeCommonNames_ (mergeCommonPrefixes opts) calls in
      Some (out (foldl (exportStep toIa_ mergeCommonNames_ mergePrefixes)
                   (mkNaming 0 (if disambiguate_ then Some ∅ else None) [])
                   calls))
  end.

End Naming.

(** Parameters for running the definitions on examples: a comparison by
    code units in the place of [localeCompare], no digest (no name here is
    longer than 80 characters), no minifier and the POSIX separator.  The
    order of a locale is not the order of the code units: it differs on
    punctuation and on letters of different case.  The names compared in
    the examples and witnesses below differ first at two capital or two
    small letters, where both orders agree; the theorems are stated for
    every comparison. *)
Fixpoint codeUnitCompare (a b : jsstring) : Z :=
  match a, b with
  | [], [] => 0
  | [], _ :: _ => (-1)
  | _ :: _, [] => 1
  | x :: a', y :: b' =>
      if (x <? y)%N then (-1) else if (y <? x)%N then 1 else codeUnitCompare a' b'
  end.

Definition noDigest (s : jsstring) : jsstring := [].
Definition noMinify (s : jsstring) : option jsstring := None.
Definition posixSep : jsstring := lit "/".

(** The base names of the modules, in order: the sanitized declared name,
    or [module_<n>] with the running counter. *)
Fixpoint baseNames (count_ : nat) (calls : list jsstring) : list jsstring :=
  match calls with
  | [] => []
  | dCall :: rest =>
      let rawName := rawNameOf dCall in
      if hasNameHead rawName then sanitize rawName :: baseNames count_ rest
      else (lit "module_" ++ decimal (S count_)) :: baseNames (S count_) rest
  end.

(** Disambiguation as the specification words it: the first occurrence of
    a base name keeps it, and an occurrence that follows [seen] earlier
    ones gets [_<seen + 1>] appended. *)
Fixpoint disambiguated (earlier bases : list jsstring) : list jsstring :=
  match bases with
  | [] => []
  | b :: rest =>
      let seen := length (filter (λ x, x = b) earlier) in
      (if seen =? 0 then b else b ++ lit "_" ++ decimal (seen + 1))
      :: disambiguated (earlier ++ [b]) rest
  end.

(** ** The bounded concurrency runner

    [runWithConcurrency] as a transition system.  JavaScript runs one task
    at a time: a runner (one call of the [async] arrow function) executes
    without interruption from the top of its [while] loop to the next
    [await], and is resumed when the promise of its worker invocation
    settles.  An event is the settling of the invocation that a runner
    awaits; which one settles next, and how, is up to the environment. *)

(** A runner awaits the invocation for index [idx], has returned, or has
    rejected with the failure of the invocation for [idx]. *)
Inductive Runner :=
| Awaiting (idx : nat)
| Returned
| Rejected (idx : nat).

(** The promise of [Promise.all(runners)], hence of the whole call once it
    is settled. *)
Inductive Settled :=
| Fulfilled
| Failed (idx : nat).

Record Run (T : Type) := mkRun {
  nextIdx : nat;
  runners : list Runner;
  invoked : list (T * nat);   (* the calls [worker(items[idx], idx)] made *)
  completed : list nat;       (* the invocations that fulfilled *)
  settled : option Settled    (* [None] while the call has not returned *)
}.
Arguments mkRun {T}.
Arguments nextIdx {T}.
Arguments runners {T}.
Arguments invoked {T}.
Arguments completed {T}.
Arguments settled {T}.

(** [Math.max(1, Math.floor(limit))]; [limit] is a finite number. *)
Definition concurrencyOf (limit : Q) : nat :=
  Z.to_nat (Z.max 1 (Qfloor limit)).

(** From the top of the [while] loop to the [return] or the [await]. *)
Definition loopTop {T} (items : list T) (nextIdx_ : nat) (invoked_ : list (T * nat))
    : nat * list (T * nat) * Runner :=
  let idx := nextIdx_ in
  match items !! idx with
  | None => (S nextIdx_, invoked_, Returned)
  | Some item => (S nextIdx_, invoked_ ++ [(item, idx)], Awaiting idx)
  end.

(** The [map] that creates the runners: each runs up to its first
    [await]. *)
Fixpoint startRunners {T} (items : list T) (n : nat) (st : Run T) : Run T :=
  match n with
  | 0 => st
  | S n' =>
      let '(next, inv, r) := loopTop items (nextIdx st) (invoked st) in
      startRunners items n'
        (mkRun next (runners st ++ [r]) inv (completed st) (settled st))
  end.

Definition isReturned (r : Runner) : bool :=
  match r with Returned => true | _ => false end.

(** [Promise.all] looks at the runners after an event. *)
Definition joinAll (runners_ : list Runner) (settled_ : option Settled)
    (rejectedNow : option nat) : option Settled :=
  match settled_ with
  | Some s => Some s
  | None =>
      match rejectedNow with
      | Some idx => Some (Failed idx)
      | None => if forallb isReturned runners_ then Some Fulfilled else None
      end
  end.

Definition initRun {T} (items : list T) (limit : Q) : Run T :=
  let st :=
    startRunners items (Nat.min (concurrencyOf limit) (length items))
      (mkRun 0 [] [] [] None) in
  mkRun (nextIdx st) (runners st) (invoked st) (completed st)
    (joinAll (runners st) None None).

(** The invocation awaited by runner [k] settles: it fulfils ([ok]) and the
    runner goes round its loop, or it rejects and the runner rejects.
    [None] when runner [k] is not awaiting. *)
Definition stepRun {T} (items : list T) (st : Run T) (k : nat) (ok : bool)
    : option (Run T) :=
  match runners st !! k with
  | Some (Awaiting idx) =>
      if ok then
        let '(next, inv, r) := loopTop items (nextIdx st) (invoked st) in
        let rs := <[k := r]> (runners st) in
        Some (mkRun next rs inv (completed st ++ [idx])
                (joinAll rs (settled st) None))
      else
        let rs := <[k := Rejected idx]> (runners st) in
        Some (mkRun (nextIdx st) rs (invoked st) (completed st)
                (joinAll rs (settled st) (Some idx)))
  | _ => None
  end.

Inductive reachable {T} (items : list T) (limit : Q) : Run T → Prop :=
| reach_init : reachable items limit (initRun items limit)
| reach_step st k ok st' :
    reachable items limit st → stepRun items st k ok = Some st' →
    reachable items limit st'.

(** The indices of the invocations in flight. *)
Definition inFlight {T} (st : Run T) : list nat :=
  omap (λ r, match r with Awaiting idx => Some idx | _ => None end) (runners st).

(** The indices of the invocations that failed. *)
Definition failedIdx {T} (st : Run T) : list nat :=
  omap (λ r, match r with Rejected idx => Some idx | _ => None end) (runners st).

(** ** The worker pool *)

Inductive Outcome :=
| Resolved
| RejectedWith (e : jsstring).

(** [tasks] maps the id of a pending request to its output directory;
    [posted] lists the [postMessage] calls as (worker index, request id);
    [outcomes] records how the promise of a request was settled. *)
Record Pool := mkPool {
  workers : nat;
  nextWorkerIdx : nat;
  nextTaskId : nat;
  tasks : gmap nat jsstring;
  posted : list (nat * nat);
  outcomes : gmap nat Outcome
}.

(** [new WorkerPool(count)]. *)
Definition newPool (count_ : nat) : Pool := mkPool count_ 0 1 ∅ [] ∅.

(** [process] up to its [await]: the id of the request and the pool.
    ([count] is positive: the pool is only made for [poolSize > 0].) *)
Definition process (outDir : jsstring) (p : Pool) : nat * Pool :=
  let id := nextTaskId p in
  (id,
   mkPool (workers p) ((nextWorkerIdx p + 1) `mod` workers p) (S id)
     (<[id := outDir]> (tasks p)) (posted p ++ [(nextWorkerIdx p, id)])
     (outcomes p)).

(** [onWorkerError(e)]: every entry of [tasks] is deleted and rejected. *)
Definition onWorkerError (e : jsstring) (p : Pool) : Pool :=
  mkPool (workers p) (nextWorkerIdx p) (nextTaskId p) ∅ (posted p)
    (((λ _, RejectedWith e) <$> tasks p) ∪ outcomes p).

(** The handler the constructor installs on worker [w]:
    [w.on('error', (e) => this.onWorkerError(e))]. *)
Definition workerErrorEvent (w : nat) (e : jsstring) (p : Pool) : Pool :=
  onWorkerError e p.

(** The requests posted to worker [w] that are pending. *)
Definition pendingOn (w : nat) (p : Pool) : list nat :=
  omap (λ m, if bool_decide (m.1 = w ∧ is_Some (tasks p !! m.2))
             then Some m.2 else None) (posted p).

(** What holds of the map [prefixMembers] while it is built: every key is
    long enough, and its members are distinct names of the input whose
    normalized names start with the key. *)
Definition membersOk (minPrefixLen : nat) (rawNames : list jsstring)
    (pm : list (jsstring * list jsstring)) : Prop :=
  Forall (λ e, minPrefixLen ≤ length e.1
               ∧ NoDup e.2
               ∧ Forall (λ m, m ∈ rawNames
                              ∧ e.1 `prefix_of` normalizeForMerge m) e.2) pm.

(** What holds in every state of a run: the indices are dispatched in
    order, each invocation with the item at its index; each invocation made
    has fulfilled, is in flight or has failed; a runner returns only when
    every index is taken; and the call is settled as [Promise.all]
    settles. *)
Definition runInv {T} (items : list T) (st : Run T) : Prop :=
  (invoked st).*2 = seq 0 (Nat.min (nextIdx st) (length items))
  ∧ (∀ item idx, (item, idx) ∈ invoked st → items !! idx = Some item)
  ∧ (invoked st).*2 ≡ₚ completed st ++ inFlight st ++ failedIdx st
  ∧ (Returned ∈ runners st → length items ≤ nextIdx st)
  ∧ match settled st with
    | None => failedIdx st = []
    | Some Fulfilled => Forall (λ r, r = Returned) (runners st)
    | Some (Failed idx) => idx ∈ failedIdx st
    end.

(** [p] is the offset of a [__d(] that the scan started at [o] reaches in
    code. *)
Definition isCodeMarker (source : jsstring) (o p : nat) : Prop :=
  startsWithAt marker source p = true
  ∧ ∃ st, lexStateAt source o p = Some st ∧ mode st = code.

(** ** The messages of a worker *)

(** A file of a chunk is its name and its encoded content. *)
Inductive WorkerMessage :=
| Chunk (id : nat) (files : list (jsstring * list N))
| Done (id : nat)
| ErrorMsg (id : nat) (message : jsstring).

Definition messageId (msg : WorkerMessage) : nat :=
  match msg with
  | Chunk id _ => id
  | Done id => id
  | ErrorMsg id _ => id
  end.

Definition BATCH_SIZE : nat := 100.

(** [flush] of [handle]: the batch is posted unless it is empty. *)
Definition flush (id : nat) (batch : list (jsstring * list N))
    (messages : list WorkerMessage) : list WorkerMessage :=
  match batch with
  | [] => messages
  | _ :: _ => messages ++ [Chunk id batch]
  end.

Section Worker.

(** [TextEncoder.encode] and the decoding of the bundle as UTF-8. *)
Variable encode : jsstring → list N.
Variable decode : list N → jsstring.

(** The loop over [files] of [handle], with [batch] and the messages posted
    so far as state. *)
Fixpoint batchFiles (id : nat) (files : list ExportFile)
    (batch : list (jsstring * list N)) (messages : list WorkerMessage)
    : list (jsstring * list N) * list WorkerMessage :=
  match files with
  | [] => (batch, messages)
  | f :: rest =>
      let batch := batch ++ [(fileName f, encode (content f))] in
      if BATCH_SIZE <=? length batch
      then batchFiles id rest [] (flush id batch messages)
      else batchFiles id rest batch messages
  end.

(** The messages [handle] posts for the files of a request. *)
Definition postFiles (id : nat) (files : list ExportFile) : list WorkerMessage :=
  let '(batch, messages) := batchFiles id files [] [] in
  flush id batch messages ++ [Done id].

Record WorkerRequest := mkRequest {
  reqId : nat;
  reqBundle : list N;
  reqDisambiguate : bool;
  reqToIa : bool;
  reqMergeCommonNames : bool;
  reqMergeCommonPrefixes : option (list jsstring)
}.

Variable localeCompare : jsstring → jsstring → Z.
Variable sha1hex : jsstring → jsstring.
Variable minify : jsstring → option jsstring.
Variable sep : jsstring.

(** [handle]: the messages posted for a request; [None] only when the
    extraction runs out of fuel. *)
Definition handle (req : WorkerRequest) : option (list WorkerMessage) :=
  files ← buildExportFiles localeCompare sha1hex minify sep
             (decode (reqBundle req))
             (mkOpts (Some (reqDisambiguate req)) (Some (reqToIa req))
                (Some (reqMergeCommonNames req)) (reqMergeCommonPrefixes req));
  Some (postFiles (reqId req) files).

End Worker.

(** ** The messages in the pool *)

(** A promise is settled once: a later [resolve] or [reject] does
    nothing. *)
Definition settle (id : nat) (o : Outcome) (outs : gmap nat Outcome)
    : gmap nat Outcome :=
  match outs !! id with
  | Some _ => outs
  | None => <[id := o]> outs
  end.

(** What [onMessage] appends to the write chain of the request. *)
Inductive Scheduled :=
| Nothing
| WriteFiles (id : nat) (outDir : jsstring) (files : list (jsstring * list N))
| Finish (id : nat).

(** [onMessage], up to the promise callbacks it registers. *)
Definition onMessage (msg : WorkerMessage) (p : Pool) : Pool * Scheduled :=
  match tasks p !! messageId msg with
  | None => (p, Nothing)
  | Some outDir =>
      match msg with
      | ErrorMsg id message =>
          (mkPool (workers p) (nextWorkerIdx p) (nextTaskId p)
             (delete id (tasks p)) (posted p)
             (settle id (RejectedWith message) (outcomes p)),
           Nothing)
      | Chunk id files => (p, WriteFiles id outDir files)
      | Done id => (p, Finish id)
      end
  end.

(** The callbacks that a [done] message registers on the write chain, run
    when the chain has settled, with its failure if it failed. *)
Definition chainSettled (id : nat) (failure : option jsstring) (p : Pool)
    : Pool :=
  mkPool (workers p) (nextWorkerIdx p) (nextTaskId p) (delete id (tasks p))
    (posted p)
    (settle id (match failure with
                | None => Resolved
                | Some e => RejectedWith e
                end) (outcomes p)).

(** The requests [outDirs] submitted one after the other. *)
Definition processAll (outDirs : list jsstring) (p : Pool) : Pool :=
  foldl (λ p outDir, (process outDir p).2) p outDirs.

(** The events of a pool: a request is submitted, a message arrives, a
    write chain with its [done] callbacks settles, a worker fails.  The
    callbacks exist only for a request that was pending when its [done]
    arrived, hence for an id that has been given out. *)
Inductive poolStep : Pool → Pool → Prop :=
| pool_process outDir p : poolStep p (process outDir p).2
| pool_message msg p : poolStep p (onMessage msg p).1
| pool_chain id failure p :
    id < nextTaskId p → poolStep p (chainSettled id failure p)
| pool_error w e p : poolStep p (workerErrorEvent w e p).

Inductive poolReachable (count_ : nat) : Pool → Prop :=
| pool_new : poolReachable count_ (newPool count_)
| pool_next p p' :
    poolReachable count_ p → poolStep p p' → poolReachable count_ p'.

(** ** Command-line arguments *)

(** [a.startsWith(pat)]. *)
Definition startsWith (pat a : jsstring) : bool := startsWithAt pat a 0.

(** [args.indexOf(flagName)]; [None] is [-1]. *)
Fixpoint argIndexOf (args : list jsstring) (flagName : jsstring) : option nat :=
  match args with
  | [] => None
  | a :: rest =>
      if bool_decide (a = flagName) then Some 0
      else S <$> argIndexOf rest flagName
  end.

(** [getArgValue]; [None] is [null].  The empty string is falsy, in [!val]
    and in [found ? ... : null]. *)
Definition getArgValue (args : list jsstring) (flagName : jsstring)
    : option jsstring :=
  match argIndexOf args flagName with
  | Some idx =>
      match args !! (idx + 1) with
      | Some val =>
          if bool_decide (val = []) || startsWith (lit "-") val then None
          else Some val
      | None => None
      end
  | None =>
      let prefix := flagName ++ lit "=" in
      match List.find (startsWith prefix) args with
      | Some found =>
          if bool_decide (found = []) then None
          else Some (drop (length prefix) found)
      | None => None
      end
  end.

Definition hasFlag (args : list jsstring) (flagName : jsstring) : bool :=
  bool_decide (flagName ∈ args)
  || existsb (startsWith (flagName ++ lit "=")) args.

(** [args.filter((a) => !a.startsWith('-'))] of the main program. *)
Definition positionals (args : list jsstring) : list jsstring :=
  filter (λ a, startsWith (lit "-") a = false) args.

Definition knownFlags : list jsstring :=
  [lit "--no-subdirs"; lit "--flat"; lit "--to-ia"; lit "--concurrency";
   lit "--workers"; lit "--merge-common-names"; lit "--help"; lit "-h"].

(** [a.split('=')[0]]. *)
Fixpoint beforeEquals (a : jsstring) : jsstring :=
  match a with
  | [] => []
  | c :: rest => if N.eqb c (chr "=") then [] else c :: beforeEquals rest
  end.

(** [unknown.join(sep)]. *)
Fixpoint join (sep : jsstring) (l : list jsstring) : jsstring :=
  match l with
  | [] => []
  | [x] => x
  | x :: rest => x ++ sep ++ join sep rest
  end.

Definition flagBase (a : jsstring) : jsstring :=
  if startsWith (lit "--") a then beforeEquals a else a.

(** The array [unknown] of [assertNoUnknownFlags]. *)
Definition unknownFlags (args : list jsstring) : list jsstring :=
  filter (λ a, startsWith (lit "-") a = true ∧ flagBase a ∉ knownFlags) args.

Definition assertNoUnknownFlags (args : list jsstring) : Result unit :=
  match unknownFlags args with
  | [] => Ok tt
  | unknown => Throw (lit "Unknown flag(s): " ++ join (lit ", ") unknown)
  end.

(** ** The import side: [src/import/metro-loader.ts] *)

(** [raw.indexOf(pat, from)]; [None] is [-1]. *)
Definition indexOfAt (pat s : jsstring) (from : nat) : option nat :=
  indexOfFrom pat (drop from s) from.

(** [raw.lastIndexOf(pat, n)]: the last index at most [n] at which [pat]
    starts; [None] is [-1]. *)
Fixpoint lastIndexOfUpTo (pat s : jsstring) (n : nat) : option nat :=
  if startsWithAt pat s n then Some n
  else
    match n with
    | 0 => None
    | S k => lastIndexOfUpTo pat s k
    end.

(** The [for] loop of [extractFunctionExpression] over the characters from
    [i] on: the index of the closing brace at which [depth] returns to
    zero; [None] is [endIdx = -1]. *)
Fixpoint braceEnd (rest : jsstring) (i : nat) (depth : Z) : option nat :=
  match rest with
  | [] => None
  | ch :: rest' =>
      if N.eqb ch (chr "{") then braceEnd rest' (S i) (depth + 1)
      else if N.eqb ch (chr "}") then
        if (depth - 1 =? 0)%Z then Some i
        else braceEnd rest' (S i) (depth - 1)
      else braceEnd rest' (S i) depth
  end.

(** [startIdx] of [extractFunctionExpression]. *)
Definition functionStart (raw : jsstring) : option nat :=
  match indexOf (lit "(function") raw with
  | Some startIdx => Some startIdx
  | None =>
      let viaCall :=
        match indexOf marker raw with
        | Some dIdx =>
            match indexOfAt (lit "function") raw dIdx with
            | Some fnIdx =>
                (* /^\s*$/.test(between) *)
                if forallb isSpace (slice raw (dIdx + 4) fnIdx)
                then Some fnIdx else None
            | None => None
            end
        | None => None
        end in
      match viaCall with
      | Some startIdx => Some startIdx
      | None => indexOf (lit "function") raw
      end
  end.

Definition extractFunctionExpression (raw : jsstring) : Result jsstring :=
  match functionStart raw with
  | None => Throw (lit "No function expression wrapper found")
  | Some startIdx =>
      match indexOfAt (lit "{") raw startIdx with
      | None => Throw (lit "No function body start found")
      | Some openParenIdx =>
          match braceEnd (drop openParenIdx raw) openParenIdx 0 with
          | None => Throw (lit "No matching function body end found")
          | Some endIdx =>
              let funcKeywordIdx :=
                match lastIndexOfUpTo (lit "function") raw openParenIdx with
                | Some k => k
                | None => length raw - 1 (* [slice(-1, ...)] *)
                end in
              Ok (trim (slice raw funcKeywordIdx (endIdx + 1)))
          end
      end
  end.

(** What a character adds to the count of open braces, and the count over
    a string. *)
Definition braceValue (c : N) : Z :=
  if N.eqb c (chr "{") then 1 else if N.eqb c (chr "}") then (-1) else 0.

Definition braceDepth (s : jsstring) : Z :=
  foldr (λ c acc, braceValue c + acc)%Z 0%Z s.

(** ** The output directories of a batch of URLs *)

Section Jobs.

(** [safeDirNameFromUrl] parses the URL with the platform's [URL] class;
    it is a parameter here. *)
Variable safeDirNameFromUrl : jsstring → nat → jsstring.

(** The directory names that [urls.map] of the main program gives the
    jobs when every URL gets a directory of its own: [usedDirs] is the
    [Map], [idx] the index of the first URL of [urls]. *)
Fixpoint jobDirNames (usedDirs : gmap jsstring nat) (idx : nat)
    (urls : list jsstring) : list jsstring :=
  match urls with
  | [] => []
  | url :: rest =>
      let dirBase := safeDirNameFromUrl url (idx + 1) in
      let seen := default 0 (usedDirs !! dirBase) in
      (if seen =? 0 then dirBase else dirBase ++ lit "_" ++ decimal (seen + 1))
      :: jobDirNames (<[dirBase := seen + 1]> usedDirs) (S idx) rest
  end.

End Jobs.

(** ** Texts made of code, strings, comments, templates and regular
    expressions

    The lexical structure of a text, stated without the tracker: the text
    is a sequence of pieces, each a stretch of code in which no quote,
    backtick or slash occurs, a quoted string, a line comment with the line
    feed that ends it, a block comment, a template literal without
    interpolation, or a regular-expression literal.  A text with a
    division or with a template interpolation is not of this kind.  The
    scanners are compared with this structure below. *)

(** What a string, a template or a regular expression is made of: a
    character, or a backslash and the character after it. *)
Inductive Item :=
| Chr (c : N)
| Esc (c : N).

(** What a regular expression is made of: items, and character classes
    between square brackets. *)
Inductive RegexItem :=
| Plainly (it : Item)
| Class (body : list Item).

Inductive Piece :=
| CodeText (text : jsstring)
| Quoted (quote : N) (body : list Item)
| LineComment (text : jsstring)
| BlockComment (text : jsstring)
| TemplateText (body : list Item)
| RegexLiteral (body : list RegexItem).

Definition renderItem (it : Item) : jsstring :=
  match it with
  | Chr c => [c]
  | Esc c => [chr "\"; c]
  end.

Fixpoint renderItems (body : list Item) : jsstring :=
  match body with
  | [] => []
  | it :: rest => renderItem it ++ renderItems rest
  end.

Definition renderRegexItem (it : RegexItem) : jsstring :=
  match it with
  | Plainly it => renderItem it
  | Class body => chr "[" :: renderItems body ++ [chr "]"]
  end.

Fixpoint renderRegexItems (body : list RegexItem) : jsstring :=
  match body with
  | [] => []
  | it :: rest => renderRegexItem it ++ renderRegexItems rest
  end.

(** The characters of a piece. *)
Definition render1 (p : Piece) : jsstring :=
  match p with
  | CodeText text => text
  | Quoted quote body => quote :: renderItems body ++ [quote]
  | LineComment text => lit "//" ++ text ++ [chr "010"]
  | BlockComment text => lit "/*" ++ text ++ lit "*/"
  | TemplateText body => chr "`" :: renderItems body ++ [chr "`"]
  | RegexLiteral body => chr "/" :: renderRegexItems body ++ [chr "/"]
  end.

Fixpoint render (ps : list Piece) : jsstring :=
  match ps with
  | [] => []
  | p :: rest => render1 p ++ render rest
  end.

(** For every character of the text, whether it is a character of code. *)
Definition mask1 (p : Piece) : list bool :=
  match p with
  | CodeText text => replicate (length text) true
  | _ => replicate (length (render1 p)) false
  end.

Fixpoint codeMask (ps : list Piece) : list bool :=
  match ps with
  | [] => []
  | p :: rest => mask1 p ++ codeMask rest
  end.

Definition isLineEnd (c : N) : bool :=
  ((c =? 10) || (c =? 13) || (c =? 8232) || (c =? 8233))%N.

(** A character that can stand in code without opening a string, a
    template, a comment or a regular expression. *)
Definition isCodeChar (c : N) : bool :=
  negb (N.eqb c (chr "'")) && negb (N.eqb c dquote)
  && negb (N.eqb c (chr "`")) && negb (N.eqb c (chr "/")).

(** An item of a text that ends at the first of the characters [stops]:
    an escape, or a character that is not a backslash, a line break or one
    of [stops]. *)
Definition wfItem (stops : list N) (lineBreaks : bool) (it : Item) : bool :=
  match it with
  | Chr c =>
      negb (bool_decide (c ∈ stops)) && negb (N.eqb c (chr "\"))
      && (lineBreaks || negb (isLineEnd c))
  | Esc c => lineBreaks || negb (isLineEnd c)
  end.

Definition wfRegexItem (it : RegexItem) : bool :=
  match it with
  | Plainly it => wfItem [chr "/"; chr "["] false it
  | Class body => forallb (wfItem [chr "]"] false) body
  end.

(** The pieces that are what their names say: code without quote, backtick
    and slash; a string between two equal quotes with no unescaped quote,
    backslash or line break inside; a line comment without a line
    terminator inside; a block comment in which [*/] occurs at its end
    only; a template literal without unescaped backtick, backslash or
    dollar sign inside; a regular expression that is not empty, does not
    begin with a star, and has no unescaped slash outside its character
    classes. *)
Definition wfPiece (p : Piece) : bool :=
  match p with
  | CodeText text => forallb isCodeChar text
  | Quoted quote body =>
      (N.eqb quote (chr "'") || N.eqb quote dquote)
      && forallb (wfItem [quote] false) body
  | LineComment text => forallb (λ c, negb (isLineEnd c)) text
  | BlockComment text =>
      forallb (λ k, negb (startsWithAt (lit "*/") (text ++ lit "*/") k))
        (seq 0 (length text))
  | TemplateText body => forallb (wfItem [chr "`"; chr "$"] true) body
  | RegexLiteral body =>
      forallb wfRegexItem body
      && match renderRegexItems body with
         | [] => false
         | c :: _ => negb (N.eqb c (chr "*"))
         end
  end.

(** Where a slash begins a regular expression: the last character before
    it that is not white space, if there is one, is one of
    [( [ { , : ; = ! ? ~ + - * % & | ^ < >]. *)
Definition regexContext (source : jsstring) (b : nat) : bool :=
  match dropSpaces (reverse (take b source)) with
  | [] => true
  | prev :: _ => bool_decide (prev ∈ lit "([{,:;=!?~+-*%&|^<>")
  end.

(** The pieces stand in [source] from index [b] on as what they are. *)
Fixpoint piecesOk (source : jsstring) (b : nat) (ps : list Piece) : bool :=
  match ps with
  | [] => true
  | p :: rest =>
      wfPiece p
      && match p with
         | RegexLiteral _ => regexContext source b
         | _ => true
         end
      && piecesOk source (b + length (render1 p)) rest
  end.

(** What the character at index [k] of the text adds to the count of open
    parentheses, and the count after the first [j] characters:
    parentheses outside code are left out. *)
Definition codeParenValue (ps : list Piece) (k : nat) : Z :=
  if default false (codeMask ps !! k) then
    if is_chr (render ps !! k) "(" then 1
    else if is_chr (render ps !! k) ")" then (-1)
    else 0
  else 0.

Definition codeParenDepth (ps : list Piece) (j : nat) : Z :=
  foldr (λ k acc, codeParenValue ps k + acc)%Z 0%Z (seq 0 j).

(** [c] is the index of the closing parenthesis of code that matches the
    opening one at index 0 of the text. *)
Definition codeMatchingClose (ps : list Piece) (c : nat) : Prop :=
  codeMask ps !! 0 = Some true
  ∧ is_chr (render ps !! 0) "(" = true
  ∧ codeMask ps !! c = Some true
  ∧ is_chr (render ps !! c) ")" = true
  ∧ codeParenDepth ps (S c) = 0%Z
  ∧ ∀ j, j < c → (0 < codeParenDepth ps (S j))%Z.




(** * Properties *)

(** ** Termination of the scans *)

Lemma lexStep_Skip_bound source st i st' i' :
  lexStep source st i = Skip st' i' → i ≤ i' ≤ i + 1.
Proof.
  unfold lexStep. intros H.
  repeat (match type of H with
          | context [match ?x with _ => _ end] => destruct x
          end); inversion H; subst; lia.
Qed.

Lemma lexStep_Plain_code source st i st' :
  lexStep source st i = Plain st' → mode st = code ∧ mode st' = code.
Proof.
  unfold lexStep. intros H.
  destruct (mode st) eqn:Hm;
  repeat (match type of H with
          | context [match ?x with _ => _ end] => destruct x
          end); inversion H; subst; simpl; auto.
Qed.

Lemma findNextDCallStart_loop_total fuel source st i :
  length source - i ≤ fuel →
  ∃ r, findNextDCallStart_loop fuel source st i = Some r.
Proof.
  revert st i. induction fuel as [|fuel IH]; intros st i Hf; simpl.
  - destruct (Nat.leb_spec (length source) i); [eauto | lia].
  - destruct (Nat.leb_spec (length source) i); [eauto |].
    destruct (lexStep source st i) as [st' i'|st'] eqn:Hs.
    + apply lexStep_Skip_bound in Hs. apply IH. lia.
    + destruct (_ && _); [eauto |]. apply IH. lia.
Qed.

Lemma findMatchingParen_loop_total fuel source st depth i :
  length source - i ≤ fuel →
  ∃ r, findMatchingParen_loop fuel source st depth i = Some r.
Proof.
  revert st depth i. induction fuel as [|fuel IH]; intros st depth i Hf; simpl.
  - destruct (Nat.leb_spec (length source) i); [eauto | lia].
  - destruct (Nat.leb_spec (length source) i); [eauto |].
    destruct (lexStep source st i) as [st' i'|st'] eqn:Hs.
    + apply lexStep_Skip_bound in Hs. apply IH. lia.
    + destruct (is_chr _ "("); [apply IH; lia |].
      destruct (is_chr _ ")"); [| apply IH; lia].
      destruct (_ =? _)%Z; [eauto | apply IH; lia].
Qed.

Lemma findNextDCallStart_total source fromIdx :
  ∃ r, findNextDCallStart source fromIdx = Some r.
Proof. apply findNextDCallStart_loop_total. lia. Qed.

Lemma findMatchingParen_total source openParenIdx :
  ∃ r, findMatchingParen source openParenIdx = Some r.
Proof. apply findMatchingParen_loop_total. lia. Qed.

(** ** The tracker between two indices *)

Lemma lexTrack_fuel2 fuel1 fuel2 source st i target :
  target - i ≤ fuel1 → target - i ≤ fuel2 →
  lexTrack fuel1 source st i target = lexTrack fuel2 source st i target.
Proof.
  revert fuel2 st i. induction fuel1 as [|fuel1 IH]; intros fuel2 st i H1 H2.
  - destruct fuel2; simpl; (destruct (Nat.eqb_spec i target); [done |]);
      (destruct (Nat.ltb_spec target i); [done | lia]).
  - destruct fuel2 as [|fuel2]; simpl;
      (destruct (Nat.eqb_spec i target); [done |]);
      (destruct (Nat.ltb_spec target i); [done |]); [lia |].
    destruct (lexStep source st i) as [st' i'|st'] eqn:Hs.
    + apply lexStep_Skip_bound in Hs. apply IH; lia.
    + apply IH; lia.
Qed.

Lemma lexTrack_fuel fuel source st i target :
  target - i ≤ fuel →
  lexTrack fuel source st i target = lexTrack (target - i) source st i target.
Proof. intros. apply lexTrack_fuel2; lia. Qed.

Lemma lexTrack_here fuel source st i : lexTrack fuel source st i i = Some st.
Proof. destruct fuel; simpl; by rewrite Nat.eqb_refl. Qed.

Lemma lexTrack_step source st i target :
  i < target →
  lexTrack (target - i) source st i target =
  match lexStep source st i with
  | Skip st' i' => lexTrack (target - S i') source st' (S i') target
  | Plain st' => lexTrack (target - S i) source st' (S i) target
  end.
Proof.
  intros Hlt. destruct (target - i) as [|n] eqn:Hn; [lia |]. simpl.
  destruct (Nat.eqb_spec i target); [lia |].
  destruct (Nat.ltb_spec target i); [lia |].
  destruct (lexStep source st i) as [st' i'|st'] eqn:Hs.
  - apply lexStep_Skip_bound in Hs. apply lexTrack_fuel. lia.
  - apply lexTrack_fuel. lia.
Qed.

Lemma lexTrack_past fuel source st i target :
  target < i → lexTrack fuel source st i target = None.
Proof.
  intros Hlt. destruct fuel; simpl;
    (destruct (Nat.eqb_spec i target); [lia |]);
    (destruct (Nat.ltb_spec target i); [done | lia]).
Qed.

(** A scan that reaches [i] in state [st] goes on from there. *)
Lemma lexTrack_trans source st0 o i st target :
  lexTrack (i - o) source st0 o i = Some st → i ≤ target →
  lexTrack (target - o) source st0 o target
  = lexTrack (target - i) source st i target.
Proof.
  remember (i - o) as n eqn:Hn. revert st0 o Hn.
  induction (lt_wf n) as [n _ IH]. intros st0 o Hn Hi Hle.
  destruct (Nat.lt_trichotomy o i) as [Hlt|[->|Hgt]].
  - subst n. rewrite lexTrack_step in Hi by done.
    rewrite (lexTrack_step source st0 o target) by lia.
    destruct (lexStep source st0 o) as [st' i'|st'] eqn:Hs.
    + apply lexStep_Skip_bound in Hs.
      destruct (Nat.le_gt_cases (S i') i).
      * apply (IH (i - S i')); [lia | done | done | done].
      * rewrite lexTrack_past in Hi by lia. done.
    + apply (IH (i - S o)); [lia | done | done | done].
  - rewrite lexTrack_here in Hi. by inversion Hi.
  - rewrite lexTrack_past in Hi by lia. done.
Qed.

Lemma lexStateAt_start source o : lexStateAt source o o = Some initLex.
Proof. apply lexTrack_here. Qed.

(** The state after one iteration at a visited index. *)
Lemma lexStateAt_next source o i st :
  lexStateAt source o i = Some st →
  match lexStep source st i with
  | Skip st' i' =>
      lexStateAt source o (S i') = Some st'
      ∧ (i' = i + 1 → lexStateAt source o (i + 1) = None)
  | Plain st' => lexStateAt source o (S i) = Some st'
  end.
Proof.
  intros Hi. unfold lexStateAt in *.
  assert (o ≤ i) as Hoi.
  { destruct (Nat.le_gt_cases o i); [done |].
    rewrite lexTrack_past in Hi by lia. done. }
  destruct (lexStep source st i) as [st' i'|st'] eqn:Hs.
  - pose proof (lexStep_Skip_bound _ _ _ _ _ Hs) as Hb. split.
    + rewrite (lexTrack_trans _ _ _ _ _ _ Hi) by lia.
      rewrite lexTrack_step by lia. rewrite Hs. apply lexTrack_here.
    + intros ->. rewrite (lexTrack_trans _ _ _ _ _ _ Hi) by lia.
      rewrite lexTrack_step by lia. rewrite Hs. apply lexTrack_past. lia.
  - rewrite (lexTrack_trans _ _ _ _ _ _ Hi) by lia.
    rewrite lexTrack_step by lia. rewrite Hs. apply lexTrack_here.
Qed.

(** ** The call locator *)

Lemma startsWithAt_length pat source i :
  0 < length pat →
  startsWithAt pat source i = true → i + length pat ≤ length source.
Proof.
  unfold startsWithAt. intros Hpos H%bool_decide_eq_true.
  apply (f_equal length) in H. rewrite length_take, length_drop in H. lia.
Qed.

Lemma startsWithAt_slice pat source i :
  startsWithAt pat source i = true → slice source i (i + length pat) = pat.
Proof.
  unfold startsWithAt, slice. intros H%bool_decide_eq_true.
  by replace (i + length pat - i) with (length pat) by lia.
Qed.

Lemma marker_length : length marker = 4.
Proof. reflexivity. Qed.

Lemma plainAt_Skip source o i st st' i' :
  lexStateAt source o i = Some st → lexStep source st i = Skip st' i' →
  plainAt source o i = false.
Proof. unfold plainAt. by intros -> ->. Qed.

Lemma plainAt_Plain source o i st st' :
  lexStateAt source o i = Some st → lexStep source st i = Plain st' →
  plainAt source o i = true.
Proof. unfold plainAt. by intros -> ->. Qed.

Lemma plainAt_unvisited source o i :
  lexStateAt source o i = None → plainAt source o i = false.
Proof. unfold plainAt. by intros ->. Qed.

(** What the loop of the locator returns, for a loop that entered [i] in the
    state the tracker has there: the first ordinary code character at which
    the marker starts, or [-1] when there is none. *)
Lemma findNextDCallStart_loop_spec fuel source o st i res :
  lexStateAt source o i = Some st →
  (∀ p, o ≤ p < i → plainAt source o p = true →
        startsWithAt marker source p = false) →
  findNextDCallStart_loop fuel source st i = Some res →
  match res with
  | Some r =>
      i ≤ r ∧ startsWithAt marker source r = true
      ∧ plainAt source o r = true
      ∧ (∃ st', lexStateAt source o r = Some st' ∧ mode st' = code)
      ∧ (∀ p, o ≤ p < r → plainAt source o p = true →
              startsWithAt marker source p = false)
  | None =>
      ∀ p, o ≤ p → plainAt source o p = true →
           startsWithAt marker source p = false
  end.
Proof.
  revert st i. induction fuel as [|fuel IH]; intros st i Hst Hbefore; simpl.
  - destruct (Nat.leb_spec (length source) i) as [Hle|Hlt]; [| done].
    intros [= <-]. intros p Hp Hplain.
    destruct (Nat.lt_ge_cases p i); [apply Hbefore; [lia | done] |].
    destruct (startsWithAt marker source p) eqn:Hm; [| done].
    apply startsWithAt_length in Hm; rewrite marker_length in *; [| lia]. lia.
  - destruct (Nat.leb_spec (length source) i) as [Hle|Hlt].
    { intros [= <-]. intros p Hp Hplain.
      destruct (Nat.lt_ge_cases p i); [apply Hbefore; [lia | done] |].
      destruct (startsWithAt marker source p) eqn:Hm; [| done].
      apply startsWithAt_length in Hm; rewrite marker_length in *; [| lia]. lia. }
    pose proof (lexStateAt_next _ _ _ _ Hst) as Hnext.
    destruct (lexStep source st i) as [st' i'|st'] eqn:Hs.
    + destruct Hnext as [Hn1 Hn2].
      pose proof (lexStep_Skip_bound _ _ _ _ _ Hs) as Hb.
      intros Hloop. specialize (IH st' (S i') Hn1).
      assert (∀ p, o ≤ p < S i' → plainAt source o p = true →
                   startsWithAt marker source p = false) as Hbefore'.
      { intros p Hp Hplain. destruct (Nat.lt_ge_cases p i); [apply Hbefore; [lia | done] |].
        destruct (decide (p = i)) as [->|].
        - by rewrite (plainAt_Skip _ _ _ _ _ _ Hst Hs) in Hplain.
        - assert (p = i + 1) as -> by lia.
          rewrite plainAt_unvisited in Hplain; [done |]. apply Hn2. lia. }
      specialize (IH Hbefore' Hloop). destruct res as [r|]; [| done].
      destruct IH as (? & ? & ? & ? & ?). repeat split; try done. lia.
    + destruct (is_chr (source !! i) "_" && startsWithAt marker source i) eqn:Hm.
      * intros [= <-]. apply andb_true_iff in Hm as [_ Hm].
        repeat split; try done.
        -- by apply (plainAt_Plain _ _ _ _ _ Hst Hs).
        -- exists st. split; [done |]. by apply lexStep_Plain_code in Hs as [? _].
      * intros Hloop. specialize (IH st' (S i) Hnext).
        assert (startsWithAt marker source i = false) as Hno.
        { destruct (startsWithAt marker source i) eqn:Hsw; [| done].
          rewrite andb_true_r in Hm.
          unfold startsWithAt in Hsw. apply bool_decide_eq_true in Hsw.
          destruct (drop i source) as [|c rest] eqn:Hd; [done |].
          assert (source !! i = Some c) as Hc.
          { rewrite <- (Nat.add_0_r i), <- lookup_drop, Hd. done. }
          rewrite Hc in Hm. simpl in Hsw. injection Hsw as -> _. done. }
        assert (∀ p, o ≤ p < S i → plainAt source o p = true →
                     startsWithAt marker source p = false) as Hbefore'.
        { intros p Hp Hplain. destruct (decide (p = i)) as [->|]; [done |].
          apply Hbefore; [lia | done]. }
        specialize (IH Hbefore' Hloop). destruct res as [r|]; [| done].
        destruct IH as (? & ? & ? & ? & ?). repeat split; try done. lia.
Qed.

Lemma findNextDCallStart_spec source fromIdx res :
  findNextDCallStart source fromIdx = Some res →
  match res with
  | Some r =>
      fromIdx ≤ r ∧ startsWithAt marker source r = true
      ∧ plainAt source fromIdx r = true
      ∧ (∃ st', lexStateAt source fromIdx r = Some st' ∧ mode st' = code)
      ∧ (∀ p, fromIdx ≤ p < r → plainAt source fromIdx p = true →
              startsWithAt marker source p = false)
  | None =>
      ∀ p, fromIdx ≤ p → plainAt source fromIdx p = true →
           startsWithAt marker source p = false
  end.
Proof.
  apply findNextDCallStart_loop_spec.
  - apply lexStateAt_start.
  - intros p Hp. lia.
Qed.

(** ** The balanced-extent matcher *)

Lemma parenDepth_start source o : parenDepth source o o = 0%Z.
Proof. unfold parenDepth. by rewrite Nat.sub_diag. Qed.

Lemma parenDepth_S source o j :
  o ≤ j →
  parenDepth source o (S j) = (parenDepth source o j + parenValue source o j)%Z.
Proof.
  intros Hle. unfold parenDepth.
  replace (S j - o) with (S (j - o)) by lia.
  rewrite seq_S, foldr_app. simpl.
  replace (o + (j - o)) with j by lia.
  generalize (parenValue source o j) as v. generalize (seq o (j - o)) as l.
  induction l as [|p l IH]; intros v; simpl; [lia |]. rewrite IH. lia.
Qed.

Lemma parenValue_not_plain source o p :
  plainAt source o p = false → parenValue source o p = 0%Z.
Proof. unfold parenValue. by intros ->. Qed.

Lemma lexStateAt_le source o i st : lexStateAt source o i = Some st → o ≤ i.
Proof.
  unfold lexStateAt. intros H. destruct (Nat.le_gt_cases o i); [done |].
  rewrite lexTrack_past in H by lia. done.
Qed.

(** What the loop of the matcher returns: the first closing parenthesis in
    ordinary code after which the nesting depth is zero. *)
Lemma findMatchingParen_loop_spec fuel source o st depth i res :
  lexStateAt source o i = Some st →
  depth = parenDepth source o i →
  (∀ j, o ≤ j < i → plainAt source o j = true →
        is_chr (source !! j) ")" = true → parenDepth source o (S j) ≠ 0%Z) →
  findMatchingParen_loop fuel source st depth i = Some res →
  match res with
  | Ok c =>
      i ≤ c < length source ∧ plainAt source o c = true
      ∧ is_chr (source !! c) ")" = true
      ∧ parenDepth source o (S c) = 0%Z
      ∧ (∀ j, o ≤ j < c → plainAt source o j = true →
              is_chr (source !! j) ")" = true →
              parenDepth source o (S j) ≠ 0%Z)
  | Throw msg =>
      msg = noMatchingParen
      ∧ (∀ j, o ≤ j → plainAt source o j = true →
              is_chr (source !! j) ")" = true →
              parenDepth source o (S j) ≠ 0%Z)
  end.
Proof.
  revert st depth i.
  assert (∀ i, length source ≤ i →
    (∀ j, o ≤ j < i → plainAt source o j = true →
          is_chr (source !! j) ")" = true → parenDepth source o (S j) ≠ 0%Z) →
    ∀ j, o ≤ j → plainAt source o j = true →
         is_chr (source !! j) ")" = true → parenDepth source o (S j) ≠ 0%Z)
    as Hend.
  { intros i Hle Hbefore j Hj Hplain Hc.
    destruct (Nat.lt_ge_cases j i); [apply Hbefore; [lia | done | done] |].
    rewrite lookup_ge_None_2 in Hc by lia. done. }
  induction fuel as [|fuel IH]; intros st depth i Hst Hdepth Hbefore; simpl.
  - destruct (Nat.leb_spec (length source) i) as [Hle|Hlt]; [| done].
    intros [= <-]. split; [done |]. by apply (Hend i).
  - destruct (Nat.leb_spec (length source) i) as [Hle|Hlt].
    { intros [= <-]. split; [done |]. by apply (Hend i). }
    pose proof (lexStateAt_le _ _ _ _ Hst) as Hoi.
    pose proof (lexStateAt_next _ _ _ _ Hst) as Hnext.
    destruct (lexStep source st i) as [st' i'|st'] eqn:Hs.
    + destruct Hnext as [Hn1 Hn2].
      pose proof (lexStep_Skip_bound _ _ _ _ _ Hs) as Hb.
      pose proof (plainAt_Skip _ _ _ _ _ _ Hst Hs) as Hnp.
      assert (i' = i + 1 → plainAt source o (i + 1) = false) as Hnp'.
      { intros E. apply plainAt_unvisited. by apply Hn2. }
      assert (parenDepth source o (S i') = depth) as Hd'.
      { destruct (decide (i' = i)) as [->|].
        - rewrite parenDepth_S, parenValue_not_plain by done. lia.
        - assert (i' = i + 1) as -> by lia.
          rewrite parenDepth_S, parenValue_not_plain by (auto; lia).
          replace (i + 1) with (S i) by lia.
          rewrite parenDepth_S, parenValue_not_plain by done. lia. }
      intros Hloop.
      assert (∀ j, o ≤ j < S i' → plainAt source o j = true →
                   is_chr (source !! j) ")" = true →
                   parenDepth source o (S j) ≠ 0%Z) as Hbefore'.
      { intros j Hj Hplain Hc.
        destruct (Nat.lt_ge_cases j i); [apply Hbefore; [lia | done | done] |].
        destruct (decide (j = i)) as [->|]; [congruence |].
        assert (j = i + 1) as -> by lia. rewrite Hnp' in Hplain by lia. done. }
      specialize (IH st' depth (S i') Hn1 (eq_sym Hd') Hbefore' Hloop).
      destruct res as [c|msg]; [| done].
      destruct IH as (? & ? & ? & ? & ?). repeat split; try done; lia.
    + pose proof (plainAt_Plain _ _ _ _ _ Hst Hs) as Hp.
      assert (∀ v, parenValue source o i = v →
                   parenDepth source o (S i) = (depth + v)%Z) as Hd'.
      { intros v <-. rewrite parenDepth_S by done. lia. }
      unfold parenValue in Hd'. rewrite Hp in Hd'.
      destruct (is_chr (source !! i) "(") eqn:Hopen.
      { intros Hloop.
        assert (∀ j, o ≤ j < S i → plainAt source o j = true →
                     is_chr (source !! j) ")" = true →
                     parenDepth source o (S j) ≠ 0%Z) as Hbefore'.
        { intros j Hj Hplain Hc.
          destruct (decide (j = i)) as [->|]; [| apply Hbefore; [lia | done | done]].
          destruct (source !! i) as [c|]; [| done]. simpl in *.
          apply N.eqb_eq in Hopen. subst c. by vm_compute in Hc. }
        specialize (IH st' (depth + 1)%Z (S i) Hnext (eq_sym (Hd' _ eq_refl))
                      Hbefore' Hloop).
        destruct res as [c|msg]; [| done].
        destruct IH as (? & ? & ? & ? & ?). repeat split; try done; lia. }
      destruct (is_chr (source !! i) ")") eqn:Hclose.
      * destruct (Z.eqb_spec (depth - 1) 0) as [Hz|Hnz].
        -- intros [= <-]. repeat split; try done.
           rewrite (Hd' _ eq_refl). lia.
        -- intros Hloop.
           assert (∀ j, o ≤ j < S i → plainAt source o j = true →
                        is_chr (source !! j) ")" = true →
                        parenDepth source o (S j) ≠ 0%Z) as Hbefore'.
           { intros j Hj Hplain Hc.
             destruct (decide (j = i)) as [->|]; [| apply Hbefore; [lia | done | done]].
             rewrite (Hd' _ eq_refl). lia. }
           specialize (IH st' (depth - 1)%Z (S i) Hnext).
           rewrite (Hd' _ eq_refl) in IH.
           specialize (IH eq_refl Hbefore' Hloop).
           destruct res as [c|msg]; [| done].
           destruct IH as (? & ? & ? & ? & ?). repeat split; try done; lia.
      * intros Hloop.
        assert (∀ j, o ≤ j < S i → plainAt source o j = true →
                     is_chr (source !! j) ")" = true →
                     parenDepth source o (S j) ≠ 0%Z) as Hbefore'.
        { intros j Hj Hplain Hc.
          destruct (decide (j = i)) as [->|]; [congruence |].
          apply Hbefore; [lia | done | done]. }
        specialize (IH st' depth (S i) Hnext).
        rewrite (Hd' _ eq_refl), Z.add_0_r in IH.
        specialize (IH eq_refl Hbefore' Hloop).
        destruct res as [c|msg]; [| done].
        destruct IH as (? & ? & ? & ? & ?). repeat split; try done; lia.
Qed.

Lemma findMatchingParen_spec source o res :
  findMatchingParen source o = Some res →
  match res with
  | Ok c =>
      o ≤ c < length source ∧ plainAt source o c = true
      ∧ is_chr (source !! c) ")" = true
      ∧ parenDepth source o (S c) = 0%Z
      ∧ (∀ j, o ≤ j < c → plainAt source o j = true →
              is_chr (source !! j) ")" = true →
              parenDepth source o (S j) ≠ 0%Z)
  | Throw msg =>
      msg = noMatchingParen
      ∧ (∀ j, o ≤ j → plainAt source o j = true →
              is_chr (source !! j) ")" = true →
              parenDepth source o (S j) ≠ 0%Z)
  end.
Proof.
  apply findMatchingParen_loop_spec.
  - apply lexStateAt_start.
  - by rewrite parenDepth_start.
  - intros j Hj. lia.
Qed.

(** ** The loop of the extractor *)

Lemma skipSpaceFwd_spec rest e :
  let r := skipSpaceFwd rest e in
  e ≤ r ≤ e + length rest
  ∧ Forall (λ c, isSpace c = true) (take (r - e) rest)
  ∧ (∀ c, rest !! (r - e) = Some c → isSpace c = false).
Proof.
  revert e. induction rest as [|c rest IH]; intros e; simpl.
  - rewrite Nat.sub_diag. repeat split; [lia | lia | constructor | done].
  - destruct (isSpace c) eqn:Hc.
    + destruct (IH (S e)) as ((? & ?) & Hall & Hstop).
      replace (skipSpaceFwd rest (S e) - e) with (S (skipSpaceFwd rest (S e) - S e))
        by lia.
      simpl. repeat split; [lia | lia | | done]. by constructor.
    + rewrite Nat.sub_diag. simpl.
      repeat split; [lia | lia | constructor | congruence].
Qed.

Lemma callEnd_bounds source close :
  close < length source → close < callEnd source close ≤ length source.
Proof.
  intros Hlt. unfold callEnd.
  destruct (skipSpaceFwd_spec (drop (close + 1) source) (close + 1))
    as ((? & Hub) & _). rewrite length_drop in Hub.
  destruct (is_chr _ ";") eqn:Hsemi; [| lia].
  destruct (source !! _) as [c|] eqn:Hc; [| done].
  apply lookup_lt_Some in Hc. lia.
Qed.

Lemma findNextDCallStart_bounds source i start :
  findNextDCallStart source i = Some (Some start) →
  i ≤ start ∧ start + 4 ≤ length source.
Proof.
  intros H%findNextDCallStart_spec. destruct H as (? & Hm & _).
  apply startsWithAt_length in Hm; rewrite marker_length in *; lia.
Qed.

Lemma findMatchingParen_bounds source o close :
  findMatchingParen source o = Some (Ok close) → o ≤ close < length source.
Proof. intros H%findMatchingParen_spec. by destruct H as (? & _). Qed.

Lemma extractDCalls_loop_iterations fuel source i out log :
  length source - i ≤ fuel →
  ∃ evs, iterations source i evs
         ∧ extractDCalls_loop fuel source i out log
           = Some (out ++ pushed source evs, log ++ logged evs).
Proof.
  revert i out log. induction fuel as [|fuel IH]; intros i out log Hf; simpl.
  - destruct (Nat.leb_spec (length source) i); [| lia].
    exists []. split; [by constructor |]. by rewrite !app_nil_r.
  - destruct (Nat.leb_spec (length source) i) as [Hle|Hlt].
    { exists []. split; [by constructor |]. by rewrite !app_nil_r. }
    destruct (findNextDCallStart_total source i) as [[start|] Hfind];
      rewrite Hfind.
    2:{ exists []. split; [by apply iter_none |]. by rewrite !app_nil_r. }
    pose proof (findNextDCallStart_bounds _ _ _ Hfind) as Hb.
    destruct (findMatchingParen_total source (start + 3)) as [[close|msg] Hmatch];
      rewrite Hmatch.
    + pose proof (findMatchingParen_bounds _ _ _ Hmatch) as Hc.
      pose proof (callEnd_bounds source close) as He.
      destruct (IH (callEnd source close)
                  (out ++ [slice source start (callEnd source close)]) log)
        as (evs & Hevs & ->); [lia |].
      exists (Extracted start close :: evs). split.
      * by apply iter_extract.
      * simpl. by rewrite <- app_assoc.
    + destruct (IH (start + 4) out (log ++ [parseWarning start msg]))
        as (evs & Hevs & ->); [lia |].
      exists (Skipped start msg :: evs). split.
      * by apply iter_skip.
      * simpl. by rewrite <- app_assoc.
Qed.



Lemma extractDCalls_log_iterations source :
  ∃ evs, iterations source 0 evs
         ∧ extractDCalls_log source = Some (pushed source evs, logged evs).
Proof.
  destruct (extractDCalls_loop_iterations (length source) source 0 [] [])
    as (evs & ? & ?); [lia |]. by exists evs.
Qed.

(** Induction on the iterations of the extractor, with the names the
    proofs below use. *)
Ltac iterations_cases H :=
  induction H as [i Hle|i Hlt Hnone|i start close evs Hlt Hf Hm _ IH
                  |i start msg evs Hlt Hf Hm _ IH].

Lemma pushed_spansOf source evs :
  pushed source evs = (λ sp, slice source sp.1 sp.2) <$> spansOf source evs.
Proof.
  induction evs as [|[start close|start msg] evs IH]; simpl; [done | | done].
  unfold pushed, spansOf in *. simpl. by rewrite IH.
Qed.

Lemma ordered_weaken lo lo' spans hi :
  lo ≤ lo' → ordered lo' spans hi → ordered lo spans hi.
Proof. destruct spans as [|[a b] rest]; simpl; [done |]. intros ? (? & ?). split; [lia | done]. Qed.

Lemma iterations_ordered source i evs :
  iterations source i evs → ordered i (spansOf source evs) (length source).
Proof.
  intros Hit. iterations_cases Hit; simpl; try done.
  - apply findNextDCallStart_bounds in Hf.
    apply findMatchingParen_bounds in Hm.
    pose proof (callEnd_bounds source close). unfold spansOf in *. simpl.
    repeat split; [lia | lia | lia | done].
  - apply findNextDCallStart_bounds in Hf. unfold spansOf in *. simpl.
    apply (ordered_weaken _ (start + 4)); [lia | done].
Qed.

Lemma iterations_marker source i evs :
  iterations source i evs →
  Forall (λ sp, startsWithAt marker source sp.1 = true ∧ sp.1 + 4 ≤ sp.2)
    (spansOf source evs).
Proof.
  intros Hit. iterations_cases Hit; simpl; try done.
  unfold spansOf in *. simpl. constructor; [| done]. simpl.
  apply findNextDCallStart_spec in Hf as (_ & Hf & _).
  apply findMatchingParen_bounds in Hm.
  pose proof (callEnd_bounds source close). split; [done | lia].
Qed.

Lemma slice_split source a m b :
  a ≤ m ≤ b → slice source a b = slice source a m ++ slice source m b.
Proof.
  intros Hamb. unfold slice.
  replace (b - a) with ((m - a) + (b - m)) by lia.
  rewrite <- take_take_drop, drop_drop.
  by replace (a + (m - a)) with m by lia.
Qed.

Lemma parenValue_cases source o p :
  parenValue source o p = 0%Z ∨ parenValue source o p = 1%Z
  ∨ (parenValue source o p = (-1)%Z ∧ plainAt source o p = true
     ∧ is_chr (source !! p) ")" = true).
Proof.
  unfold parenValue. destruct (plainAt source o p); [| by left].
  destruct (is_chr (source !! p) "("); [by right; left |].
  destruct (is_chr (source !! p) ")"); [by right; right | by left].
Qed.

Lemma lexStep_open_paren source i :
  is_chr (source !! i) "(" = true → lexStep source initLex i = Plain initLex.
Proof.
  unfold lexStep. destruct (source !! i) as [c|]; [| done]. simpl.
  intros ->%N.eqb_eq. reflexivity.
Qed.

(** The close found by the matcher is the matching one. *)
Lemma findMatchingParen_matchingClose source o close :
  is_chr (source !! o) "(" = true →
  findMatchingParen source o = Some (Ok close) →
  matchingClose source o close.
Proof.
  intros Hopen H%findMatchingParen_spec.
  destruct H as ((Hoc & Hlen) & Hplain & Hclose & Hzero & Hfirst).
  assert (plainAt source o o = true) as Hpo.
  { unfold plainAt. rewrite lexStateAt_start. by rewrite lexStep_open_paren. }
  assert (parenDepth source o (S o) = 1%Z) as Hone.
  { rewrite parenDepth_S, parenDepth_start by done.
    unfold parenValue. by rewrite Hpo, Hopen. }
  assert (o ≠ close) as Hne.
  { intros <-. rewrite Hone in Hzero. done. }
  assert (∀ n, o + n < close → (0 < parenDepth source o (S (o + n)))%Z) as Hpos.
  { induction n as [|n IHn]; intros Hn.
    - rewrite Nat.add_0_r, Hone. lia.
    - replace (o + S n) with (S (o + n)) in * by lia.
      rewrite parenDepth_S by lia.
      specialize (IHn ltac:(lia)).
      destruct (parenValue_cases source o (S (o + n))) as [E|[E|(E & Hp & Hc)]];
        [rewrite E; lia..|].
      specialize (Hfirst (S (o + n)) ltac:(lia) Hp Hc).
      rewrite parenDepth_S in Hfirst by lia. lia. }
  repeat split; try done; [lia |].
  intros j Hj. replace j with (o + (j - o)) by lia. apply Hpos. lia.
Qed.

Lemma marker_parts source start :
  startsWithAt marker source start = true →
  slice source start (start + 3) = lit "__d"
  ∧ is_chr (source !! (start + 3)) "(" = true.
Proof.
  unfold startsWithAt. intros H%bool_decide_eq_true.
  rewrite marker_length in H. split.
  - unfold slice. replace (start + 3 - start) with (3 `min` 4) by lia.
    by rewrite <- take_take, H.
  - rewrite <- lookup_drop, <- (lookup_take_lt _ 4) by lia. by rewrite H.
Qed.

(** The span of an extracted call has the shape of a call. *)
Lemma extracted_isCallSpan source start close :
  startsWithAt marker source start = true →
  findMatchingParen source (start + 3) = Some (Ok close) →
  isCallSpan source start (callEnd source close).
Proof.
  intros Hm Hfind. destruct (marker_parts _ _ Hm) as [Hd Hopen].
  pose proof (findMatchingParen_matchingClose _ _ _ Hopen Hfind) as Hmc.
  pose proof (findMatchingParen_bounds _ _ _ Hfind) as Hb.
  pose proof (callEnd_bounds source close ltac:(lia)) as He.
  destruct (skipSpaceFwd_spec (drop (close + 1) source) (close + 1))
    as ((Hlo & Hhi) & Hall & Hstop).
  rewrite length_drop in Hhi.
  set (end1 := skipSpaceFwd (drop (close + 1) source) (close + 1)) in *.
  assert (length (slice source (close + 1) end1) = end1 - (close + 1)) as Hlen.
  { unfold slice. rewrite length_take, length_drop. lia. }
  assert (close + 1 + length (slice source (close + 1) end1) = end1) as Hend1
    by lia.
  assert (callEnd source close
          = end1 + length (if is_chr (source !! end1) ";" then lit ";" else []))
    as Hce.
  { unfold callEnd. fold end1. by destruct (is_chr (source !! end1) ";"). }
  exists close, (slice source (close + 1) end1),
    (if is_chr (source !! end1) ";" then lit ";" else []).
  rewrite Hend1. repeat split; try done; try apply Hmc.
  - rewrite (slice_split source start (start + 3)) by lia. rewrite Hd.
    rewrite (slice_split source (start + 3) (close + 1)) by lia.
    rewrite (slice_split source (close + 1) end1) by lia.
    do 3 f_equal. unfold slice. rewrite Hce.
    destruct (is_chr (source !! end1) ";") eqn:Hsemi.
    + destruct (source !! end1) as [c|] eqn:Hc; [| done].
      apply N.eqb_eq in Hsemi. subst c.
      change (length (lit ";")) with 1.
      replace (end1 + 1 - end1) with 1 by lia.
      by rewrite (drop_S _ _ _ Hc).
    + change (length (@nil N)) with 0.
      by replace (end1 + 0 - end1) with 0 by lia.
  - intros c Hc. apply Hstop. rewrite lookup_drop.
    by replace (close + 1 + (end1 - (close + 1))) with end1 by lia.
Qed.

Lemma iterations_isCallSpan source i evs :
  iterations source i evs →
  Forall (λ sp, isCallSpan source sp.1 sp.2) (spansOf source evs).
Proof.
  intros Hit. iterations_cases Hit; simpl; try done.
  unfold spansOf in *. simpl. constructor; [| done]. simpl.
  apply findNextDCallStart_spec in Hf as (_ & Hf & _).
  by apply extracted_isCallSpan.
Qed.

Lemma iterations_progress source i evs :
  iterations source i evs → progress source i evs.
Proof.
  intros Hit. iterations_cases Hit; simpl; try done.
  - apply findNextDCallStart_bounds in Hf.
    apply findMatchingParen_bounds in Hm.
    pose proof (callEnd_bounds source close). repeat split; try done; lia.
  - apply findNextDCallStart_bounds in Hf. repeat split; try done; lia.
Qed.


Lemma ordered_marker_slices source lo spans :
  ordered lo spans (length source) →
  Forall (λ sp, startsWithAt marker source sp.1 = true ∧ sp.1 + 4 ≤ sp.2) spans →
  Forall (λ sp, length (slice source sp.1 sp.2) = sp.2 - sp.1
                ∧ take 4 (slice source sp.1 sp.2) = lit "__d(") spans.
Proof.
  revert lo. induction spans as [|[a b] spans IH]; intros lo Hord Hmark;
    [constructor |].
  destruct Hord as (? & ? & ? & Hord).
  apply Forall_cons in Hmark as [[Hm Hab] Hmark]. simpl in Hm, Hab.
  constructor; [| by apply (IH b)]. simpl. split.
  - unfold slice. rewrite length_take, length_drop. lia.
  - rewrite (slice_split source a (a + 4)) by lia.
    pose proof (startsWithAt_slice marker source a Hm) as Hs.
    rewrite marker_length in Hs. rewrite Hs. reflexivity.
Qed.

Lemma extractDCalls_ordered_spans source :
  ∃ spans : list (nat * nat),
    extractDCalls source = Some ((λ sp, slice source sp.1 sp.2) <$> spans).
Proof.
  destruct (extractDCalls_log_iterations source) as (evs & Hit & Hex).
  exists (spansOf source evs).
  unfold extractDCalls. rewrite Hex. simpl. by rewrite pushed_spansOf.
Qed.

(** ** The claims about scanning and extraction *)

(** C2.  [extractDCalls] returns, for every input, the substrings of the
    input at spans [start_1 < end_1 <= start_2 < end_2 <= ...] inside the
    input, in that order, and each of them begins with [__d(]. *)
Theorem extractDCalls_ordered_lossless source :
  ∃ spans : list (nat * nat),
    extractDCalls source = Some ((λ sp, slice source sp.1 sp.2) <$> spans)
    ∧ ordered 0 spans (length source)
    ∧ Forall (λ sp, length (slice source sp.1 sp.2) = sp.2 - sp.1
                    ∧ take 4 (slice source sp.1 sp.2) = lit "__d(") spans.
Proof.
  destruct (extractDCalls_log_iterations source) as (evs & Hit & Hex).
  exists (spansOf source evs). split; [| split].
  - unfold extractDCalls. rewrite Hex. simpl. by rewrite pushed_spansOf.
  - by apply iterations_ordered.
  - apply (ordered_marker_slices source 0).
    + by apply iterations_ordered.
    + by apply (iterations_marker source 0).
Qed.

(** C10.  Extraction terminates on every input: the loop of
    [extractDCalls] returns, every iteration leaves the cursor after the
    [__d(] it met (after the extracted span, or just after the marker of
    a skipped call), the two character scans return from every offset, and
    each of their steps moves to a later index. *)
Theorem extraction_terminates source :
  (∃ evs, iterations source 0 evs
          ∧ extractDCalls_log source = Some (pushed source evs, logged evs)
          ∧ progress source 0 evs)
  ∧ (∀ fromIdx, is_Some (findNextDCallStart source fromIdx))
  ∧ (∀ openParenIdx, is_Some (findMatchingParen source openParenIdx))
  ∧ (∀ st i, match lexStep source st i with
             | Skip _ i' => i < S i'
             | Plain _ => True
             end).
Proof.
  split; [| split; [| split]].
  - destruct (extractDCalls_log_iterations source) as (evs & Hit & Hex).
    exists evs. repeat split; try done. by apply iterations_progress.
  - intros fromIdx. destruct (findNextDCallStart_total source fromIdx) as [r ->].
    by exists r.
  - intros o. destruct (findMatchingParen_total source o) as [r ->]. by exists r.
  - intros st i. destruct (lexStep source st i) as [st' i'|st'] eqn:Hs; [| done].
    apply lexStep_Skip_bound in Hs. lia.
Qed.

(** ** The worker pool *)

(** C7, as the specification states it, fails: a pool of two workers with
    one request on each; when worker 0 fails, the request posted to worker
    1 is rejected too. *)
Lemma onWorkerError_rejects_other_workers :
  let p0 := newPool 2 in
  let p1 := (process (lit "out/a") p0).2 in
  let p2 := (process (lit "out/b") p1).2 in
  let p3 := workerErrorEvent 0 (lit "boom") p2 in
  posted p2 = [(0, 1); (1, 2)]
  ∧ pendingOn 1 p2 = [2]
  ∧ outcomes p2 !! 2 = None
  ∧ outcomes p3 !! 2 = Some (RejectedWith (lit "boom"))
  ∧ pendingOn 1 p3 = [].
Proof. vm_compute. repeat split; reflexivity. Qed.

(** C7, amended.  When a worker fails, every request pending in the pool
    is deleted from the table and rejected with the error, whichever worker
    it was posted to; requests already settled keep their outcome. *)
Theorem onWorkerError_rejects_all_pending (w : nat) (e : jsstring) (p : Pool) :
  let p' := workerErrorEvent w e p in
  tasks p' = ∅
  ∧ (∀ w', pendingOn w' p' = [])
  ∧ (∀ id, is_Some (tasks p !! id) → outcomes p' !! id = Some (RejectedWith e))
  ∧ (∀ id, tasks p !! id = None → outcomes p' !! id = outcomes p !! id)
  ∧ posted p' = posted p.
Proof.
  simpl. repeat split.
  - intros w'. unfold pendingOn. simpl.
    induction (posted p) as [|m l IH]; [done |]. simpl.
    rewrite bool_decide_eq_false_2; [exact IH |].
    intros [_ Hs]. rewrite lookup_empty in Hs. by destruct Hs.
  - intros id [dir Hdir]. simpl.
    apply lookup_union_Some_l. by rewrite lookup_fmap, Hdir.
  - intros id Hnone. simpl.
    rewrite lookup_union_r; [done |]. by rewrite lookup_fmap, Hnone.
Qed.

Lemma onWorkerError_rejects_all_pending_witness :
  let p2 := (process (lit "out/b") (process (lit "out/a") (newPool 2)).2).2 in
  is_Some (tasks p2 !! 2)
  ∧ outcomes (workerErrorEvent 0 (lit "boom") p2) !! 2
    = Some (RejectedWith (lit "boom")).
Proof.
  intros p2.
  assert (is_Some (tasks p2 !! 2)) as Hs by (vm_compute; eauto).
  split; [exact Hs |].
  destruct (onWorkerError_rejects_all_pending 0 (lit "boom") p2)
    as (_ & _ & Hrej & _).
  exact (Hrej 2 Hs).
Defined.

(** ** Disambiguation *)

(** With disambiguation on and no grouping, the file names are the
    disambiguated base names, in the order of the calls. *)
Lemma exportStep_names sha1hex minify sep toIa_ calls :
  ∀ cnt used outs earlier,
    (∀ b, default 0 (used !! b) = length (filter (λ x, x = b) earlier)) →
    fileName <$> out (foldl (exportStep sha1hex minify sep toIa_ false [])
                        (mkNaming cnt (Some used) outs) calls)
    = (fileName <$> outs)
      ++ ((λ n, n ++ lit ".js") <$> disambiguated earlier (baseNames cnt calls)).
Proof.
  induction calls as [|dCall calls IH]; intros cnt used outs earlier Hused.
  - simpl. by rewrite app_nil_r.
  - cbn [foldl baseNames]. unfold exportStep at 2. cbn [count usedNames out andb].
    set (base := if hasNameHead (rawNameOf dCall) then sanitize (rawNameOf dCall)
                 else lit "module_"
                      ++ decimal (if hasNameHead (rawNameOf dCall) then cnt
                                  else S cnt)).
    assert (∀ b, default 0 (<[base := default 0 (used !! base) + 1]> used !! b)
                 = length (filter (λ x, x = b) (earlier ++ [base]))) as Hused'.
    { intros b. rewrite filter_app, length_app.
      destruct (decide (base = b)) as [<-|Hne].
      - rewrite lookup_insert_eq. simpl. rewrite Hused.
        rewrite filter_cons_True by done. simpl. done.
      - rewrite lookup_insert_ne by done. rewrite Hused.
        rewrite filter_cons_False by done. simpl. lia. }
    rewrite (IH _ _ _ (earlier ++ [base]) Hused').
    rewrite fmap_app, <- app_assoc. f_equal.
    destruct (hasNameHead (rawNameOf dCall)) eqn:Hhead; subst base;
      cbn [disambiguated fmap list_fmap app fileName];
      rewrite <- Hused; reflexivity.
Qed.

Lemma buildExportFiles_names localeCompare sha1hex minify sep bundle opts :
  disambiguate opts ≠ Some false → mergeCommonNames opts ≠ Some true →
  ∃ calls,
    extractDCalls bundle = Some calls
    ∧ fmap (M:=list) fileName
        <$> buildExportFiles localeCompare sha1hex minify sep bundle opts
      = Some ((λ n, n ++ lit ".js") <$> disambiguated [] (baseNames 0 calls)).
Proof.
  intros Hd Hm. unfold buildExportFiles.
  destruct (extractDCalls_ordered_spans bundle) as (spans & Hex).
  rewrite Hex. eexists. split; [reflexivity |]. simpl.
  destruct ((λ sp, slice bundle sp.1 sp.2) <$> spans) as [|c calls] eqn:Hc;
    [done |].
  rewrite (bool_decide_eq_false_2 _ Hd), (bool_decide_eq_false_2 _ Hm).
  cbn [negb fmap option_fmap option_map].
  unfold mergePrefixesFor. f_equal.
  rewrite (exportStep_names _ _ _ _ _ _ _ _ []); [done |].
  intros b. by rewrite lookup_empty.
Qed.

(** C3 fails on the code: for the modules [A], [A] and [A_2] the second
    [A] is renamed to [A_2], the name of the third module, which is new
    to [usedNames] and keeps it.  Two output paths are equal. *)
Theorem buildExportFiles_suffix_collision
    (localeCompare : jsstring → jsstring → Z) (sha1hex : jsstring → jsstring)
    (minify : jsstring → option jsstring) (sep : jsstring) :
  let bundle := lit "__d('A',1);__d('A',2);__d('A_2',3);" in
  ∃ files,
    buildExportFiles localeCompare sha1hex minify sep bundle noOpts = Some files
    ∧ fileName <$> files = [lit "A.js"; lit "A_2.js"; lit "A_2.js"]
    ∧ content <$> files
      = [lit "__d('A',1);"; lit "__d('A',2);"; lit "__d('A_2',3);"]
    ∧ ¬ NoDup (fileName <$> files).
Proof.
  intros bundle. eexists. split; [vm_compute; reflexivity |].
  split; [reflexivity |]. split; [reflexivity |].
  simpl. intros Hnd. apply NoDup_cons in Hnd as [_ Hnd].
  apply NoDup_cons in Hnd as [Hnotin _]. apply Hnotin. by left.
Qed.

(** ** Prefix clustering *)

Lemma startsWithAt_prefix pat s :
  startsWithAt pat s 0 = true → pat `prefix_of` s.
Proof.
  unfold startsWithAt. intros H%bool_decide_eq_true. rewrite drop_0 in H.
  exists (drop (length pat) s). rewrite <- H at 1. by rewrite take_drop.
Qed.

Lemma longestCommonPrefix_l a b : longestCommonPrefix a b `prefix_of` a.
Proof.
  revert b. induction a as [|x a IH]; intros [|y b]; simpl;
    try apply prefix_nil.
  destruct (N.eqb x y); [| apply prefix_nil]. by apply prefix_cons.
Qed.

Lemma longestCommonPrefix_r a b : longestCommonPrefix a b `prefix_of` b.
Proof.
  revert b. induction a as [|x a IH]; intros [|y b]; simpl;
    try apply prefix_nil.
  destruct (N.eqb_spec x y) as [->|]; [| apply prefix_nil]. by apply prefix_cons.
Qed.

Lemma insertSorted_perm {A} (cmp : A → A → Z) x l :
  insertSorted cmp x l ≡ₚ x :: l.
Proof.
  induction l as [|y l IH]; simpl; [done |].
  destruct (cmp x y <=? 0)%Z; [done |]. rewrite IH. apply Permutation_swap.
Qed.

Lemma sortBy_perm {A} (cmp : A → A → Z) l : sortBy cmp l ≡ₚ l.
Proof.
  induction l as [|x l IH]; simpl; [done |].
  unfold sortBy in *. simpl. by rewrite insertSorted_perm, IH.
Qed.

Lemma pickBest_spec matches prefixes best :
  pickBest matches prefixes = Some best →
  best ∈ prefixes ∧ matches best = true.
Proof.
  unfold pickBest.
  assert (∀ acc,
    (∀ b, acc = Some b → b ∈ prefixes ∧ matches b = true) ∨ True →
    ∀ l, (∀ p, p ∈ l → p ∈ prefixes) →
    (∀ b, acc = Some b → matches b = true ∧ b ∈ prefixes) →
    ∀ b, foldl (λ best p,
                  if matches p then
                    match best with
                    | None => Some p
                    | Some b0 =>
                        if length (norm b0) <? length (norm p) then Some p
                        else best
                    end
                  else best) acc l = Some b →
         b ∈ prefixes ∧ matches b = true) as Hgen.
  { intros acc _ l. revert acc. induction l as [|p l IH]; intros acc Hl Hacc b; simpl.
    - intros H. destruct (Hacc b H). done.
    - apply IH.
      + intros q Hq. apply Hl. by right.
      + intros b0. destruct (matches p) eqn:Hp; [| apply Hacc].
        destruct acc as [a|].
        * destruct (_ <? _); [| apply Hacc].
          intros [= <-]. split; [done |]. apply Hl. by left.
        * intros [= <-]. split; [done |]. apply Hl. by left. }
  apply (Hgen None); [by right | done | done].
Qed.

Lemma setAdd_NoDup m ms : NoDup ms → NoDup (setAdd m ms).
Proof.
  intros Hnd. unfold setAdd. case_bool_decide; [done |].
  apply NoDup_app. repeat split; [done | | apply NoDup_singleton].
  intros x Hx ->%list_elem_of_singleton. done.
Qed.

Lemma setAdd_elem m ms x : x ∈ setAdd m ms → x = m ∨ x ∈ ms.
Proof.
  unfold setAdd. case_bool_decide; [by right |].
  intros [?|Hx%list_elem_of_singleton]%elem_of_app; [by right | by left].
Qed.

Lemma addMember_ok minPrefixLen rawNames key m pm :
  minPrefixLen ≤ length key → m ∈ rawNames →
  key `prefix_of` normalizeForMerge m →
  membersOk minPrefixLen rawNames pm →
  membersOk minPrefixLen rawNames (addMember key m pm).
Proof.
  intros Hlen Hm Hpre. unfold membersOk.
  induction pm as [|[k ms] pm IH]; intros Hok; simpl.
  - repeat constructor; simpl; try done. by intros ?%elem_of_nil.
  - apply Forall_cons in Hok as [(Hk & Hnd & Hms) Hok]. simpl in *.
    case_bool_decide as Heq.
    + subst k. constructor; [| done]. simpl. repeat split; [done | |].
      * by apply setAdd_NoDup.
      * apply Forall_forall. intros x [->|Hx]%setAdd_elem; [done |].
        by apply (proj1 (Forall_forall _ _) Hms).
    + constructor; [done |]. by apply IH.
Qed.

Lemma pairInner_ok minPrefixLen rawNames a rest pm :
  raw a ∈ rawNames → norm a = normalizeForMerge (raw a) →
  Forall (λ b, raw b ∈ rawNames ∧ norm b = normalizeForMerge (raw b)) rest →
  membersOk minPrefixLen rawNames pm →
  membersOk minPrefixLen rawNames (pairInner minPrefixLen a rest pm).
Proof.
  intros Ha Hna. revert pm. induction rest as [|b rest IH]; intros pm Hrest Hok;
    simpl; [done |].
  apply Forall_cons in Hrest as [[Hb Hnb] Hrest].
  destruct (Nat.ltb_spec (length (longestCommonPrefix (norm a) (norm b)))
              minPrefixLen); [done |].
  apply IH; [done |].
  apply addMember_ok; [done | done | rewrite <- Hnb; apply longestCommonPrefix_r |].
  apply addMember_ok; [done | done | rewrite <- Hna; apply longestCommonPrefix_l |].
  done.
Qed.

Lemma pairOuter_ok minPrefixLen rawNames items pm :
  Forall (λ b, raw b ∈ rawNames ∧ norm b = normalizeForMerge (raw b)) items →
  membersOk minPrefixLen rawNames pm →
  membersOk minPrefixLen rawNames (pairOuter minPrefixLen items pm).
Proof.
  revert pm. induction items as [|a items IH]; intros pm Hitems Hok; simpl;
    [done |].
  apply Forall_cons in Hitems as [[Ha Hna] Hitems].
  apply IH; [done |]. by apply pairInner_ok.
Qed.

Lemma selectPrefixes_elem minMembers candidates selected covered x :
  x ∈ selectPrefixes minMembers candidates selected covered →
  x ∈ selected
  ∨ ∃ members, (x, members) ∈ candidates ∧ minMembers ≤ length members.
Proof.
  revert selected covered.
  induction candidates as [|[prefix members] candidates IH];
    intros selected covered; simpl; [by left |].
  destruct (Nat.leb_spec minMembers
              (length (filter (λ m, m ∉ covered) members))) as [Hle|Hlt].
  - intros [[Hx|Hx%list_elem_of_singleton]%elem_of_app
           |(ms & Hms & Hlen)]%IH.
    + by left.
    + subst x. right. exists members. split; [by left |].
      pose proof (length_filter (λ m, m ∉ covered) members). lia.
    + right. exists ms. split; [by right | done].
  - intros [Hx|(ms & Hms & Hlen)]%IH; [by left |].
    right. exists ms. split; [by right | done].
Qed.

Lemma two_distinct (l : list jsstring) :
  NoDup l → 2 ≤ length l → ∃ a b, a ≠ b ∧ a ∈ l ∧ b ∈ l.
Proof.
  destruct l as [|a [|b l]]; simpl; [lia | lia |]. intros Hnd _.
  exists a, b. apply NoDup_cons in Hnd as [Hnotin _].
  split; [| split; [by left | by right; left]].
  intros ->. apply Hnotin. by left.
Qed.

Lemma prefixMembersOf_ok localeCompare minPrefixLen rawNames :
  membersOk minPrefixLen rawNames
    (prefixMembersOf localeCompare minPrefixLen rawNames).2.
Proof.
  unfold prefixMembersOf. simpl. apply pairOuter_ok; [| constructor].
  apply Forall_forall. intros x Hx. rewrite sortBy_perm in Hx.
  apply list_elem_of_filter in Hx as [_ Hx].
  apply list_elem_of_fmap in Hx as (r & -> & Hr). done.
Qed.

Lemma computeMergePrefixes_members localeCompare rawNames minPrefixLen
    minMembers p :
  p ∈ computeMergePrefixes localeCompare rawNames minPrefixLen minMembers →
  ∃ members,
    minPrefixLen ≤ length (norm p) ∧ minMembers ≤ length members
    ∧ NoDup members
    ∧ Forall (λ m, m ∈ rawNames ∧ norm p `prefix_of` normalizeForMerge m)
        members.
Proof.
  unfold computeMergePrefixes.
  destruct (length rawNames <? minMembers); [by intros ?%elem_of_nil |].
  pose proof (prefixMembersOf_ok localeCompare minPrefixLen rawNames) as Hok.
  destruct (prefixMembersOf localeCompare minPrefixLen rawNames)
    as [items pm]. simpl in Hok.
  intros (n & -> & Hn)%list_elem_of_fmap. simpl.
  apply selectPrefixes_elem in Hn as [Hn|(members & Hin & Hlen)];
    [by apply elem_of_nil in Hn |].
  rewrite sortBy_perm in Hin. apply list_elem_of_filter in Hin as [_ Hin].
  unfold membersOk in Hok.
  apply (proj1 (Forall_forall _ _) Hok) in Hin as (? & ? & ?).
  by exists members.
Qed.

Lemma pickMergePrefix_by_prefix rawName prefixes p :
  pickMergePrefix rawName prefixes = Some (p, false) →
  p ∈ prefixes ∧ norm p `prefix_of` normalizeForMerge rawName.
Proof.
  unfold pickMergePrefix.
  destruct (if 1 <? _ then _ else None) as [b|]; [done |].
  destruct (pickBest _ prefixes) as [b|] eqn:Hb; [| done].
  intros [= ->]. apply pickBest_spec in Hb as [Hin Hm].
  split; [done |]. by apply startsWithAt_prefix.
Qed.

(** C5, as the specification states it, fails: a dotted name is matched by
    its suffix after the last dot.  [X.FooBaq] is put in the directory of
    the cluster [FooBa] with [FooBar], and the two normalized names share
    no prefix at all. *)
Lemma pickMergeDir_dotted_counterexample :
  let names := [lit "FooBar"; lit "FooBaz"; lit "X.FooBaq"] in
  let prefixes := computeMergePrefixes codeUnitCompare names 3 2 in
  Forall (λ n, hasNameHead n = true) names
  ∧ prefixes = [mkNamed (lit "FooBa") (lit "FooBa")]
  ∧ pickMergeDir noDigest (lit "FooBar") prefixes = Some (lit "FooBa")
  ∧ pickMergeDir noDigest (lit "X.FooBaq") prefixes = Some (lit "FooBa")
  ∧ longestCommonPrefix (normalizeForMerge (lit "FooBar"))
      (normalizeForMerge (lit "X.FooBaq")) = [].
Proof.
  vm_compute. split; [| repeat split; reflexivity].
  repeat constructor.
Qed.

(** C5, amended.  With minimum prefix length 3 and minimum member count 2,
    every selected cluster has a normalized prefix of at least 3
    characters that starts the normalized names of at least 2 distinct
    declared names; and two modules placed in the same cluster by prefix
    matching on their full normalized names both start with that prefix,
    so they share a common prefix of length at least 3. *)
Theorem clusters_share_prefix (localeCompare : jsstring → jsstring → Z)
    (rawNames : list jsstring) (p : Named) :
  let prefixes := computeMergePrefixes localeCompare rawNames 3 2 in
  p ∈ prefixes →
  3 ≤ length (norm p)
  ∧ (∃ a b, a ≠ b ∧ a ∈ rawNames ∧ b ∈ rawNames
            ∧ norm p `prefix_of` normalizeForMerge a
            ∧ norm p `prefix_of` normalizeForMerge b)
  ∧ (∀ n1 n2,
       pickMergePrefix n1 prefixes = Some (p, false) →
       pickMergePrefix n2 prefixes = Some (p, false) →
       norm p `prefix_of` normalizeForMerge n1
       ∧ norm p `prefix_of` normalizeForMerge n2).
Proof.
  intros prefixes Hp.
  apply computeMergePrefixes_members in Hp as (members & Hlen & Hmem & Hnd & Hall).
  split; [done |]. split.
  - destruct (two_distinct members Hnd Hmem) as (a & b & Hab & Ha & Hb).
    apply (proj1 (Forall_forall _ _) Hall) in Ha as [? ?].
    apply (proj1 (Forall_forall _ _) Hall) in Hb as [? ?].
    by exists a, b.
  - intros n1 n2 [_ H1]%pickMergePrefix_by_prefix [_ H2]%pickMergePrefix_by_prefix.
    done.
Qed.

Lemma clusters_share_prefix_witness :
  let names := [lit "WAWebFooBar"; lit "WAWebFooBaz"; lit "Unrelated"] in
  let p := mkNamed (lit "WAWebFooBa") (lit "FooBa") in
  computeMergePrefixes codeUnitCompare names 3 2 = [p]
  ∧ 3 ≤ length (norm p)
  ∧ lit "FooBa" `prefix_of` normalizeForMerge (lit "WAWebFooBar")
  ∧ lit "FooBa" `prefix_of` normalizeForMerge (lit "FooBaz").
Proof.
  intros names p.
  assert (computeMergePrefixes codeUnitCompare names 3 2 = [p]) as Hc
    by (vm_compute; reflexivity).
  assert (p ∈ computeMergePrefixes codeUnitCompare names 3 2) as Hp
    by (rewrite Hc; apply list_elem_of_singleton; reflexivity).
  destruct (clusters_share_prefix codeUnitCompare names p Hp)
    as (Hlen & _ & Hpick).
  split; [exact Hc |]. split; [exact Hlen |].
  apply (Hpick (lit "WAWebFooBar") (lit "FooBaz")); rewrite Hc;
    vm_compute; reflexivity.
Defined.

(** ** The bounded concurrency runner *)

Section Runner.
Context {T : Type}.
Implicit Types (items : list T) (st : Run T).

Lemma loopTop_spec items next inv next' inv' r :
  inv.*2 = seq 0 (Nat.min next (length items)) →
  (∀ item idx, (item, idx) ∈ inv → items !! idx = Some item) →
  loopTop items next inv = (next', inv', r) →
  next' = S next
  ∧ inv'.*2 = seq 0 (Nat.min next' (length items))
  ∧ (∀ item idx, (item, idx) ∈ inv' → items !! idx = Some item)
  ∧ ((r = Returned ∧ inv' = inv ∧ length items ≤ next)
     ∨ (r = Awaiting next ∧ next < length items
        ∧ ∃ item, items !! next = Some item ∧ inv' = inv ++ [(item, next)])).
Proof.
  intros Hseq Hitems. unfold loopTop.
  destruct (items !! next) as [item|] eqn:Hlook; intros [= <- <- <-].
  - pose proof (lookup_lt_Some _ _ _ Hlook) as Hlt.
    split; [done |]. split; [| split].
    + rewrite fmap_app, Hseq. change ([(item, next)].*2) with [next].
      replace (next `min` length items) with next by lia.
      replace (S next `min` length items) with (S next) by lia.
      by rewrite seq_S.
    + intros it idx [Hin|Hin%list_elem_of_singleton]%elem_of_app;
        [by apply Hitems | by inversion Hin; subst].
    + right. repeat split; [done |]. by exists item.
  - pose proof (lookup_ge_None_1 _ _ Hlook) as Hge.
    split; [done |]. split; [| split].
    + rewrite Hseq. f_equal. lia.
    + done.
    + by left.
Qed.

Lemma runners_split (rs : list Runner) k r r' :
  rs !! k = Some r →
  rs = take k rs ++ r :: drop (S k) rs
  ∧ <[k := r']> rs = take k rs ++ r' :: drop (S k) rs.
Proof.
  intros Hk. split; [by rewrite take_drop_middle |].
  apply insert_take_drop. by apply lookup_lt_Some in Hk.
Qed.

Lemma length_omap_le {A B} (f : A → option B) (l : list A) :
  length (omap f l) ≤ length l.
Proof.
  induction l as [|x l IH]; [done |]. cbn. destruct (f x); cbn; lia.
Qed.

Lemma inFlight_bound st : length (inFlight st) ≤ length (runners st).
Proof. apply length_omap_le. Qed.

Lemma all_Returned_quiet st :
  Forall (λ r, r = Returned) (runners st) → inFlight st = [] ∧ failedIdx st = [].
Proof.
  unfold inFlight, failedIdx. induction 1 as [|r rs -> _ [IH1 IH2]]; [done |].
  cbn. by split.
Qed.

Lemma forallb_isReturned (rs : list Runner) :
  forallb isReturned rs = true → Forall (λ r, r = Returned) rs.
Proof.
  induction rs as [|r rs IH]; simpl; [constructor |].
  destruct r; simpl; try done. intros H. constructor; [done | by apply IH].
Qed.

Lemma startRunners_inv items n st :
  nextIdx st + n ≤ length items →
  runInv items st → settled st = None →
  Forall (λ r, ∃ idx, r = Awaiting idx) (runners st) →
  let st' := startRunners items n st in
  runInv items st' ∧ settled st' = None
  ∧ Forall (λ r, ∃ idx, r = Awaiting idx) (runners st')
  ∧ length (runners st') = length (runners st) + n.
Proof.
  revert st. induction n as [|n IH]; intros st Hn Hinv Hset Haw; simpl.
  - split; [done |]. split; [done |]. split; [done |]. lia.
  - destruct Hinv as (Ha & Hb & Hd & He & Hf). rewrite Hset in Hf.
    destruct (loopTop items (nextIdx st) (invoked st)) as [[next inv] r] eqn:Hl.
    destruct (loopTop_spec _ _ _ _ _ _ Ha Hb Hl)
      as (-> & Ha' & Hb' & [(-> & -> & Hge)|(-> & Hlt & item & Hitem & ->)]);
      [lia |].
    set (st1 := mkRun (S (nextIdx st)) (runners st ++ [Awaiting (nextIdx st)])
                  (invoked st ++ [(item, nextIdx st)]) (completed st)
                  (settled st)).
    destruct (IH st1) as (Hinv' & Hset' & Haw' & Hlen').
    + simpl. lia.
    + unfold runInv, inFlight, failedIdx in *. simpl.
      repeat split; try done.
      * rewrite !omap_app, fmap_app. simpl. rewrite Hd, Hf, !app_nil_r.
        by rewrite app_assoc.
      * intros [Hin|Hin%list_elem_of_singleton]%elem_of_app; [| done].
        apply (proj1 (Forall_forall _ _) Haw) in Hin as [? ?]. done.
      * rewrite Hset. rewrite omap_app, Hf. done.
    + done.
    + simpl. apply Forall_app. split; [done |]. repeat constructor. by eexists.
    + split; [exact Hinv' |]. split; [exact Hset' |]. split; [exact Haw' |].
      etrans; [exact Hlen' |]. simpl. rewrite length_app. simpl. lia.
Qed.

Lemma concurrencyOf_pos limit : 1 ≤ concurrencyOf limit.
Proof. unfold concurrencyOf. lia. Qed.

Lemma initRun_inv items limit :
  runInv items (initRun items limit)
  ∧ length (runners (initRun items limit))
    = Nat.min (concurrencyOf limit) (length items).
Proof.
  unfold initRun.
  destruct (startRunners_inv items
              (Nat.min (concurrencyOf limit) (length items))
              (mkRun 0 [] [] [] None)) as (Hinv & Hset & Haw & Hlen).
  - simpl. lia.
  - unfold runInv, inFlight, failedIdx. simpl. repeat split; try done.
    + intros ?? ?%elem_of_nil. done.
    + intros ?%elem_of_nil. done.
  - done.
  - constructor.
  - set (st := startRunners items _ _) in *. simpl in Hlen.
    split; [| done].
    destruct Hinv as (Ha & Hb & Hd & He & Hf). rewrite Hset in Hf.
    unfold runInv, inFlight, failedIdx in *. simpl.
    repeat split; try done.
    destruct (forallb isReturned (runners st)) eqn:Hall; [| done].
    by apply forallb_isReturned.
Qed.

Lemma stepRun_inv items st k ok st' :
  runInv items st → stepRun items st k ok = Some st' →
  runInv items st' ∧ length (runners st') = length (runners st).
Proof.
  intros (Ha & Hb & Hd & He & Hf). unfold stepRun.
  destruct (runners st !! k) as [[idx| |idx]|] eqn:Hk; try done.
  assert (settled st ≠ Some Fulfilled) as Hnf.
  { intros Hs. rewrite Hs in Hf.
    apply list_elem_of_lookup_2 in Hk.
    by apply (proj1 (Forall_forall _ _) Hf) in Hk. }
  destruct ok.
  - destruct (loopTop items (nextIdx st) (invoked st)) as [[next inv] r] eqn:Hl.
    intros [= <-].
    destruct (loopTop_spec _ _ _ _ _ _ Ha Hb Hl) as (-> & Ha' & Hb' & Hr).
    destruct (runners_split _ _ _ r Hk) as [Hrs Hrs'].
    unfold runInv, inFlight, failedIdx in *. simpl.
    rewrite length_insert. split; [| done].
    split; [done |]. split; [done |].
    rewrite Hrs' in *. rewrite Hrs in Hd, He, Hf.
    rewrite !omap_app in *. simpl in *.
    split; [| split].
    + destruct Hr as [(-> & -> & _)|(-> & _ & item & _ & ->)]; simpl.
      * rewrite Hd. solve_Permutation.
      * rewrite fmap_app, Hd. simpl. solve_Permutation.
    + intros Hin.
      destruct Hr as [(-> & -> & Hge)|(-> & _ & item & _ & ->)]; [lia |].
      etrans; [apply He |]; [| lia].
      apply elem_of_app in Hin as [Hin|Hin]; apply elem_of_app; [by left |].
      right. apply elem_of_cons in Hin as [Hin|Hin]; [done | by right].
    + unfold joinAll. destruct (settled st) as [[|j]|] eqn:Hs; [done | |].
      * destruct Hr as [(-> & _)|(-> & _)]; simpl; exact Hf.
      * destruct (forallb isReturned _) eqn:Hall.
        -- by apply forallb_isReturned.
        -- destruct Hr as [(-> & _)|(-> & _)]; simpl; exact Hf.
  - intros [= <-].
    destruct (runners_split _ _ _ (Rejected idx) Hk) as [Hrs Hrs'].
    unfold runInv, inFlight, failedIdx in *. simpl.
    rewrite length_insert. split; [| done].
    split; [done |]. split; [done |].
    rewrite Hrs' in *. rewrite Hrs in Hd, He, Hf.
    rewrite !omap_app in *. simpl in *.
    split; [| split].
    + rewrite Hd. solve_Permutation.
    + intros Hin. apply He.
      apply elem_of_app in Hin as [Hin|Hin]; apply elem_of_app; [by left |].
      right. apply elem_of_cons in Hin as [Hin|Hin]; [done | by right].
    + unfold joinAll. destruct (settled st) as [[|j]|] eqn:Hs; [done | |].
      * apply elem_of_app in Hf as [Hf|Hf]; apply elem_of_app; [by left |].
        right. by right.
      * apply elem_of_app. right. by left.
Qed.

Lemma reachable_inv items limit st :
  reachable items limit st →
  runInv items st
  ∧ length (runners st) = Nat.min (concurrencyOf limit) (length items).
Proof.
  induction 1 as [|st k ok st' _ [IH1 IH2] Hstep]; [apply initRun_inv |].
  destruct (stepRun_inv _ _ _ _ _ IH1 Hstep) as [? Hlen].
  split; [done |]. by rewrite Hlen.
Qed.

End Runner.

(** C6, as the specification states it, fails: with limit 1 and two items,
    when the invocation for the first item fails the only runner rejects;
    the call has returned, no step is left, and the worker was never
    invoked for the second item. *)
Lemma runWithConcurrency_not_every_item :
  let items := [10; 20] in
  ∃ st1, stepRun items (initRun items 1%Q) 0 false = Some st1
         ∧ settled st1 = Some (Failed 0)
         ∧ invoked st1 = [(10, 0)]
         ∧ ∀ k ok, stepRun items st1 k ok = None.
Proof.
  eexists. split; [vm_compute; reflexivity |].
  split; [reflexivity |]. split; [reflexivity |].
  intros [|[|k]] ok; reflexivity.
Qed.

(** C6, amended.  For every item list and every limit of at least 1, in
    every state of a run: the worker has been invoked at most once per
    index, each time with the item at that index; at most [limit]
    invocations are in flight; the call has returned successfully only if
    the worker was invoked exactly once for every item and all the
    invocations have completed, and it has returned with a failure only if
    an invocation has failed. *)
Theorem runWithConcurrency_bounded {T} (items : list T) (limit : Q)
    (st : Run T) :
  (1 <= limit)%Q → reachable items limit st →
  NoDup (invoked st).*2
  ∧ (∀ item idx, (item, idx) ∈ invoked st → items !! idx = Some item)
  ∧ (inject_Z (Z.of_nat (length (inFlight st))) <= limit)%Q
  ∧ (settled st = Some Fulfilled →
     (invoked st).*2 = seq 0 (length items)
     ∧ completed st ≡ₚ seq 0 (length items)
     ∧ inFlight st = [])
  ∧ (∀ idx, settled st = Some (Failed idx) →
            idx ∈ failedIdx st ∧ idx ∈ (invoked st).*2).
Proof.
  intros Hlimit Hreach.
  destruct (reachable_inv _ _ _ Hreach) as [(Ha & Hb & Hd & He & Hf) Hlen].
  split; [rewrite Ha; apply NoDup_seq |]. split; [exact Hb |].
  split; [| split].
  - pose proof (inFlight_bound st) as Hfl. unfold concurrencyOf in Hlen.
    assert (1 ≤ Qfloor limit)%Z as Hfloor.
    { change 1%Z with (Qfloor 1). by apply Qfloor_resp_le. }
    apply Qle_trans with (inject_Z (Qfloor limit)); [| apply Qfloor_le].
    rewrite <- Zle_Qle. lia.
  - intros Hs. rewrite Hs in Hf.
    destruct (all_Returned_quiet st Hf) as [Hq1 Hq2].
    assert ((invoked st).*2 = seq 0 (length items)) as Hall.
    { rewrite Ha. f_equal.
      destruct (runners st) as [|r rs] eqn:Hrs.
      - simpl in Hlen. pose proof (concurrencyOf_pos limit). lia.
      - apply Forall_cons in Hf as [-> _].
        assert (length items ≤ nextIdx st) by (apply He; by left). lia. }
    split; [done |]. split; [| done].
    rewrite <- Hall, Hd, Hq1, Hq2. by rewrite !app_nil_r.
  - intros idx Hs. rewrite Hs in Hf. split; [done |].
    rewrite Hd. apply elem_of_app. right. apply elem_of_app. by right.
Qed.

Lemma runWithConcurrency_bounded_witness :
  let items := [10; 20; 30] in
  let st := mkRun 5 [Returned; Returned] [(10, 0); (20, 1); (30, 2)] [0; 1; 2]
              (Some Fulfilled) in
  reachable items 2.5%Q st
  ∧ NoDup (invoked st).*2
  ∧ (inject_Z (Z.of_nat (length (inFlight st))) <= 2.5)%Q
  ∧ completed st ≡ₚ seq 0 (length items).
Proof.
  intros items st.
  assert (reachable items 2.5%Q st) as Hreach.
  { apply (reach_step items 2.5%Q
             (mkRun 4 [Awaiting 2; Returned] [(10, 0); (20, 1); (30, 2)] [0; 1]
                None) 0 true); [| reflexivity].
    apply (reach_step items 2.5%Q
             (mkRun 3 [Awaiting 2; Awaiting 1] [(10, 0); (20, 1); (30, 2)] [0]
                None) 1 true); [| reflexivity].
    apply (reach_step items 2.5%Q (initRun items 2.5%Q) 0 true); [| reflexivity].
    apply reach_init. }
  split; [exact Hreach |].
  destruct (runWithConcurrency_bounded items 2.5%Q st ltac:(done) Hreach)
    as (Hnd & _ & Hfl & Hdone & _).
  split; [exact Hnd |]. split; [exact Hfl |].
  destruct (Hdone eq_refl) as (_ & Hperm & _). exact Hperm.
Defined.

(** C9, as the specification states it, fails.  With limit 2 and three
    items, when the first invocation fails the call is rejected at once,
    while the second invocation is still in flight; with limit 1 and two
    items, the second item is never dispatched after the first has
    failed. *)
Lemma runWithConcurrency_fails_fast :
  (let items := [10; 20; 30] in
   ∃ st1, stepRun items (initRun items 2%Q) 0 false = Some st1
          ∧ settled st1 = Some (Failed 0)
          ∧ inFlight st1 = [1])
  ∧ (let items := [10; 20] in
     ∃ st1, stepRun items (initRun items 1%Q) 0 false = Some st1
            ∧ invoked st1 = [(10, 0)]
            ∧ ∀ k ok, stepRun items st1 k ok = None).
Proof.
  split.
  - eexists. split; [vm_compute; reflexivity |]. split; reflexivity.
  - eexists. split; [vm_compute; reflexivity |]. split; [reflexivity |].
    intros [|[|k]] ok; reflexivity.
Qed.

(** C9, amended.  When the invocation awaited by a runner fails, that
    runner rejects and dispatches nothing more; the other runners are left
    as they are, their invocations in flight are not cancelled, and each
    of them still dispatches the next item when its own invocation
    completes; the call is rejected at once with the first failure. *)
Theorem runWithConcurrency_failure {T} (items : list T) (limit : Q)
    (st : Run T) (k idx : nat) :
  reachable items limit st →
  runners st !! k = Some (Awaiting idx) →
  ∃ st',
    stepRun items st k false = Some st'
    ∧ runners st' = <[k := Rejected idx]> (runners st)
    ∧ (∀ k', k' ≠ k → runners st' !! k' = runners st !! k')
    ∧ nextIdx st' = nextIdx st
    ∧ invoked st' = invoked st
    ∧ completed st' = completed st
    ∧ settled st'
      = Some (Failed (match settled st with Some (Failed j) => j | _ => idx end))
    ∧ (∀ k' idx' item,
         k' ≠ k → runners st !! k' = Some (Awaiting idx') →
         items !! nextIdx st = Some item →
         ∃ st'', stepRun items st' k' true = Some st''
                 ∧ invoked st'' = invoked st ++ [(item, nextIdx st)]
                 ∧ runners st'' !! k' = Some (Awaiting (nextIdx st))
                 ∧ runners st'' !! k = Some (Rejected idx)).
Proof.
  intros Hreach Hk.
  destruct (reachable_inv _ _ _ Hreach) as [(Ha & Hb & Hd & He & Hf) Hlen].
  pose proof (lookup_lt_Some _ _ _ Hk) as Hklt.
  eexists. split; [unfold stepRun; rewrite Hk; reflexivity |]. simpl.
  split; [done |]. split; [| split; [done |]; split; [done |]; split; [done |]].
  { intros k' Hne. by rewrite list_lookup_insert_ne. }
  split.
  - unfold joinAll. destruct (settled st) as [[|j]|] eqn:Hs; [| done | done].
    apply list_elem_of_lookup_2 in Hk.
    by apply (proj1 (Forall_forall _ _) Hf) in Hk.
  - intros k' idx' item Hne Hk' Hitem.
    pose proof (lookup_lt_Some _ _ _ Hk') as Hk'lt.
    eexists. split.
    + unfold stepRun. simpl. rewrite list_lookup_insert_ne by done.
      rewrite Hk'. unfold loopTop. rewrite Hitem. reflexivity.
    + simpl. split; [done |]. split.
      * rewrite list_lookup_insert_eq; [done |]. by rewrite length_insert.
      * rewrite list_lookup_insert_ne by done.
        by rewrite list_lookup_insert_eq.
Qed.

Lemma runWithConcurrency_failure_witness :
  let items := [10; 20; 30] in
  ∃ st', stepRun items (initRun items 2%Q) 0 false = Some st'
         ∧ runners st' = [Rejected 0; Awaiting 1]
         ∧ settled st' = Some (Failed 0)
         ∧ ∃ st'', stepRun items st' 1 true = Some st''
                   ∧ invoked st'' = [(10, 0); (20, 1); (30, 2)].
Proof.
  intros items.
  destruct (runWithConcurrency_failure items 2%Q (initRun items 2%Q) 0 0
              (reach_init items 2%Q) eq_refl)
    as (st' & Hstep & Hrs & _ & _ & _ & _ & Hset & Hnext).
  exists st'. split; [exact Hstep |]. split; [exact Hrs |].
  split; [exact Hset |].
  destruct (Hnext 1 1 30 ltac:(lia) eq_refl eq_refl) as (st'' & Hstep' & Hinv & _).
  exists st''. split; [exact Hstep' | exact Hinv].
Defined.

(** ** The examples of the specification *)

(** Text without the marker gives no span. *)
Lemma extractDCalls_no_marker source :
  (∀ i, startsWithAt marker source i = false) → extractDCalls source = Some [].
Proof.
  intros Hno. destruct (extractDCalls_log_iterations source) as (evs & Hit & Hex).
  unfold extractDCalls. rewrite Hex. simpl.
  inversion Hit as [| |i start close evs' _ Hf|i start msg evs' _ Hf]; subst;
    try done;
    apply findNextDCallStart_spec in Hf as (_ & Hm & _);
    by rewrite Hno in Hm.
Qed.

(** The marker inside a regular-expression literal is not a call. *)
Example extract_after_regex :
  let source := lit "var re = /__d\(/; __d('X',function(){});" in
  extractDCalls source = Some [lit "__d('X',function(){});"]
  ∧ extractFirstStringArg (lit "__d('X',function(){});") = Some (lit "X").
Proof. vm_compute. split; reflexivity. Qed.

(** Two modules with the same declared name. *)
Example export_same_name :
  let bundle := lit "__d('A',function(a,b){return 1;});__d('A',function(a,b){return 2;});" in
  buildExportFiles codeUnitCompare noDigest noMinify posixSep bundle noOpts
  = Some [mkExportFile (lit "A.js") (lit "__d('A',function(a,b){return 1;});");
          mkExportFile (lit "A_2.js") (lit "__d('A',function(a,b){return 2;});")].
Proof. vm_compute. reflexivity. Qed.

(** Clustering of [WAWebFooBar], [WAWebFooBaz] and [Unrelated]. *)
Example cluster_FooBa :
  let names := [lit "WAWebFooBar"; lit "WAWebFooBaz"; lit "Unrelated"] in
  let prefixes := computeMergePrefixes codeUnitCompare names 3 2 in
  prefixes = [mkNamed (lit "WAWebFooBa") (lit "FooBa")]
  ∧ pickMergeDir noDigest (lit "WAWebFooBar") prefixes = Some (lit "WAWebFooBa")
  ∧ pickMergeDir noDigest (lit "WAWebFooBaz") prefixes = Some (lit "WAWebFooBa")
  ∧ pickMergeDir noDigest (lit "Unrelated") prefixes = None.
Proof. vm_compute. repeat split; reflexivity. Qed.

(** Two clusters whose prefixes differ only in characters that
    [safeNameComponent] replaces get the same directory, in whichever order
    the two clusters are listed. *)
Example cluster_directories_collide :
  let a := mkNamed (lit "Fo.Bar") (lit "Fo.Bar") in
  let b := mkNamed (lit "Fo_Bar") (lit "Fo_Bar") in
  ∀ prefixes, prefixes = [a; b] ∨ prefixes = [b; a] →
    pickMergePrefix (lit "Fo.Bar1") prefixes = Some (a, false)
    ∧ pickMergePrefix (lit "Fo_Bar3") prefixes = Some (b, false)
    ∧ pickMergeDir noDigest (lit "Fo.Bar1") prefixes = Some (lit "Fo_Bar")
    ∧ pickMergeDir noDigest (lit "Fo_Bar3") prefixes = Some (lit "Fo_Bar").
Proof.
  intros a b prefixes [-> | ->]; vm_compute; repeat split; reflexivity.
Qed.

(** * Further properties of the code *)

(** ** The scanners *)

Lemma startsWithAt_marker_head source p :
  startsWithAt marker source p = true → source !! p = Some (chr "_").
Proof.
  unfold startsWithAt. intros H%bool_decide_eq_true.
  rewrite <- (Nat.add_0_r p), <- lookup_drop.
  rewrite <- (lookup_take_lt _ (length marker)) by (rewrite marker_length; lia).
  by rewrite H.
Qed.

(** In code, the first character of the marker is an ordinary character. *)
Lemma lexStep_underscore source st p :
  mode st = code → source !! p = Some (chr "_") →
  ∃ st', lexStep source st p = Plain st'.
Proof.
  intros Hm Hc. unfold lexStep. rewrite Hm, Hc. simpl.
  destruct (0 <? templateExprDepth st)%Z; eauto.
Qed.

Lemma isCodeMarker_plainAt source o p :
  isCodeMarker source o p ↔
  startsWithAt marker source p = true ∧ plainAt source o p = true.
Proof.
  unfold isCodeMarker, plainAt. split.
  - intros (Hm & st & Hst & Hmode). split; [done |]. rewrite Hst.
    destruct (lexStep_underscore source st p Hmode
                (startsWithAt_marker_head _ _ Hm)) as [st' ->]. done.
  - intros (Hm & Hp). split; [done |].
    destruct (lexStateAt source o p) as [st|]; [| done].
    exists st. split; [done |].
    destruct (lexStep source st p) as [|st'] eqn:Hs; [done |].
    by apply lexStep_Plain_code in Hs as [? _].
Qed.

(** X1.  The call locator returns the first offset from [fromIdx] on at
    which [__d(] starts in code, and [-1] exactly when there is none. *)
Theorem findNextDCallStart_first source fromIdx :
  ∃ res,
    findNextDCallStart source fromIdx = Some res
    ∧ match res with
      | Some r =>
          fromIdx ≤ r ∧ isCodeMarker source fromIdx r
          ∧ ∀ p, p < r → ¬ isCodeMarker source fromIdx p
      | None => ∀ p, ¬ isCodeMarker source fromIdx p
      end.
Proof.
  destruct (findNextDCallStart_total source fromIdx) as [res Hres].
  exists res. split; [done |].
  apply findNextDCallStart_spec in Hres. destruct res as [r|].
  - destruct Hres as (Hle & Hm & Hp & _ & Hfirst).
    split; [done |]. split; [by apply isCodeMarker_plainAt |].
    intros p Hlt Hcm. pose proof Hcm as (_ & st & Hst & _).
    apply lexStateAt_le in Hst.
    apply isCodeMarker_plainAt in Hcm as [Hm' Hp'].
    by rewrite (Hfirst p ltac:(lia) Hp') in Hm'.
  - intros p Hcm. pose proof Hcm as (_ & st & Hst & _).
    apply lexStateAt_le in Hst.
    apply isCodeMarker_plainAt in Hcm as [Hm' Hp'].
    by rewrite (Hres p Hst Hp') in Hm'.
Qed.

(** X2.  From an opening parenthesis, the matcher returns [c] exactly when
    [c] is the matching closing parenthesis, and throws exactly when there
    is none. *)
Theorem findMatchingParen_iff source o :
  is_chr (source !! o) "(" = true →
  (∀ c, findMatchingParen source o = Some (Ok c) ↔ matchingClose source o c)
  ∧ (findMatchingParen source o = Some (Throw noMatchingParen)
     ↔ ∀ c, ¬ matchingClose source o c).
Proof.
  intros Hopen.
  assert (∀ c msg, findMatchingParen source o = Some (Throw msg) →
                   ¬ matchingClose source o c) as Hthrow.
  { intros c msg [_ Hnone]%findMatchingParen_spec (Hoc & _ & Hc & Hp & Hz & _).
    by apply (Hnone c ltac:(lia) Hp Hc). }
  assert (∀ c c', findMatchingParen source o = Some (Ok c') →
                  matchingClose source o c → c = c') as Huniq.
  { intros c c' Hfind (Hoc & _ & Hc & Hp & Hz & Hpos).
    pose proof (findMatchingParen_matchingClose _ _ _ Hopen Hfind)
      as (Hoc' & _ & Hc' & Hp' & Hz' & Hpos').
    destruct (Nat.lt_trichotomy c c') as [Hlt|[->|Hgt]]; [| done |].
    - specialize (Hpos' c ltac:(lia)). lia.
    - specialize (Hpos c' ltac:(lia)). lia. }
  split.
  - intros c. split; [by apply findMatchingParen_matchingClose |].
    intros Hmc. destruct (findMatchingParen_total source o) as [[c'|msg] Hres].
    + by rewrite (Huniq c c' Hres Hmc).
    + by destruct (Hthrow c msg Hres).
  - split.
    + intros Hres c. by apply (Hthrow c noMatchingParen).
    + intros Hnone. destruct (findMatchingParen_total source o) as [[c'|msg] Hres].
      * destruct (Hnone c'). by apply findMatchingParen_matchingClose.
      * pose proof Hres as [-> _]%findMatchingParen_spec. done.
Qed.

Lemma findMatchingParen_iff_witness :
  let source := lit "__d('a)', /[)]/, (1));" in
  is_chr (source !! 3) "(" = true
  ∧ findMatchingParen source 3 = Some (Ok 20)
  ∧ matchingClose source 3 20.
Proof.
  intros source.
  assert (is_chr (source !! 3) "(" = true) as Hopen by (vm_compute; reflexivity).
  assert (findMatchingParen source 3 = Some (Ok 20)) as Hfind
    by (vm_compute; reflexivity).
  split; [exact Hopen |]. split; [exact Hfind |].
  destruct (findMatchingParen_iff source 3 Hopen) as [Hiff _].
  exact (proj1 (Hiff 20) Hfind).
Defined.

(** X3.  A text in which [__d(] does not occur gives no call and no
    file, whatever the options. *)
Theorem no_marker_no_files localeCompare sha1hex minify sep source opts :
  (∀ i, startsWithAt marker source i = false) →
  extractDCalls source = Some []
  ∧ buildExportFiles localeCompare sha1hex minify sep source opts = Some [].
Proof.
  intros Hno. pose proof (extractDCalls_no_marker source Hno) as Hex.
  split; [done |]. unfold buildExportFiles. by rewrite Hex.
Qed.

Lemma no_marker_no_files_witness :
  buildExportFiles codeUnitCompare noDigest noMinify posixSep
    (lit "var x = 1;") noOpts = Some [].
Proof.
  apply (no_marker_no_files codeUnitCompare noDigest noMinify posixSep
           (lit "var x = 1;") noOpts).
  intros i. do 11 (destruct i as [|i]; [vm_compute; reflexivity |]).
  unfold startsWithAt. apply bool_decide_eq_false_2. intros H.
  apply (f_equal length) in H. rewrite length_take, length_drop in H.
  vm_compute in H. destruct i; discriminate H.
Defined.

(** ** Names *)

Lemma indexOf_head pat s : indexOf pat (pat ++ s) = Some 0.
Proof.
  unfold indexOf. destruct (pat ++ s) as [|c r] eqn:Hps; simpl.
  - apply app_eq_nil in Hps as [-> ->]. by rewrite take_nil, bool_decide_eq_true_2.
  - rewrite bool_decide_eq_true_2; [done |].
    rewrite <- Hps. by rewrite take_app_length.
Qed.

Lemma dropSpaces_app ws s :
  Forall (λ c, isSpace c = true) ws → dropSpaces (ws ++ s) = dropSpaces s.
Proof. induction 1 as [|c ws Hc _ IH]; simpl; [done |]. by rewrite Hc. Qed.

Lemma readString_plain quote name rest out :
  chr "\" ∉ name → quote ≠ chr "\" → quote ∉ name →
  readString quote (name ++ quote :: rest) out = Some (out ++ name).
Proof.
  revert out. induction name as [|c name IH]; intros out Hbs Hq Hqn;
    cbn [readString app].
  - destruct (N.eqb_spec quote (chr "\")); [done |].
    by rewrite N.eqb_refl, app_nil_r.
  - apply not_elem_of_cons in Hbs as [Hc Hbs].
    apply not_elem_of_cons in Hqn as [Hcq Hqn].
    destruct (N.eqb_spec c (chr "\")); [done |].
    destruct (N.eqb_spec c quote); [done |].
    rewrite IH by done. by rewrite <- app_assoc.
Qed.

(** X4.  The declared name of a call whose first argument is a string
    literal without escapes is the text between the quotes, whatever white
    space precedes the literal and whatever follows it. *)
Theorem extractFirstStringArg_quoted ws quote name rest :
  Forall (λ c, isSpace c = true) ws →
  quote = dquote ∨ quote = chr "'" →
  chr "\" ∉ name → quote ∉ name →
  extractFirstStringArg (marker ++ ws ++ quote :: name ++ quote :: rest)
  = Some name.
Proof.
  intros Hws Hq Hbs Hqn. unfold extractFirstStringArg.
  rewrite indexOf_head. change (0 + 4) with (length marker).
  rewrite drop_app_length, dropSpaces_app by done.
  assert (isSpace quote = false ∧ quote ≠ chr "\"
          ∧ N.eqb quote dquote || N.eqb quote (chr "'") = true)
    as (Hns & Hnb & Hisq) by (destruct Hq as [-> | ->]; by vm_compute).
  cbn [dropSpaces]. rewrite Hns, Hisq. by apply readString_plain.
Qed.

Lemma extractFirstStringArg_quoted_witness :
  extractFirstStringArg (lit "__d(  'WAWebFoo',function(){},1);")
  = Some (lit "WAWebFoo").
Proof.
  apply (extractFirstStringArg_quoted (lit "  ") (chr "'") (lit "WAWebFoo")
           (lit ",function(){},1);")).
  - repeat constructor.
  - right. reflexivity.
  - vm_compute. intros H. repeat (apply elem_of_cons in H as [H|H]; [discriminate H |]).
    by apply elem_of_nil in H.
  - vm_compute. intros H. repeat (apply elem_of_cons in H as [H|H]; [discriminate H |]).
    by apply elem_of_nil in H.
Defined.

Lemma replaceRuns_safe inRun s :
  Forall (λ c, isNameChar c = true) (replaceRuns inRun s).
Proof.
  revert inRun. induction s as [|c s IH]; intros inRun; simpl; [constructor |].
  destruct (isNameChar c) eqn:Hc; [by constructor |].
  destruct inRun; [done |]. by constructor.
Qed.

Lemma replaceRuns_id inRun s :
  Forall (λ c, isNameChar c = true) s → replaceRuns inRun s = s.
Proof.
  intros H. revert inRun. induction H as [|c s Hc _ IH]; intros inRun; simpl;
    [done |].
  by rewrite Hc, IH.
Qed.

Lemma replaceRuns_length inRun s : length (replaceRuns inRun s) ≤ length s.
Proof.
  revert inRun. induction s as [|c s IH]; intros inRun; simpl; [done |].
  destruct (isNameChar c); simpl; [specialize (IH false); lia |].
  destruct inRun; simpl; specialize (IH true); lia.
Qed.

(** X5.  Replacing the runs of other characters by [_] leaves only
    characters of [[A-Za-z0-9_\-\[\]]], changes nothing in a name made of
    such characters, and so gives the same result when applied twice; the
    result is never longer than the name. *)
Theorem sanitize_safe s :
  Forall (λ c, isNameChar c = true) (sanitize s)
  ∧ (Forall (λ c, isNameChar c = true) s → sanitize s = s)
  ∧ sanitize (sanitize s) = sanitize s
  ∧ length (sanitize s) ≤ length s.
Proof.
  unfold sanitize. split; [apply replaceRuns_safe |].
  split; [apply replaceRuns_id |].
  split; [apply replaceRuns_id, replaceRuns_safe | apply replaceRuns_length].
Qed.

Lemma sanitize_safe_witness :
  sanitize (lit "WAWeb-Foo[1]_x") = lit "WAWeb-Foo[1]_x"
  ∧ sanitize (lit "a b..c") = lit "a_b_c".
Proof.
  split; [| vm_compute; reflexivity].
  destruct (sanitize_safe (lit "WAWeb-Foo[1]_x")) as (_ & Hid & _).
  apply Hid. repeat constructor.
Defined.

Lemma dropSpaces_elem s x : x ∈ dropSpaces s → x ∈ s.
Proof.
  induction s as [|c s IH]; simpl; [done |].
  destruct (isSpace c); [| done]. intros H. right. by apply IH.
Qed.

Lemma trim_elem s x : x ∈ trim s → x ∈ s.
Proof.
  unfold trim. intros H. rewrite elem_of_reverse in H.
  apply dropSpaces_elem in H. rewrite elem_of_reverse in H.
  by apply dropSpaces_elem.
Qed.

(** X6.  A directory name made by [safeNameComponent] is never empty and
    never longer than 80 characters, whatever the digest; it is made of
    characters of [[A-Za-z0-9_\-\[\]]] when the digest is. *)
Theorem safeNameComponent_bounds (sha1hex : jsstring → jsstring) name :
  let dir := safeNameComponent sha1hex name in
  0 < length dir ≤ 80
  ∧ ((∀ s, Forall (λ c, isNameChar c = true) (sha1hex s)) →
     Forall (λ c, isNameChar c = true) dir).
Proof.
  unfold safeNameComponent.
  set (cleaned := trim (sanitize name)).
  assert (Forall (λ c, isNameChar c = true) cleaned) as Hcl.
  { apply Forall_forall. intros x Hx%trim_elem.
    by apply (proj1 (Forall_forall _ _) (replaceRuns_safe false name)). }
  set (raw_ := match cleaned with [] => lit "group" | _ :: _ => cleaned end).
  assert (0 < length raw_ ∧ Forall (λ c, isNameChar c = true) raw_)
    as [Hpos Hraw].
  { subst raw_. destruct cleaned; [| split; [simpl; lia | done]].
    split; [simpl; lia | repeat constructor]. }
  destruct (Nat.leb_spec (length raw_) 80) as [Hle|Hgt]; [done |].
  set (hash := take 10 (sha1hex raw_)).
  assert (length hash ≤ 10) as Hh by (subst hash; rewrite length_take; lia).
  split.
  - rewrite !length_app, length_take. simpl. lia.
  - intros Hhex. apply Forall_app. split; [by apply Forall_take |].
    apply Forall_app. split; [repeat constructor |].
    subst hash. by apply Forall_take.
Qed.

Lemma safeNameComponent_bounds_witness :
  let dir := safeNameComponent (λ _, lit "0123456789abcdef") (lit "a.b c") in
  0 < length dir ≤ 80 ∧ Forall (λ c, isNameChar c = true) dir.
Proof.
  intros dir.
  destruct (safeNameComponent_bounds (λ _, lit "0123456789abcdef") (lit "a.b c"))
    as [Hlen Hsafe].
  split; [exact Hlen |]. apply Hsafe. intros s. repeat constructor.
Defined.

Lemma longestCommonPrefix_greatest_aux a b p :
  p `prefix_of` a → p `prefix_of` b → p `prefix_of` longestCommonPrefix a b.
Proof.
  revert a b. induction p as [|x p IH]; intros a b Ha Hb; [apply prefix_nil |].
  destruct Ha as [ka ->], Hb as [kb ->]. simpl. rewrite N.eqb_refl.
  apply prefix_cons, IH; by eexists.
Qed.

(** X7.  [longestCommonPrefix] is the greatest common prefix: it starts
    both strings and every common prefix starts it; swapping the strings
    gives the same prefix. *)
Theorem longestCommonPrefix_greatest a b :
  longestCommonPrefix a b `prefix_of` a
  ∧ longestCommonPrefix a b `prefix_of` b
  ∧ (∀ p, p `prefix_of` a → p `prefix_of` b →
          p `prefix_of` longestCommonPrefix a b)
  ∧ longestCommonPrefix a b = longestCommonPrefix b a.
Proof.
  split; [apply longestCommonPrefix_l |].
  split; [apply longestCommonPrefix_r |].
  split; [intros p; apply longestCommonPrefix_greatest_aux |].
  revert b. induction a as [|x a IH]; intros [|y b]; simpl; try done.
  destruct (N.eqb_spec x y) as [->|Hne].
  - by rewrite N.eqb_refl, IH.
  - destruct (N.eqb_spec y x); [by subst | done].
Qed.

Lemma longestCommonPrefix_greatest_witness :
  lit "Foo" `prefix_of` longestCommonPrefix (lit "FooBar") (lit "FooBaz")
  ∧ longestCommonPrefix (lit "FooBar") (lit "FooBaz") = lit "FooBa".
Proof.
  split; [| vm_compute; reflexivity].
  destruct (longestCommonPrefix_greatest (lit "FooBar") (lit "FooBaz"))
    as (_ & _ & Hg & _).
  apply Hg; [by exists (lit "Bar") | by exists (lit "Baz")].
Defined.

(** ** Clusters *)

Lemma addMember_keys key m pm :
  (addMember key m pm).*1 = if bool_decide (key ∈ pm.*1) then pm.*1
                            else pm.*1 ++ [key].
Proof.
  induction pm as [|[k ms] pm IH]; csimpl; [done |].
  destruct (decide (k = key)) as [->|Hk].
  - rewrite (bool_decide_eq_true_2 (key = key)) by done.
    rewrite bool_decide_eq_true_2; [done | by left].
  - rewrite (bool_decide_eq_false_2 (k = key)) by done.
    csimpl. rewrite IH. destruct (decide (key ∈ pm.*1)) as [Hin|Hin].
    + rewrite (bool_decide_eq_true_2 (key ∈ pm.*1)) by done.
      rewrite bool_decide_eq_true_2; [done | by right].
    + rewrite (bool_decide_eq_false_2 (key ∈ pm.*1)) by done.
      rewrite bool_decide_eq_false_2; [done |].
      intros [?|?]%elem_of_cons; congruence.
Qed.

Lemma addMember_keys_NoDup key m pm :
  NoDup pm.*1 → NoDup (addMember key m pm).*1.
Proof.
  intros Hnd. rewrite addMember_keys. case_bool_decide as Hin; [done |].
  apply NoDup_app. repeat split; [done | | apply NoDup_singleton].
  intros x Hx ->%list_elem_of_singleton. done.
Qed.

Lemma addMember_nonempty key m pm :
  Forall (λ e, e.2 ≠ []) pm → Forall (λ e, e.2 ≠ []) (addMember key m pm).
Proof.
  induction 1 as [|[k ms] pm Hms Hpm IH]; simpl; [by repeat constructor |].
  case_bool_decide; constructor; try done. simpl in *.
  unfold setAdd. case_bool_decide; [done |]. intros Happ.
  by apply app_eq_nil in Happ as [_ ?].
Qed.

(** The keys of [prefixMembers] are distinct and no member set is empty. *)
Lemma pairOuter_keys minPrefixLen items pm :
  NoDup pm.*1 ∧ Forall (λ e, e.2 ≠ []) pm →
  NoDup (pairOuter minPrefixLen items pm).*1
  ∧ Forall (λ e, e.2 ≠ []) (pairOuter minPrefixLen items pm).
Proof.
  revert pm. induction items as [|a items IH]; intros pm Hpm; simpl; [done |].
  apply IH. clear IH. revert pm Hpm.
  induction items as [|b items IHi]; intros pm [Hnd Hne]; simpl; [done |].
  destruct (_ <? _); [done |]. apply IHi.
  split; [by do 2 apply addMember_keys_NoDup | by do 2 apply addMember_nonempty].
Qed.

Lemma selectPrefixes_sublist minMembers candidates selected covered :
  ∃ chosen, selectPrefixes minMembers candidates selected covered
            = selected ++ chosen
            ∧ chosen `sublist_of` candidates.*1.
Proof.
  revert selected covered.
  induction candidates as [|[prefix members] candidates IH];
    intros selected covered; simpl.
  - exists []. by rewrite app_nil_r.
  - destruct (_ <=? _).
    + destruct (IH (selected ++ [prefix])
                  (foldl (λ cov m, setAdd m cov) covered members))
        as (chosen & -> & Hsub).
      exists (prefix :: chosen). split; [by rewrite <- app_assoc |].
      by apply sublist_skip.
    + destruct (IH selected covered) as (chosen & -> & Hsub).
      exists chosen. split; [done |]. by apply sublist_cons.
Qed.

Lemma computeMergePrefixes_norms localeCompare rawNames minPrefixLen minMembers :
  ∃ selected,
    norm <$> computeMergePrefixes localeCompare rawNames minPrefixLen minMembers
    = selected
    ∧ NoDup selected
    ∧ ∀ n, n ∈ selected →
        ∃ members,
          (n, members)
          ∈ (prefixMembersOf localeCompare minPrefixLen rawNames).2
          ∧ members ≠ [].
Proof.
  unfold computeMergePrefixes.
  destruct (length rawNames <? minMembers).
  { exists []. split; [done |]. split; [constructor |]. by intros ? ?%elem_of_nil. }
  destruct (pairOuter_keys minPrefixLen
              (prefixMembersOf localeCompare minPrefixLen rawNames).1 [])
    as [Hnd Hne]; [split; constructor |].
  change (pairOuter minPrefixLen
            (prefixMembersOf localeCompare minPrefixLen rawNames).1 [])
    with (prefixMembersOf localeCompare minPrefixLen rawNames).2 in Hnd, Hne.
  destruct (prefixMembersOf localeCompare minPrefixLen rawNames)
    as [items pm]. simpl in Hnd, Hne. simpl.
  set (candidates := sortBy candidateOrder (filter _ pm)).
  destruct (selectPrefixes_sublist minMembers candidates [] [])
    as (chosen & -> & Hsub). simpl.
  exists chosen. split.
  { rewrite <- list_fmap_compose. simpl. apply list_fmap_id. }
  assert (candidates.*1 ≡ₚ (filter (λ e, minMembers ≤ length e.2) pm).*1) as Hperm.
  { subst candidates. by rewrite sortBy_perm. }
  split.
  - apply (sublist_NoDup _ candidates.*1); [| done].
    rewrite Hperm. apply (sublist_NoDup _ pm.*1); [done |].
    apply fmap_sublist, sublist_filter.
  - intros n Hn.
    assert (n ∈ candidates.*1) as Hc by (by apply (elem_of_sublist chosen)).
    rewrite Hperm in Hc. apply list_elem_of_fmap in Hc as ([n' ms] & -> & Hin).
    apply list_elem_of_filter in Hin as [_ Hin]. simpl.
    exists ms. split; [done |].
    by apply (proj1 (Forall_forall _ _) Hne) in Hin.
Qed.

(** X8.  No two clusters selected by [computeMergePrefixes] have the same
    normalized prefix. *)
Theorem computeMergePrefixes_distinct localeCompare rawNames minPrefixLen
    minMembers :
  NoDup (norm <$> computeMergePrefixes localeCompare rawNames minPrefixLen
                    minMembers).
Proof.
  destruct (computeMergePrefixes_norms localeCompare rawNames minPrefixLen
              minMembers) as (selected & -> & Hnd & _). done.
Qed.

Lemma filter_all {A} (P : A → Prop) `{∀ x, Decision (P x)} (l : list A) :
  Forall P l → filter P l = l.
Proof.
  induction 1 as [|x l Hx _ IH]; [done |].
  by rewrite filter_cons_True, IH.
Qed.

Lemma prefix_startsWithAt pat s :
  pat `prefix_of` s → startsWithAt pat s 0 = true.
Proof.
  intros [k ->]. unfold startsWithAt. apply bool_decide_eq_true_2.
  by rewrite drop_0, take_app_length.
Qed.

Lemma normalizeForMerge_WAWeb n : normalizeForMerge (WAWeb ++ n) = n.
Proof.
  unfold normalizeForMerge.
  rewrite prefix_startsWithAt by (by exists n). by rewrite drop_app_length.
Qed.

Lemma normalizeForMerge_other n :
  startsWithAt WAWeb n 0 = false → normalizeForMerge n = n.
Proof. unfold normalizeForMerge. by intros ->. Qed.

Lemma normalizeForMerge_branded r :
  startsWithAt WAWeb (normalizeForMerge r) 0 = true →
  startsWithAt WAWeb r 0 = true.
Proof.
  destruct (startsWithAt WAWeb r 0) eqn:Hr; [done |].
  rewrite normalizeForMerge_other by done. by rewrite Hr.
Qed.

Lemma prefixMembersOf_items localeCompare minPrefixLen rawNames x :
  x ∈ (prefixMembersOf localeCompare minPrefixLen rawNames).1 ↔
  raw x ∈ rawNames ∧ norm x = normalizeForMerge (raw x)
  ∧ minPrefixLen ≤ length (norm x).
Proof.
  unfold prefixMembersOf. simpl. rewrite sortBy_perm, list_elem_of_filter.
  rewrite list_elem_of_fmap. split.
  - intros (Hlen & r & -> & Hr). done.
  - intros (Hr & Hn & Hlen). split; [done |]. exists (raw x).
    split; [| done]. destruct x as [r n]. simpl in *. by subst n.
Qed.

Lemma computeMergePrefixes_entry localeCompare rawNames minPrefixLen
    minMembers p :
  p ∈ computeMergePrefixes localeCompare rawNames minPrefixLen minMembers →
  let items := (prefixMembersOf localeCompare minPrefixLen rawNames).1 in
  let matching := filter (λ i, startsWithAt (norm p) (norm i) 0 = true) items in
  let withWAWeb :=
    length (filter (λ i, startsWithAt WAWeb (raw i) 0 = true) matching) in
  raw p = if length matching <? 2 * withWAWeb then WAWeb ++ norm p else norm p.
Proof.
  unfold computeMergePrefixes.
  destruct (length rawNames <? minMembers); [by intros ?%elem_of_nil |].
  destruct (prefixMembersOf localeCompare minPrefixLen rawNames)
    as [items pm]. simpl.
  by intros (n & -> & _)%list_elem_of_fmap.
Qed.

Lemma computeMergePrefixes_normalized localeCompare rawNames minPrefixLen
    minMembers p :
  p ∈ computeMergePrefixes localeCompare rawNames minPrefixLen minMembers →
  normalizeForMerge (raw p) = norm p.
Proof.
  intros Hp. pose proof (computeMergePrefixes_entry _ _ _ _ _ Hp) as Hraw.
  cbv zeta in Hraw.
  destruct (startsWithAt WAWeb (norm p) 0) eqn:Hbrand.
  2:{ rewrite Hraw. destruct (_ <? _); [apply normalizeForMerge_WAWeb |].
      by apply normalizeForMerge_other. }
  destruct (computeMergePrefixes_norms localeCompare rawNames minPrefixLen
              minMembers) as (selected & Hsel & _ & Hmem).
  destruct (Hmem (norm p)) as (members & Hin & Hne).
  { rewrite <- Hsel. apply list_elem_of_fmap. by exists p. }
  pose proof (prefixMembersOf_ok localeCompare minPrefixLen rawNames) as Hok.
  apply (proj1 (Forall_forall _ _) Hok) in Hin as (Hlen & _ & Hms).
  simpl in Hlen, Hms. destruct members as [|m members]; [done |].
  apply Forall_cons in Hms as [[Hm Hpre] _].
  set (items := (prefixMembersOf localeCompare minPrefixLen rawNames).1) in *.
  set (matching := filter (λ i, startsWithAt (norm p) (norm i) 0 = true) items)
    in *.
  assert (mkNamed m (normalizeForMerge m) ∈ matching) as Hx.
  { apply list_elem_of_filter. split; [by apply prefix_startsWithAt |].
    apply prefixMembersOf_items. simpl. split; [done |]. split; [done |].
    apply prefix_length in Hpre. lia. }
  assert (filter (λ i, startsWithAt WAWeb (raw i) 0 = true) matching = matching)
    as Hall.
  { apply filter_all. apply Forall_forall. intros i Hi.
    apply list_elem_of_filter in Hi as [Hi Hitem].
    apply prefixMembersOf_items in Hitem as (_ & Hnorm & _).
    apply normalizeForMerge_branded. rewrite <- Hnorm.
    apply prefix_startsWithAt. etrans; by apply startsWithAt_prefix. }
  rewrite Hall in Hraw. destruct matching as [|i matching']; [by apply elem_of_nil in Hx |].
  rewrite Hraw. destruct (Nat.ltb_spec (length (i :: matching'))
                            (2 * length (i :: matching'))) as [_|Hge];
    [apply normalizeForMerge_WAWeb | simpl in Hge; lia].
Qed.

Lemma renormalize_id (ps : list Named) :
  Forall (λ p, normalizeForMerge (raw p) = norm p) ps →
  (λ r, mkNamed r (normalizeForMerge r)) <$> (raw <$> ps) = ps.
Proof.
  induction 1 as [|[r n] ps Hp _ IH]; [done |]. csimpl. simpl in Hp.
  by rewrite Hp, IH.
Qed.

(** X9.  The clusters survive the trip through their raw names, the form
    in which they are handed to the export of each bundle: normalizing the
    raw name of a selected cluster gives back its normalized prefix, so a
    non-empty list of raw names rebuilds the clusters it came from. *)
Theorem mergePrefixes_roundtrip localeCompare rawNames minPrefixLen minMembers :
  let prefixes :=
    computeMergePrefixes localeCompare rawNames minPrefixLen minMembers in
  (∀ p, p ∈ prefixes → normalizeForMerge (raw p) = norm p)
  ∧ (prefixes ≠ [] →
     ∀ calls, mergePrefixesFor localeCompare true (Some (raw <$> prefixes)) calls
              = prefixes).
Proof.
  intros prefixes. split; [apply computeMergePrefixes_normalized |].
  intros Hne calls. unfold mergePrefixesFor.
  assert ((λ r, mkNamed r (normalizeForMerge r)) <$> (raw <$> prefixes)
          = prefixes) as Hrt
    by (apply renormalize_id, Forall_forall, computeMergePrefixes_normalized).
  destruct prefixes as [|p ps]; [done |]. exact Hrt.
Qed.

Lemma mergePrefixes_roundtrip_witness :
  let names := [lit "WAWebFooBar"; lit "WAWebFooBaz"; lit "Unrelated"] in
  mergePrefixesFor codeUnitCompare true
    (Some (raw <$> computeMergePrefixes codeUnitCompare names 3 2)) []
  = computeMergePrefixes codeUnitCompare names 3 2.
Proof.
  intros names.
  destruct (mergePrefixes_roundtrip codeUnitCompare names 3 2) as [_ Hrt].
  apply Hrt. vm_compute. discriminate.
Defined.

Lemma pickBest_snoc matches prefixes p :
  pickBest matches (prefixes ++ [p])
  = if matches p then
      match pickBest matches prefixes with
      | None => Some p
      | Some b => if length (norm b) <? length (norm p) then Some p else Some b
      end
    else pickBest matches prefixes.
Proof.
  unfold pickBest. rewrite foldl_snoc.
  destruct (matches p); [| done]. by destruct (foldl _ _ _).
Qed.

(** The loop keeps a longest matching prefix, and nothing when none
    matches. *)
Lemma pickBest_longest matches prefixes :
  match pickBest matches prefixes with
  | Some b =>
      b ∈ prefixes ∧ matches b = true
      ∧ ∀ p, p ∈ prefixes → matches p = true →
             length (norm p) ≤ length (norm b)
  | None => ∀ p, p ∈ prefixes → matches p = false
  end.
Proof.
  induction prefixes as [|p prefixes IH] using rev_ind.
  - simpl. by intros p ?%elem_of_nil.
  - rewrite pickBest_snoc. destruct (matches p) eqn:Hp.
    + destruct (pickBest matches prefixes) as [b|].
      * destruct IH as (Hb & Hmb & Hmax).
        destruct (Nat.ltb_spec (length (norm b)) (length (norm p))).
        -- split; [apply elem_of_app; right; by left |]. split; [done |].
           intros q [Hq|Hq%list_elem_of_singleton]%elem_of_app Hmq;
             [specialize (Hmax q Hq Hmq); lia | by subst].
        -- split; [apply elem_of_app; by left |]. split; [done |].
           intros q [Hq|Hq%list_elem_of_singleton]%elem_of_app Hmq;
             [by apply Hmax | by subst].
      * split; [apply elem_of_app; right; by left |]. split; [done |].
        intros q [Hq|Hq%list_elem_of_singleton]%elem_of_app Hmq;
          [by rewrite (IH q Hq) in Hmq | by subst].
    + destruct (pickBest matches prefixes) as [b|].
      * destruct IH as (Hb & Hmb & Hmax).
        split; [apply elem_of_app; by left |]. split; [done |].
        intros q [Hq|Hq%list_elem_of_singleton]%elem_of_app Hmq;
          [by apply Hmax | subst; congruence].
      * intros q [Hq|Hq%list_elem_of_singleton]%elem_of_app;
          [by apply IH | by subst].
Qed.

Lemma startsWithAt_prefix_iff pat s :
  startsWithAt pat s 0 = true ↔ pat `prefix_of` s.
Proof. split; [apply startsWithAt_prefix | apply prefix_startsWithAt]. Qed.

(** X10.  [pickMergeDir] puts a name that is placed by its full normalized
    name in a cluster whose prefix is a longest one among the clusters that
    start the name, and leaves a name ungrouped only when no cluster starts
    it. *)
Theorem pickMergePrefix_longest rawName prefixes :
  match pickMergePrefix rawName prefixes with
  | Some (b, false) =>
      b ∈ prefixes ∧ norm b `prefix_of` normalizeForMerge rawName
      ∧ ∀ p, p ∈ prefixes → norm p `prefix_of` normalizeForMerge rawName →
             length (norm p) ≤ length (norm b)
  | Some (b, true) => b ∈ prefixes
  | None =>
      ∀ p, p ∈ prefixes → ¬ norm p `prefix_of` normalizeForMerge rawName
  end.
Proof.
  unfold pickMergePrefix.
  set (bySuffix := if 1 <? _ then _ else None).
  assert (∀ b, bySuffix = Some b → b ∈ prefixes) as Hsuf.
  { subst bySuffix. intros b. destruct (1 <? _); [| done].
    intros H. by apply pickBest_spec in H as [? _]. }
  destruct bySuffix as [b|]; [by apply Hsuf |].
  pose proof (pickBest_longest
                (λ p, startsWithAt (norm p) (normalizeForMerge rawName) 0)
                prefixes) as Hbest.
  destruct (pickBest _ prefixes) as [b|].
  - destruct Hbest as (Hb & Hm & Hmax). split; [done |].
    split; [by apply startsWithAt_prefix |].
    intros p Hp Hpre. apply Hmax; [done |]. by apply prefix_startsWithAt.
  - intros p Hp Hpre. specialize (Hbest p Hp). simpl in Hbest.
    by rewrite prefix_startsWithAt in Hbest.
Qed.

Lemma pickMergePrefix_longest_witness :
  let prefixes := [mkNamed (lit "Foo") (lit "Foo");
                   mkNamed (lit "FooBa") (lit "FooBa")] in
  pickMergePrefix (lit "WAWebFooBar") prefixes
  = Some (mkNamed (lit "FooBa") (lit "FooBa"), false)
  ∧ length (lit "Foo") ≤ length (lit "FooBa").
Proof.
  intros prefixes.
  assert (pickMergePrefix (lit "WAWebFooBar") prefixes
          = Some (mkNamed (lit "FooBa") (lit "FooBa"), false)) as Hpick
    by (vm_compute; reflexivity).
  split; [exact Hpick |].
  pose proof (pickMergePrefix_longest (lit "WAWebFooBar") prefixes) as H.
  rewrite Hpick in H. destruct H as (_ & _ & Hmax).
  apply (Hmax (mkNamed (lit "Foo") (lit "Foo"))).
  - left.
  - by exists (lit "Bar").
Defined.

(** ** The exported files *)

Section ExportSteps.
Variable localeCompare : jsstring → jsstring → Z.
Variable sha1hex : jsstring → jsstring.
Variable minify : jsstring → option jsstring.
Variable sep : jsstring.

Lemma exportStep_out toIa_ merge_ prefixes st dCall :
  ∃ f, out (exportStep sha1hex minify sep toIa_ merge_ prefixes st dCall)
       = out st ++ [f]
       ∧ content f = maybeToIA minify dCall toIa_
       ∧ lit ".js" `suffix_of` fileName f.
Proof.
  unfold exportStep.
  destruct (match usedNames st with Some _ => _ | None => _ end)
    as [used' safeBase].
  eexists. split; [reflexivity |]. split; [reflexivity |]. simpl.
  destruct (merge_ && _); [| by eexists].
  destruct (pickMergeDir _ _ _) as [[|c dir]|]; try by eexists.
  exists ((c :: dir) ++ sep ++ safeBase). by rewrite <- !app_assoc.
Qed.

Lemma exportSteps_out toIa_ merge_ prefixes calls st :
  ∃ files,
    out (foldl (exportStep sha1hex minify sep toIa_ merge_ prefixes) st calls)
    = out st ++ files
    ∧ content <$> files = (λ c, maybeToIA minify c toIa_) <$> calls
    ∧ Forall (λ f, lit ".js" `suffix_of` fileName f) files.
Proof.
  revert st. induction calls as [|c calls IH]; intros st; simpl.
  - exists []. by rewrite app_nil_r.
  - destruct (IH (exportStep sha1hex minify sep toIa_ merge_ prefixes st c))
      as (files & -> & Hc & Hjs).
    destruct (exportStep_out toIa_ merge_ prefixes st c) as (f & -> & Hf & Hs).
    exists (f :: files). rewrite <- app_assoc. split; [done |].
    csimpl. rewrite Hc, Hf. split; [done | by constructor].
Qed.

(** X11.  [buildExportFiles] returns one file per extracted call, in the
    order of the calls, each under a path that ends in [.js]; its content is
    the call after [maybeToIA], hence the text of the call itself when
    [toIa] is not set. *)
Theorem buildExportFiles_lossless bundle opts :
  ∃ calls files,
    extractDCalls bundle = Some calls
    ∧ buildExportFiles localeCompare sha1hex minify sep bundle opts = Some files
    ∧ content <$> files
      = (λ c, maybeToIA minify c (bool_decide (toIa opts = Some true)))
        <$> calls
    ∧ (toIa opts ≠ Some true → content <$> files = calls)
    ∧ Forall (λ f, lit ".js" `suffix_of` fileName f) files.
Proof.
  destruct (extractDCalls_ordered_spans bundle) as (spans & Hex).
  unfold buildExportFiles. rewrite Hex. simpl.
  destruct ((λ sp, slice bundle sp.1 sp.2) <$> spans) as [|c calls] eqn:Hc.
  { exists [], []. repeat split; done. }
  exists (c :: calls).
  destruct (exportSteps_out (bool_decide (toIa opts = Some true))
              (bool_decide (mergeCommonNames opts = Some true))
              (mergePrefixesFor localeCompare
                 (bool_decide (mergeCommonNames opts = Some true))
                 (mergeCommonPrefixes opts) (c :: calls))
              (c :: calls)
              (mkNaming 0 (if negb (bool_decide (disambiguate opts = Some false))
                           then Some ∅ else None) []))
    as (files & Hout & Hcont & Hjs).
  exists files. split; [done |]. split; [by rewrite Hout |].
  split; [done |]. split; [| done].
  intros Hoff. rewrite Hcont, bool_decide_eq_false_2 by done.
  unfold maybeToIA. apply list_fmap_id.
Qed.

End ExportSteps.

Lemma buildExportFiles_lossless_witness :
  ∃ files,
    buildExportFiles codeUnitCompare noDigest noMinify posixSep
      (lit "x;__d('A',1); __d(f);") noOpts = Some files
    ∧ content <$> files = [lit "__d('A',1);"; lit "__d(f);"].
Proof.
  destruct (buildExportFiles_lossless codeUnitCompare noDigest noMinify posixSep
              (lit "x;__d('A',1); __d(f);") noOpts)
    as (calls & files & Hex & Hb & _ & Hc & _).
  exists files. split; [exact Hb |].
  rewrite (Hc ltac:(discriminate)).
  assert (extractDCalls (lit "x;__d('A',1); __d(f);")
          = Some [lit "__d('A',1);"; lit "__d(f);"]) as Hcalls
    by (vm_compute; reflexivity).
  rewrite Hcalls in Hex. by injection Hex as <-.
Defined.

Lemma lit_inj s1 s2 : lit s1 = lit s2 → s1 = s2.
Proof.
  unfold lit. intros H.
  rewrite <- (string_of_list_ascii_of_string s1),
          <- (string_of_list_ascii_of_string s2). f_equal.
  revert H. generalize (list_ascii_of_string s1) (list_ascii_of_string s2).
  induction l as [|a l IH]; intros [|b l']; simpl; try done.
  intros [= Hab Hl]. f_equal; [| by apply IH].
  unfold chr in Hab.
  by rewrite <- (ascii_N_embedding a), <- (ascii_N_embedding b), Hab.
Qed.

Lemma to_uint_nonnil n : Nat.to_uint n ≠ Decimal.Nil.
Proof.
  intros H. pose proof (DecimalNat.Unsigned.to_of (Nat.to_uint n)) as Hto.
  rewrite DecimalNat.Unsigned.of_to, H in Hto. discriminate Hto.
Qed.

Lemma decimal_inj n m : decimal n = decimal m → n = m.
Proof.
  unfold decimal. intros H%lit_inj.
  apply DecimalNat.Unsigned.to_uint_inj.
  pose proof (NilZero.usu _ (to_uint_nonnil n)) as Hn.
  pose proof (NilZero.usu _ (to_uint_nonnil m)) as Hm.
  rewrite H, Hm in Hn. by injection Hn.
Qed.

Lemma disambiguated_lookup earlier bases i b :
  bases !! i = Some b →
  disambiguated earlier bases !! i
  = Some (let seen := length (filter (λ x, x = b) (earlier ++ take i bases)) in
          if seen =? 0 then b else b ++ lit "_" ++ decimal (seen + 1)).
Proof.
  revert earlier i. induction bases as [|c bases IH]; intros earlier i; [done |].
  destruct i as [|i]; simpl.
  - intros [= ->]. by rewrite app_nil_r.
  - intros Hb. rewrite (IH _ _ Hb). by rewrite <- app_assoc.
Qed.

Lemma disambiguated_distinct bases i j b ni nj :
  i < j → bases !! i = Some b → bases !! j = Some b →
  disambiguated [] bases !! i = Some ni →
  disambiguated [] bases !! j = Some nj →
  ni ≠ nj.
Proof.
  intros Hij Hi Hj. rewrite (disambiguated_lookup _ _ _ _ Hi),
    (disambiguated_lookup _ _ _ _ Hj). simpl.
  set (si := length (filter (λ x, x = b) (take i bases))).
  set (sj := length (filter (λ x, x = b) (take j bases))).
  assert (si < sj) as Hlt.
  { subst si sj. replace j with (i + (j - i)) by lia.
    rewrite <- take_take_drop, filter_app, length_app.
    destruct (j - i) as [|d] eqn:Hd; [lia |].
    rewrite (drop_S _ _ _ Hi). simpl. rewrite filter_cons_True by done.
    simpl. lia. }
  intros [= <-] [= <-].
  destruct (Nat.eqb_spec sj 0) as [|_]; [lia |].
  destruct (Nat.eqb_spec si 0) as [_|_].
  - intros H%(f_equal length). rewrite length_app in H. simpl in H. lia.
  - intros H%app_inv_head. injection H as H. apply decimal_inj in H. lia.
Qed.

(** X12.  With disambiguation on and no grouping, two modules with the
    same base name never get the same path. *)
Theorem same_base_distinct_paths localeCompare sha1hex minify sep bundle opts :
  disambiguate opts ≠ Some false → mergeCommonNames opts ≠ Some true →
  ∃ calls files,
    extractDCalls bundle = Some calls
    ∧ buildExportFiles localeCompare sha1hex minify sep bundle opts = Some files
    ∧ ∀ i j b fi fj,
        i < j →
        baseNames 0 calls !! i = Some b → baseNames 0 calls !! j = Some b →
        files !! i = Some fi → files !! j = Some fj →
        fileName fi ≠ fileName fj.
Proof.
  intros Hd Hm.
  destruct (buildExportFiles_names localeCompare sha1hex minify sep bundle opts
              Hd Hm) as (calls & Hex & Hnames).
  destruct (buildExportFiles localeCompare sha1hex minify sep bundle opts)
    as [files|] eqn:Hb; [| done].
  exists calls, files. split; [done |]. split; [done |].
  injection Hnames as Hnames.
  intros i j b fi fj Hij Hbi Hbj Hfi Hfj Heq.
  assert (∀ k f, files !! k = Some f →
                 ∃ n, disambiguated [] (baseNames 0 calls) !! k = Some n
                      ∧ fileName f = n ++ lit ".js") as Hk.
  { intros k f Hf.
    assert ((fileName <$> files) !! k = Some (fileName f)) as Hl
      by (by rewrite list_lookup_fmap, Hf).
    rewrite Hnames, list_lookup_fmap in Hl.
    destruct (disambiguated [] (baseNames 0 calls) !! k) as [n|]; [| done].
    exists n. split; [done |]. by injection Hl. }
  destruct (Hk i fi Hfi) as (ni & Hni & Ei).
  destruct (Hk j fj Hfj) as (nj & Hnj & Ej).
  rewrite Ei, Ej in Heq. apply app_inv_tail in Heq.
  by apply (disambiguated_distinct _ _ _ _ _ _ Hij Hbi Hbj Hni Hnj).
Qed.

Lemma same_base_distinct_paths_witness :
  ∃ f1 f2,
    buildExportFiles codeUnitCompare noDigest noMinify posixSep
      (lit "__d('A',1);__d('B',2);__d('A',3);") noOpts
    = Some [f1; mkExportFile (lit "B.js") (lit "__d('B',2);"); f2]
    ∧ fileName f1 ≠ fileName f2.
Proof.
  destruct (same_base_distinct_paths codeUnitCompare noDigest noMinify posixSep
              (lit "__d('A',1);__d('B',2);__d('A',3);") noOpts
              ltac:(discriminate) ltac:(discriminate))
    as (calls & files & Hex & Hb & Hdist).
  assert (extractDCalls (lit "__d('A',1);__d('B',2);__d('A',3);")
          = Some [lit "__d('A',1);"; lit "__d('B',2);"; lit "__d('A',3);"])
    as Hcalls by (vm_compute; reflexivity).
  rewrite Hcalls in Hex. injection Hex as <-.
  assert (buildExportFiles codeUnitCompare noDigest noMinify posixSep
            (lit "__d('A',1);__d('B',2);__d('A',3);") noOpts
          = Some [mkExportFile (lit "A.js") (lit "__d('A',1);");
                  mkExportFile (lit "B.js") (lit "__d('B',2);");
                  mkExportFile (lit "A_2.js") (lit "__d('A',3);")]) as Hfiles
    by (vm_compute; reflexivity).
  rewrite Hfiles in Hb. injection Hb as <-.
  eexists _, _. split; [exact Hfiles |].
  apply (Hdist 0 2 (lit "A")); [lia | reflexivity..].
Defined.

Lemma breakAfter_filter c ahead s :
  filter (λ x, x ≠ chr "010") (breakAfter c ahead s)
  = filter (λ x, x ≠ chr "010") s.
Proof.
  induction s as [|x s IH]; [done |]. cbn [breakAfter].
  destruct (N.eqb x c && _).
  - destruct (decide (x ≠ chr "010")).
    + rewrite (filter_cons_True _ x) by done.
      rewrite (filter_cons_False _ (chr "010")) by (intros H; by apply H).
      rewrite (filter_cons_True _ x) by done. by rewrite IH.
    + rewrite (filter_cons_False _ x) by done.
      rewrite (filter_cons_False _ (chr "010")) by (intros H; by apply H).
      rewrite (filter_cons_False _ x) by done. by rewrite IH.
  - destruct (decide (x ≠ chr "010")).
    + rewrite 2!(filter_cons_True _ x) by done. by rewrite IH.
    + rewrite 2!(filter_cons_False _ x) by done. by rewrite IH.
Qed.

Lemma breakAfter_length c ahead s : length s ≤ length (breakAfter c ahead s).
Proof.
  induction s as [|x s IH]; [done |]. cbn [breakAfter].
  destruct (N.eqb x c && _); simpl; lia.
Qed.

(** X13.  [formatForIA] only adds line breaks: without the line breaks its
    result is its argument without them.  So when the minifier throws, the
    content written is the call itself up to line breaks. *)
Theorem formatForIA_only_breaks (minify : jsstring → option jsstring) code_ :
  filter (λ x, x ≠ chr "010") (formatForIA code_)
  = filter (λ x, x ≠ chr "010") code_
  ∧ length code_ ≤ length (formatForIA code_)
  ∧ (minify code_ = None →
     filter (λ x, x ≠ chr "010") (maybeToIA minify code_ true)
     = filter (λ x, x ≠ chr "010") code_).
Proof.
  assert (filter (λ x, x ≠ chr "010") (formatForIA code_)
          = filter (λ x, x ≠ chr "010") code_) as Hf
    by (unfold formatForIA; by rewrite !breakAfter_filter).
  split; [done |]. split.
  - unfold formatForIA.
    etrans; [| apply breakAfter_length].
    etrans; [| apply breakAfter_length]. apply breakAfter_length.
  - intros Hnone. unfold maybeToIA. by rewrite Hnone.
Qed.

Lemma formatForIA_only_breaks_witness :
  maybeToIA noMinify (lit "__d('A',function(){a;b});") true
  = lit "__d('A',function(){" ++ [chr "010"] ++ lit "a;" ++ [chr "010"]
    ++ lit "b});"
  ∧ filter (λ x, x ≠ chr "010")
      (maybeToIA noMinify (lit "__d('A',function(){a;b});") true)
    = filter (λ x, x ≠ chr "010") (lit "__d('A',function(){a;b});").
Proof.
  split; [vm_compute; reflexivity |].
  destruct (formatForIA_only_breaks noMinify (lit "__d('A',function(){a;b});"))
    as (_ & _ & H).
  apply H. reflexivity.
Defined.

(** ** More on the bounded concurrency runner *)

Section RunnerMore.
Context {T : Type}.
Implicit Types (items : list T) (st : Run T).

(** While the call has not returned, some runner has not returned. *)
Lemma reachable_unsettled items limit st :
  reachable items limit st →
  settled st = None → forallb isReturned (runners st) = false.
Proof.
  intros [|st0 k ok st' _ Hstep].
  - unfold initRun. simpl. by destruct (forallb isReturned _).
  - unfold stepRun in Hstep.
    destruct (runners st0 !! k) as [[idx| |idx]|]; try done.
    destruct ok.
    + destruct (loopTop items (nextIdx st0) (invoked st0)) as [[next inv] r].
      injection Hstep as <-. simpl. unfold joinAll.
      destruct (settled st0); [done |]. by destruct (forallb isReturned _).
    + injection Hstep as <-. simpl. unfold joinAll. by destruct (settled st0).
Qed.

Lemma quiet_all_Returned (rs : list Runner) :
  omap (λ r, match r with Awaiting idx => Some idx | _ => None end) rs = [] →
  omap (λ r, match r with Rejected idx => Some idx | _ => None end) rs = [] →
  forallb isReturned rs = true.
Proof.
  induction rs as [|r rs IH]; [done |].
  destruct r; csimpl; try done; intros; by apply IH.
Qed.

Lemma unquiet_Awaiting (rs : list Runner) :
  omap (λ r, match r with Rejected idx => Some idx | _ => None end) rs = [] →
  forallb isReturned rs = false →
  ∃ k idx, rs !! k = Some (Awaiting idx).
Proof.
  induction rs as [|r rs IH]; [done |]. destruct r as [idx| |idx]; csimpl.
  - intros _ _. by exists 0, idx.
  - intros Hf Hr. destruct (IH Hf Hr) as (k & idx & Hk). by exists (S k), idx.
  - done.
Qed.

(** X14.  In every state of a run the invocations made are those for the
    indices [0], [1], ... in that order, without a gap; while the call has
    not returned some invocation is in flight; and once every item has
    completed without a failure, the call has returned successfully. *)
Theorem runWithConcurrency_progress items limit st :
  reachable items limit st →
  (invoked st).*2 = seq 0 (length (invoked st))
  ∧ (settled st = None → ∃ k idx, runners st !! k = Some (Awaiting idx))
  ∧ (failedIdx st = [] → length (completed st) = length items →
     settled st = Some Fulfilled).
Proof.
  intros Hreach.
  destruct (reachable_inv _ _ _ Hreach) as [(Ha & Hb & Hd & He & Hf) Hlen].
  pose proof (reachable_unsettled _ _ _ Hreach) as Hun.
  split; [| split].
  - rewrite Ha at 1. f_equal.
    rewrite <- (length_fmap snd (invoked st)), Ha. by rewrite length_seq.
  - intros Hs. rewrite Hs in Hf. apply unquiet_Awaiting; [done | by apply Hun].
  - intros Hnf Hall.
    assert (inFlight st = []) as Hq.
    { apply (f_equal length) in Ha. apply Permutation_length in Hd.
      rewrite length_seq in Ha. rewrite !length_app, Hnf in Hd. simpl in Hd.
      destruct (inFlight st); [done |]. simpl in Hd. lia. }
    pose proof (quiet_all_Returned _ Hq Hnf) as Hret.
    destruct (settled st) as [[|idx]|] eqn:Hs; [done | |].
    + rewrite Hnf in Hf. by apply elem_of_nil in Hf.
    + rewrite (Hun eq_refl) in Hret. done.
Qed.

(** X15.  The number of runners is the limit rounded down, but at least 1
    and at most the number of items; a limit of 1 or less, zero and
    negative limits included, runs as limit 1. *)
Theorem runWithConcurrency_runners items (limit : Q) :
  length (runners (initRun items limit))
  = Nat.min (Z.to_nat (Z.max 1 (Qfloor limit))) (length items)
  ∧ ((limit <= 1)%Q → initRun items limit = initRun items 1%Q).
Proof.
  split; [apply initRun_inv |].
  intros Hle. unfold initRun.
  assert (concurrencyOf limit = concurrencyOf 1%Q) as ->; [| done].
  unfold concurrencyOf. f_equal.
  assert (Qfloor limit ≤ Qfloor 1)%Z by (by apply Qfloor_resp_le).
  change (Qfloor 1) with 1%Z in *. lia.
Qed.

End RunnerMore.

Lemma runWithConcurrency_progress_witness :
  let items := [10; 20; 30] in
  let st := mkRun 3 [Awaiting 2; Awaiting 1] [(10, 0); (20, 1); (30, 2)] [0]
              None in
  reachable items 2%Q st
  ∧ ∃ k idx, runners st !! k = Some (Awaiting idx).
Proof.
  intros items st.
  assert (reachable items 2%Q st) as Hreach.
  { apply (reach_step items 2%Q (initRun items 2%Q) 0 true); [| reflexivity].
    apply reach_init. }
  split; [exact Hreach |].
  destruct (runWithConcurrency_progress items 2%Q st Hreach) as (_ & Hlive & _).
  exact (Hlive eq_refl).
Defined.

Lemma runWithConcurrency_runners_witness :
  initRun [10; 20] (-3)%Q = initRun [10; 20] 1%Q
  ∧ runners (initRun [10; 20] (-3)%Q) = [Awaiting 0].
Proof.
  destruct (runWithConcurrency_runners [10; 20] (-3)%Q) as [_ H].
  split; [apply H; done |]. vm_compute. reflexivity.
Defined.

(** ** More on the worker pool *)

Lemma processAll_snoc outDirs outDir p :
  processAll (outDirs ++ [outDir]) p = (process outDir (processAll outDirs p)).2.
Proof. unfold processAll. by rewrite foldl_snoc. Qed.

(** X16.  Requests are handed to the workers in turn: the request number
    [i] (from 0) of a new pool gets the id [i + 1], goes to worker
    [i mod count] and is pending under that id with its own directory. *)
Theorem process_round_robin (count_ : nat) (outDirs : list jsstring) :
  0 < count_ →
  let p := processAll outDirs (newPool count_) in
  posted p = imap (λ i _, (i `mod` count_, S i)) outDirs
  ∧ nextTaskId p = S (length outDirs)
  ∧ (∀ i, tasks p !! S i = outDirs !! i)
  ∧ tasks p !! 0 = None.
Proof.
  intros Hpos. simpl.
  assert (let p := processAll outDirs (newPool count_) in
          workers p = count_
          ∧ nextWorkerIdx p = length outDirs `mod` count_
          ∧ posted p = imap (λ i _, (i `mod` count_, S i)) outDirs
          ∧ nextTaskId p = S (length outDirs)
          ∧ (∀ i, tasks p !! S i = outDirs !! i)
          ∧ tasks p !! 0 = None) as H.
  { induction outDirs as [|d outDirs IH] using rev_ind.
    - simpl. rewrite Nat.Div0.mod_0_l. repeat split; done.
    - rewrite processAll_snoc. simpl in IH.
      destruct IH as (Hw & Hn & Hp & Hid & Ht & H0).
      simpl. rewrite Hw, Hn, Hp, Hid, length_app. simpl.
      split; [done |]. split.
      { rewrite Nat.Div0.add_mod_idemp_l. done. }
      split.
      { rewrite imap_app. simpl. by rewrite Nat.add_0_r. }
      split; [f_equal; lia |]. split.
      + intros i. destruct (decide (i = length outDirs)) as [->|Hne].
        * rewrite lookup_insert_eq. by rewrite list_lookup_middle.
        * rewrite lookup_insert_ne by lia. rewrite Ht.
          destruct (Nat.lt_ge_cases i (length outDirs)).
          -- by rewrite lookup_app_l.
          -- rewrite !lookup_ge_None_2; [done | | done].
             rewrite length_app. simpl. lia.
      + by rewrite lookup_insert_ne. }
  simpl in H. by destruct H as (_ & _ & ? & ? & ? & ?).
Qed.

Lemma process_round_robin_witness :
  let p := processAll [lit "a"; lit "b"; lit "c"] (newPool 2) in
  posted p = [(0, 1); (1, 2); (0, 3)] ∧ tasks p !! 3 = Some (lit "c").
Proof.
  intros p.
  destruct (process_round_robin 2 [lit "a"; lit "b"; lit "c"] ltac:(lia))
    as (Hp & _ & Ht & _).
  split; [exact Hp | exact (Ht 2)].
Defined.

Lemma settle_other id id' o outs :
  id' ≠ id → settle id o outs !! id' = outs !! id'.
Proof.
  intros Hne. unfold settle. destruct (outs !! id); [done |].
  by rewrite lookup_insert_ne.
Qed.

(** X17.  A message from a worker touches only the request it names: the
    other requests stay pending or settled as they were.  A message for a
    request that is not pending is ignored, a chunk or a [done] changes
    no request at once, and an [error] rejects its request. *)
Theorem onMessage_one_request (msg : WorkerMessage) (p : Pool) :
  let p' := (onMessage msg p).1 in
  (∀ id, id ≠ messageId msg →
         tasks p' !! id = tasks p !! id ∧ outcomes p' !! id = outcomes p !! id)
  ∧ (tasks p !! messageId msg = None → onMessage msg p = (p, Nothing))
  ∧ (∀ id message, msg = ErrorMsg id message →
       tasks p' !! id = None
       ∧ (is_Some (tasks p !! id) → outcomes p !! id = None →
          outcomes p' !! id = Some (RejectedWith message)))
  ∧ (∀ id, msg = Done id ∨ (∃ files, msg = Chunk id files) → p' = p).
Proof.
  unfold onMessage. split; [| split; [| split]].
  - intros id Hne. destruct (tasks p !! messageId msg); [| done].
    destruct msg as [i files|i|i message]; simpl in *; try done.
    split; [by rewrite lookup_delete_ne | by apply settle_other].
  - by intros ->.
  - intros id message ->. simpl.
    destruct (tasks p !! id) as [dir|] eqn:Hdir; simpl.
    + split; [apply lookup_delete_eq |]. intros _ Hnone.
      unfold settle. rewrite Hnone. apply lookup_insert_eq.
    + split; [done |]. by intros [? ?].
  - intros id [->|[files ->]]; simpl; by destruct (tasks p !! id).
Qed.

Lemma onMessage_one_request_witness :
  let p := processAll [lit "a"; lit "b"] (newPool 2) in
  let p' := (onMessage (ErrorMsg 1 (lit "boom")) p).1 in
  tasks p' !! 2 = Some (lit "b")
  ∧ outcomes p' !! 1 = Some (RejectedWith (lit "boom")).
Proof.
  intros p p'.
  destruct (onMessage_one_request (ErrorMsg 1 (lit "boom")) p)
    as (Hother & _ & Herr & _).
  split.
  - destruct (Hother 2 ltac:(simpl; lia)) as [Ht _].
    etrans; [exact Ht |]. vm_compute. reflexivity.
  - destruct (Herr 1 (lit "boom") eq_refl) as [_ Hrej].
    apply Hrej; [vm_compute; eauto | vm_compute; reflexivity].
Defined.

Lemma settle_lookup id o outs id' :
  settle id o outs !! id'
  = match outs !! id' with
    | Some o' => Some o'
    | None => if decide (id' = id) then Some o else None
    end.
Proof.
  unfold settle. destruct (decide (id' = id)) as [->|Hne].
  - destruct (outs !! id) eqn:Ho; [by rewrite Ho |].
    by rewrite lookup_insert_eq.
  - destruct (outs !! id) eqn:Ho.
    + by destruct (outs !! id').
    + rewrite lookup_insert_ne by done. by destruct (outs !! id').
Qed.

(** A pending request has an id that was given out and no outcome yet; a
    settled request has an id that was given out. *)
Lemma poolReachable_inv count_ p :
  poolReachable count_ p →
  (∀ id, is_Some (tasks p !! id) → outcomes p !! id = None ∧ id < nextTaskId p)
  ∧ (∀ id, is_Some (outcomes p !! id) → id < nextTaskId p).
Proof.
  induction 1 as [|p p' _ [IHt IHo] Hstep].
  - split; intros id [? H]; simpl in H; by rewrite lookup_empty in H.
  - destruct Hstep as [outDir p|msg p|id0 failure p Hid0|w e p].
    + simpl. split.
      * intros id [d Hd]. destruct (decide (nextTaskId p = id)) as [<-|Hne].
        -- split; [| lia].
           destruct (outcomes p !! nextTaskId p) eqn:Ho; [| done].
           specialize (IHo (nextTaskId p) ltac:(eauto)). lia.
        -- rewrite lookup_insert_ne in Hd by done.
           destruct (IHt id ltac:(eauto)). split; [done | lia].
      * intros id Hs. specialize (IHo id Hs). lia.
    + unfold onMessage. destruct (tasks p !! messageId msg) eqn:Hm; [| done].
      destruct msg as [i files|i|i message]; simpl in *; try done.
      split.
      * intros id [d Hd]. destruct (decide (id = i)) as [->|Hne].
        -- by rewrite lookup_delete_eq in Hd.
        -- rewrite lookup_delete_ne in Hd by done.
           rewrite settle_other by done. apply IHt. eauto.
      * intros id [o Ho]. rewrite settle_lookup in Ho.
        destruct (outcomes p !! id) eqn:Hoid; [apply IHo; eauto |].
        destruct (decide (id = i)) as [->|]; [| done]. apply IHt. eauto.
    + simpl. split.
      * intros id [d Hd]. destruct (decide (id = id0)) as [->|Hne].
        -- by rewrite lookup_delete_eq in Hd.
        -- rewrite lookup_delete_ne in Hd by done.
           rewrite settle_other by done. apply IHt. eauto.
      * intros id [o Ho]. rewrite settle_lookup in Ho.
        destruct (outcomes p !! id) eqn:Hoid; [apply IHo; eauto |].
        destruct (decide (id = id0)) as [->|]; [done | done].
    + simpl. split.
      * intros id [d Hd]. by rewrite lookup_empty in Hd.
      * intros id [o Ho]. apply lookup_union_Some_raw in Ho as [Ho|[_ Ho]].
        -- rewrite lookup_fmap in Ho.
           destruct (tasks p !! id) eqn:Ht; [| done]. apply IHt. eauto.
        -- apply IHo. eauto.
Qed.

(** X18.  In every state of a pool a pending request has no outcome yet,
    and a request that has been resolved or rejected keeps its outcome
    whatever happens next: a later message, write-chain callback or worker
    failure does not settle it again. *)
Theorem pool_settles_once (count_ : nat) (p p' : Pool) :
  poolReachable count_ p → poolStep p p' →
  (∀ id, is_Some (tasks p !! id) → outcomes p !! id = None)
  ∧ (∀ id o, outcomes p !! id = Some o → outcomes p' !! id = Some o).
Proof.
  intros Hreach Hstep.
  destruct (poolReachable_inv _ _ Hreach) as [IHt IHo].
  split; [intros id Hid; by apply IHt |].
  intros id o Ho.
  destruct Hstep as [outDir p|msg p|id0 failure p Hid0|w e p]; simpl.
  - done.
  - unfold onMessage. destruct (tasks p !! messageId msg); [| done].
    destruct msg; simpl; try done. by rewrite settle_lookup, Ho.
  - by rewrite settle_lookup, Ho.
  - apply lookup_union_Some_raw. right. split; [| done].
    rewrite lookup_fmap.
    destruct (tasks p !! id) eqn:Ht; [| done].
    destruct (IHt id ltac:(eauto)) as [Hnone _]. congruence.
Qed.

Lemma pool_settles_once_witness :
  let p := (onMessage (ErrorMsg 1 (lit "boom"))
              (processAll [lit "a"; lit "b"] (newPool 2))).1 in
  outcomes (workerErrorEvent 0 (lit "crash") p) !! 1
  = Some (RejectedWith (lit "boom")).
Proof.
  intros p.
  assert (poolReachable 2 p) as Hreach.
  { apply (pool_next 2 (processAll [lit "a"; lit "b"] (newPool 2)));
      [| apply pool_message].
    apply (pool_next 2 (processAll [lit "a"] (newPool 2)));
      [| apply (pool_process (lit "b"))].
    apply (pool_next 2 (newPool 2)); [| apply (pool_process (lit "a"))].
    apply pool_new. }
  destruct (pool_settles_once 2 p (workerErrorEvent 0 (lit "crash") p) Hreach
              (pool_error 0 (lit "crash") p)) as [_ Hkeep].
  apply Hkeep. vm_compute. reflexivity.
Defined.

(** ** The batches of a worker *)

Section Batches.
Variable encode : jsstring → list N.

Lemma batchFiles_spec id files batch full :
  Forall (λ c, length c = BATCH_SIZE) full → length batch < BATCH_SIZE →
  ∃ full' tail,
    batchFiles encode id files batch (Chunk id <$> full)
    = (tail, Chunk id <$> full')
    ∧ Forall (λ c, length c = BATCH_SIZE) full'
    ∧ length tail < BATCH_SIZE
    ∧ concat full' ++ tail
      = concat full ++ batch
        ++ ((λ f, (fileName f, encode (content f))) <$> files).
Proof.
  revert batch full. induction files as [|f files IH]; intros batch full Hfull Hb.
  - exists full, batch. simpl. by rewrite app_nil_r.
  - cbn [batchFiles].
    set (batch' := batch ++ [(fileName f, encode (content f))]).
    assert (length batch' = S (length batch)) as Hlen
      by (subst batch'; rewrite length_app; simpl; lia).
    destruct (Nat.leb_spec BATCH_SIZE (length batch')) as [Hge|Hlt].
    + assert (flush id batch' (Chunk id <$> full)
              = Chunk id <$> (full ++ [batch'])) as ->.
      { unfold flush. destruct batch' eqn:E; [simpl in Hlen; lia |].
        by rewrite fmap_app. }
      destruct (IH [] (full ++ [batch'])) as (full' & tail & -> & Hf & Ht & Hc).
      * apply Forall_app. split; [done |]. repeat constructor. lia.
      * unfold BATCH_SIZE. simpl. lia.
      * exists full', tail. repeat split; try done.
        rewrite Hc, concat_app. simpl. subst batch'.
        rewrite ?app_nil_r, <- ?app_assoc. done.
    + destruct (IH batch' full Hfull Hlt) as (full' & tail & -> & Hf & Ht & Hc).
      exists full', tail. repeat split; try done.
      rewrite Hc. subst batch'. by rewrite <- !app_assoc.
Qed.

(** The chunks posted for a list of files. *)
Lemma postFiles_batches (id : nat) (files : list ExportFile) :
  ∃ full tail,
    postFiles encode id files
    = (Chunk id <$> full)
      ++ match tail with [] => [] | _ :: _ => [Chunk id tail] end
      ++ [Done id]
    ∧ Forall (λ c, length c = 100) full
    ∧ length tail < 100
    ∧ concat full ++ tail = (λ f, (fileName f, encode (content f))) <$> files.
Proof.
  unfold postFiles.
  destruct (batchFiles_spec id files [] []) as (full & tail & Hb & Hf & Ht & Hc);
    [constructor | unfold BATCH_SIZE; simpl; lia |].
  simpl in Hb. rewrite Hb. exists full, tail.
  split; [| by split].
  unfold flush. destruct tail; [done | by rewrite <- app_assoc].
Qed.

End Batches.

Lemma buildExportFiles_total localeCompare sha1hex minify sep bundle opts :
  ∃ files,
    buildExportFiles localeCompare sha1hex minify sep bundle opts = Some files.
Proof.
  destruct (extractDCalls_ordered_spans bundle) as (spans & Hex).
  unfold buildExportFiles. rewrite Hex. simpl.
  destruct (_ <$> spans); eauto.
Qed.

(** X19.  A worker answers a request with the files that
    [buildExportFiles] makes of the decoded bundle, in order, in chunks of
    exactly 100 files followed by one last chunk of fewer when files are
    left over, never an empty chunk, and then one [done]. *)
Theorem handle_batches encode decode localeCompare sha1hex minify sep
    (req : WorkerRequest) :
  ∃ files full tail,
    buildExportFiles localeCompare sha1hex minify sep (decode (reqBundle req))
      (mkOpts (Some (reqDisambiguate req)) (Some (reqToIa req))
         (Some (reqMergeCommonNames req)) (reqMergeCommonPrefixes req))
    = Some files
    ∧ handle encode decode localeCompare sha1hex minify sep req
      = Some ((Chunk (reqId req) <$> full)
              ++ match tail with
                 | [] => []
                 | _ :: _ => [Chunk (reqId req) tail]
                 end
              ++ [Done (reqId req)])
    ∧ Forall (λ c, length c = 100) full
    ∧ length tail < 100
    ∧ concat full ++ tail = (λ f, (fileName f, encode (content f))) <$> files.
Proof.
  unfold handle.
  destruct (buildExportFiles_total localeCompare sha1hex minify sep
              (decode (reqBundle req))
              (mkOpts (Some (reqDisambiguate req)) (Some (reqToIa req))
                 (Some (reqMergeCommonNames req)) (reqMergeCommonPrefixes req)))
    as [files Hfiles].
  rewrite Hfiles. simpl.
  destruct (postFiles_batches encode (reqId req) files)
    as (full & tail & Hpost & Hfull & Htail & Hcat).
  exists files, full, tail. by rewrite Hpost.
Qed.

Lemma handle_batches_witness :
  let req := mkRequest 7 (lit "__d('A',1);__d('B',2);") true false false None in
  handle (λ s, s) (λ b, b) codeUnitCompare noDigest noMinify posixSep req
  = Some [Chunk 7 [(lit "A.js", lit "__d('A',1);");
                   (lit "B.js", lit "__d('B',2);")];
          Done 7].
Proof.
  intros req.
  destruct (handle_batches (λ s, s) (λ b, b) codeUnitCompare noDigest noMinify
              posixSep req)
    as (files & full & tail & Hfiles & Hhandle & Hfull & Htail & Hcat).
  assert (files = [mkExportFile (lit "A.js") (lit "__d('A',1);");
                   mkExportFile (lit "B.js") (lit "__d('B',2);")]) as ->.
  { assert (Some files
            = Some [mkExportFile (lit "A.js") (lit "__d('A',1);");
                    mkExportFile (lit "B.js") (lit "__d('B',2);")]) as H
      by (rewrite <- Hfiles; vm_compute; reflexivity).
    by injection H. }
  destruct full as [|c full].
  - simpl in Hcat. subst tail. exact Hhandle.
  - apply Forall_cons in Hfull as [Hc _].
    apply (f_equal length) in Hcat. simpl in Hcat.
    rewrite !length_app in Hcat. lia.
Defined.

(** ** Extracting from an extracted call *)

Lemma slice_lookup_lt source a b p :
  a ≤ p → p < b → slice source a b !! (p - a) = source !! p.
Proof.
  intros Ha Hb. unfold slice. rewrite lookup_take_lt by lia.
  rewrite lookup_drop. f_equal. lia.
Qed.

Lemma slice_lookup_ge source a b k :
  b - a ≤ k → slice source a b !! k = None.
Proof. intros Hk. unfold slice. by apply lookup_take_ge. Qed.

Lemma slice_slice source a b c d :
  a ≤ c → d ≤ b → slice (slice source a b) (c - a) (d - a) = slice source c d.
Proof.
  intros Hac Hdb. apply list_eq. intros k. unfold slice.
  rewrite !lookup_take, !lookup_drop, lookup_take, lookup_drop.
  repeat case_decide; try done; try lia. f_equal. lia.
Qed.

(** The backward scans of [looksLikeRegexStart] stop at a character that is
    neither white space nor part of a word, so they read the same characters
    in a slice that holds that character. *)
Lemma skipSpaceBack_slice source a b lo n c0 :
  a ≤ lo → lo < n → n ≤ b →
  source !! lo = Some c0 → isSpace c0 = false →
  skipSpaceBack (slice source a b) (n - a) = skipSpaceBack source n - a
  ∧ lo < skipSpaceBack source n.
Proof.
  intros Ha Hlo Hb Hc0 Hns. induction n as [|j IH]; [lia |].
  replace (S j - a) with (S (j - a)) by lia. simpl.
  rewrite slice_lookup_lt by lia.
  destruct (source !! j) as [c|] eqn:Hc; [| split; lia].
  destruct (isSpace c) eqn:Hsp; [| split; lia].
  destruct (decide (j = lo)) as [->|Hne]; [congruence |].
  apply IH; lia.
Qed.

Lemma skipWordBack_slice source a b lo n c0 :
  a ≤ lo → lo < n → n ≤ b →
  source !! lo = Some c0 → (isWord c0 || N.eqb c0 (chr "$")) = false →
  skipWordBack (slice source a b) (n - a) = skipWordBack source n - a
  ∧ lo < skipWordBack source n.
Proof.
  intros Ha Hlo Hb Hc0 Hns. induction n as [|j IH]; [lia |].
  replace (S j - a) with (S (j - a)) by lia. cbn [skipWordBack].
  rewrite slice_lookup_lt by lia.
  destruct (source !! j) as [c|] eqn:Hc; [| split; lia].
  destruct (isWord c || N.eqb c (chr "$")) eqn:Hsp; [| split; lia].
  destruct (decide (j = lo)) as [->|Hne]; [congruence |].
  apply IH; lia.
Qed.

Lemma looksLikeRegexStart_slice source a b lo i c0 :
  a ≤ lo → lo < i → i + 1 < b →
  source !! lo = Some c0 → isSpace c0 = false →
  (isWord c0 || N.eqb c0 (chr "$")) = false →
  looksLikeRegexStart (slice source a b) (i - a) = looksLikeRegexStart source i.
Proof.
  intros Ha Hlo Hb Hc0 Hsp Hw. unfold looksLikeRegexStart.
  replace (i - a + 1) with (i + 1 - a) by lia.
  rewrite slice_lookup_lt by lia.
  destruct (is_chr _ "/" || is_chr _ "*"); [done |].
  destruct (skipSpaceBack_slice source a b lo i c0) as [-> Hj]; try done; try lia.
  destruct (skipSpaceBack source i) as [|j] eqn:Hskip; [lia |].
  replace (S j - a) with (S (j - a)) by lia.
  assert (j < i) as Hji.
  { clear -Hskip. revert Hskip. generalize j. induction i as [|i IH]; intros j0; simpl; [done |].
    destruct (source !! i) as [c|]; [| intros [= <-]; lia].
    destruct (isSpace c); [| intros [= <-]; lia].
    intros H%IH. lia. }
  rewrite slice_lookup_lt by lia.
  destruct (source !! j) as [prev|] eqn:Hprev; [| done].
  destruct (bool_decide (prev ∈ closers)); [done |].
  destruct (isWord prev || N.eqb prev (chr "$")) eqn:Hpw; [| done].
  destruct (skipWordBack_slice source a b lo (S j) c0) as [Hk Hlt]; try done; try lia.
  cbv zeta. replace (S (j - a)) with (S j - a) by lia. rewrite Hk.
  rewrite slice_slice by lia. done.
Qed.

(** One step of the tracker reads the character at [i], the next one when
    the character is a slash, a star or a dollar sign, and, for a slash, the
    characters that the backward scans of [looksLikeRegexStart] reach. *)
Lemma lexStep_slice source a b lo i c0 st :
  a ≤ lo → lo ≤ i → i < b →
  source !! lo = Some c0 → isSpace c0 = false →
  (isWord c0 || N.eqb c0 (chr "$")) = false → is_chr (Some c0) "/" = false →
  i + 1 < b ∨ is_chr (source !! i) ")" = true →
  lexStep (slice source a b) st (i - a)
  = match lexStep source st i with
    | Skip st' i' => Skip st' (i' - a)
    | Plain st' => Plain st'
    end.
Proof.
  intros Ha Hlo Hb Hc0 Hsp Hw Hsl Hnext. unfold lexStep.
  rewrite slice_lookup_lt by lia.
  replace (i - a + 1) with (i + 1 - a) by lia.
  destruct Hnext as [Hnext|Hclose].
  - rewrite slice_lookup_lt by lia.
    assert (is_chr (source !! i) "/" = true →
            looksLikeRegexStart (slice source a b) (i - a)
            = looksLikeRegexStart source i) as Hre.
    { intros Hi. apply (looksLikeRegexStart_slice _ _ _ lo _ c0); try done.
      destruct (decide (i = lo)) as [->|]; [| lia]. congruence. }
    destruct (is_chr (source !! i) "/") eqn:Hi; [rewrite Hre by done |];
      generalize (looksLikeRegexStart source i); intros r;
      generalize (source !! (i + 1)); intros next;
      generalize (source !! i); intros ch;
      destruct (mode st); cbv zeta; repeat case_match; simplify_eq;
      try done; f_equal; lia.
  - destruct (source !! i) as [c|]; [| done]. simpl in Hclose.
    apply N.eqb_eq in Hclose. subst c.
    destruct (mode st); cbv zeta; simpl; try case_bool_decide; try done;
      repeat case_match; simplify_eq; done.
Qed.

Lemma findMatchingParen_loop_ge fuel source st depth i c :
  findMatchingParen_loop fuel source st depth i = Some (Ok c) → i ≤ c.
Proof.
  revert st depth i. induction fuel as [|fuel IH]; intros st depth i; simpl;
    (destruct (Nat.leb_spec (length source) i); [done |]); [done |].
  destruct (lexStep source st i) as [st' i'|st'] eqn:Hs.
  - apply lexStep_Skip_bound in Hs. intros Hr%IH. lia.
  - destruct (is_chr _ "("); [intros Hr%IH; lia |].
    destruct (is_chr _ ")"); [| intros Hr%IH; lia].
    destruct (_ =? _)%Z; [intros [= <-]; lia | intros Hr%IH; lia].
Qed.

(** The matcher finds the same closing parenthesis in a slice of the source
    that holds the opening parenthesis, or any character before it that
    stops the backward scans, and the closing one. *)
Lemma findMatchingParen_loop_slice fuel fuel' source a b lo c0 st depth i c :
  a ≤ lo → lo ≤ i → c < b →
  source !! lo = Some c0 → isSpace c0 = false →
  (isWord c0 || N.eqb c0 (chr "$")) = false → is_chr (Some c0) "/" = false →
  length (slice source a b) - (i - a) ≤ fuel' →
  findMatchingParen_loop fuel source st depth i = Some (Ok c) →
  findMatchingParen_loop fuel' (slice source a b) st depth (i - a)
  = Some (Ok (c - a)).
Proof.
  intros Ha Hlo Hb Hc0 Hsp Hw Hsl. revert fuel' st depth i Hlo.
  induction fuel as [|fuel IH]; intros fuel' st depth i Hlo Hf H.
  { simpl in H. by destruct (length source <=? i). }
  pose proof (findMatchingParen_loop_ge _ _ _ _ _ _ H) as Hic.
  simpl in H. destruct (Nat.leb_spec (length source) i) as [|Hlen]; [done |].
  assert (length (slice source a b) = Nat.min (b - a) (length source - a)) as Hls.
  { unfold slice. by rewrite length_take, length_drop. }
  destruct fuel' as [|fuel']; [lia |]. simpl.
  destruct (Nat.leb_spec (length (slice source a b)) (i - a)); [lia |].
  assert (i + 1 < b ∨ is_chr (source !! i) ")" = true) as Hnext.
  { destruct (lexStep source st i) as [st' i'|st'] eqn:Hs.
    - apply lexStep_Skip_bound in Hs.
      apply findMatchingParen_loop_ge in H. lia.
    - destruct (is_chr _ "(");
        [apply findMatchingParen_loop_ge in H; lia |].
      destruct (is_chr _ ")"); [by right |].
      apply findMatchingParen_loop_ge in H; lia. }
  rewrite (lexStep_slice _ _ _ lo _ c0) by (done || lia).
  rewrite slice_lookup_lt by lia.
  destruct (lexStep source st i) as [st' i'|st'] eqn:Hs.
  - apply lexStep_Skip_bound in Hs.
    replace (S (i' - a)) with (S i' - a) by lia. apply IH; [lia | lia | done].
  - replace (S (i - a)) with (S i - a) by lia.
    destruct (is_chr _ "("); [apply IH; [lia | lia | done] |].
    destruct (is_chr _ ")"); [| apply IH; [lia | lia | done]].
    destruct (_ =? _)%Z; [by inversion H | apply IH; [lia | lia | done]].
Qed.

Lemma skipSpaceFwd_shift rest n d :
  skipSpaceFwd rest (n + d) = skipSpaceFwd rest n + d.
Proof.
  revert n. induction rest as [|c rest IH]; intros n; simpl; [done |].
  destruct (isSpace c); [| done]. apply (IH (S n)).
Qed.

Lemma skipSpaceFwd_take rest n k :
  skipSpaceFwd rest n - n ≤ k →
  skipSpaceFwd (take k rest) n = skipSpaceFwd rest n.
Proof.
  revert n k. induction rest as [|c rest IH]; intros n k; simpl.
  - by rewrite take_nil.
  - destruct (isSpace c) eqn:Hc.
    + pose proof (skipSpaceFwd_spec rest (S n)) as ((? & _) & _).
      intros Hk. destruct k as [|k]; [lia |]. simpl. rewrite Hc.
      apply IH. lia.
    + intros _. destruct k; simpl; [done |]. by rewrite Hc.
Qed.

(** The span of a call ends where the span of the call ends in the slice
    that is the span. *)
Lemma callEnd_slice source a close :
  a ≤ close → close < length source →
  callEnd (slice source a (callEnd source close)) (close - a)
  = callEnd source close - a.
Proof.
  intros Ha Hlen. pose proof (callEnd_bounds source close Hlen) as Hb.
  set (e := callEnd source close) in *.
  assert (drop (close - a + 1) (slice source a e)
          = take (e - (close + 1)) (drop (close + 1) source)) as Hdrop.
  { apply list_eq. intros k. unfold slice.
    rewrite lookup_drop, !lookup_take, !lookup_drop.
    repeat case_decide; try done; try lia. f_equal. lia. }
  unfold callEnd at 1. rewrite Hdrop.
  pose proof (skipSpaceFwd_spec (drop (close + 1) source) (close + 1))
    as ((Hlo & Hhi) & _).
  assert (e = let end_ := skipSpaceFwd (drop (close + 1) source) (close + 1) in
              if is_chr (source !! end_) ";" then end_ + 1 else end_) as He
    by done.
  cbv zeta in He.
  replace (close - a + 1) with (close + 1 - a) by lia.
  assert (∀ rest n, a ≤ n → skipSpaceFwd rest (n - a) = skipSpaceFwd rest n - a)
    as Hshift.
  { intros rest n Hn. replace n with (n - a + a) at 2 by lia.
    rewrite skipSpaceFwd_shift. lia. }
  rewrite Hshift by lia.
  rewrite skipSpaceFwd_take by (destruct (is_chr _ ";"); lia).
  set (end_ := skipSpaceFwd (drop (close + 1) source) (close + 1)) in *.
  destruct (is_chr (source !! end_) ";") eqn:Hsemi.
  - rewrite slice_lookup_lt by lia. rewrite Hsemi. lia.
  - rewrite slice_lookup_ge by lia. simpl. lia.
Qed.

(** An extracted call, scanned on its own, is one call: the whole string. *)
Lemma extracted_reextract source start close :
  startsWithAt marker source start = true →
  findMatchingParen source (start + 3) = Some (Ok close) →
  extractDCalls_log (slice source start (callEnd source close))
  = Some ([slice source start (callEnd source close)], []).
Proof.
  intros Hm Hfind. destruct (marker_parts _ _ Hm) as [_ Hopen].
  pose proof (findMatchingParen_bounds _ _ _ Hfind) as Hb.
  pose proof (callEnd_bounds source close ltac:(lia)) as He.
  set (e := callEnd source close) in *. set (s := slice source start e).
  assert (length s = e - start) as Hlen.
  { unfold s, slice. rewrite length_take, length_drop. lia. }
  assert (startsWithAt marker s 0 = true) as Hm0.
  { unfold startsWithAt in *. apply bool_decide_eq_true.
    apply bool_decide_eq_true in Hm. rewrite marker_length in *.
    change (take 4 (drop 0 s)) with (slice s 0 4).
    replace 0 with (start - start) at 1 by lia.
    replace 4 with (start + 4 - start) by lia.
    unfold s. rewrite slice_slice by lia. unfold slice.
    by replace (start + 4 - start) with 4 by lia. }
  assert (findNextDCallStart s 0 = Some (Some 0)) as Hfind0.
  { unfold findNextDCallStart. rewrite Nat.sub_0_r.
    destruct (length s) as [|n] eqn:Hn; [lia |]. simpl.
    destruct (lexStep_underscore s initLex 0 eq_refl
                (startsWithAt_marker_head _ _ Hm0)) as [st' ->].
    by rewrite Hn, (startsWithAt_marker_head _ _ Hm0), Hm0. }
  assert (findMatchingParen s 3 = Some (Ok (close - start))) as Hfind3.
  { unfold findMatchingParen in *.
    replace 3 with (start + 3 - start) at 2 by lia.
    destruct (source !! (start + 3)) as [c0|] eqn:Hc0; [| done].
    simpl in Hopen. apply N.eqb_eq in Hopen. subst c0.
    eapply (findMatchingParen_loop_slice _ _ source start e (start + 3));
      [lia | lia | lia | exact Hc0 | done | done | done | | exact Hfind].
    fold s. lia. }
  unfold extractDCalls_log.
  destruct (length s) as [|n] eqn:Hn; [lia |].
  cbn [extractDCalls_loop]. rewrite Hn. cbn [Nat.leb].
  rewrite Hfind0. cbn [Nat.add]. rewrite Hfind3.
  pose proof (callEnd_slice source start close ltac:(lia) ltac:(lia)) as Hce.
  fold e in Hce. fold s in Hce. rewrite Hce.
  assert (e - start = length s) as -> by lia.
  destruct n; cbn [extractDCalls_loop]; rewrite Nat.leb_refl;
    unfold slice; by rewrite Nat.sub_0_r, drop_0, firstn_all.
Qed.

Lemma iterations_reextract source i evs :
  iterations source i evs →
  Forall (λ call, extractDCalls_log call = Some ([call], []))
    (pushed source evs).
Proof.
  intros Hit. iterations_cases Hit; simpl; try done.
  unfold pushed in *. simpl. constructor; [| done].
  apply findNextDCallStart_spec in Hf as (_ & Hf & _).
  by apply extracted_reextract.
Qed.

(** X20. Every call returned by [extractDCalls] is stable under extraction:
    scanned on its own it gives exactly one call, the string itself, and
    no warning.  So a file written by the exporter (without [toIa]) holds
    one module that the extractor reads back whole. *)
Theorem extractDCalls_reextract source calls call :
  extractDCalls source = Some calls → call ∈ calls →
  extractDCalls_log call = Some ([call], [])
  ∧ extractDCalls call = Some [call].
Proof.
  intros Hex Hin.
  destruct (extractDCalls_log_iterations source) as (evs & Hit & Hlog).
  unfold extractDCalls in Hex. rewrite Hlog in Hex. simpl in Hex.
  inversion Hex; subst calls.
  pose proof (iterations_reextract _ _ _ Hit) as Hall.
  rewrite Forall_forall in Hall. specialize (Hall call Hin).
  split; [done |]. unfold extractDCalls. by rewrite Hall.
Qed.

Lemma extractDCalls_reextract_witness :
  let source := lit "a;__d('m',function(){return /\)/.test(')')}) ; b" in
  let call := lit "__d('m',function(){return /\)/.test(')')}) ;" in
  extractDCalls source = Some [call]
  ∧ extractDCalls_log call = Some ([call], [])
  ∧ extractDCalls call = Some [call].
Proof.
  intros source call. split; [by vm_compute |].
  apply (extractDCalls_reextract source [call] call).
  - by vm_compute.
  - constructor.
Defined.

(** ** Command-line arguments *)

Lemma argIndexOf_spec args flag :
  match argIndexOf args flag with
  | Some idx =>
      args !! idx = Some flag ∧ ∀ j, j < idx → args !! j ≠ Some flag
  | None => flag ∉ args
  end.
Proof.
  induction args as [|a args IH]; simpl.
  - apply not_elem_of_nil.
  - case_bool_decide as Ha; [subst; split; [done | lia] |].
    destruct (argIndexOf args flag) as [idx|]; simpl.
    + destruct IH as [Hidx Hfirst]. split; [done |].
      intros [|j] Hj; simpl; [congruence | apply Hfirst; lia].
    + rewrite elem_of_cons. by intros [?|?].
Qed.

Lemma argIndexOf_app pre flag rest :
  flag ∉ pre → argIndexOf (pre ++ flag :: rest) flag = Some (length pre).
Proof.
  induction pre as [|a pre IH]; simpl; intros Hpre.
  - by rewrite bool_decide_eq_true_2.
  - rewrite not_elem_of_cons in Hpre. destruct Hpre as [Hne Hpre].
    rewrite bool_decide_eq_false_2 by done. by rewrite IH.
Qed.

Lemma argIndexOf_None args flag :
  flag ∉ args → argIndexOf args flag = None.
Proof.
  intros Hn. pose proof (argIndexOf_spec args flag) as H.
  destruct (argIndexOf args flag) as [idx|]; [| done].
  destruct H as [H _]. by apply list_elem_of_lookup_2 in H.
Qed.

Lemma startsWith_app pat rest : startsWith pat (pat ++ rest) = true.
Proof.
  unfold startsWith, startsWithAt. apply bool_decide_eq_true.
  by rewrite drop_0, take_app_length.
Qed.

Lemma startsWith_inv pat a :
  startsWith pat a = true → a = pat ++ drop (length pat) a.
Proof.
  unfold startsWith, startsWithAt. intros H%bool_decide_eq_true.
  rewrite drop_0 in H. rewrite <- H at 1. by rewrite take_drop.
Qed.

Lemma find_app_skip (f : jsstring → bool) pre x post :
  Forall (λ a, f a = false) pre → f x = true →
  List.find f (pre ++ x :: post) = Some x.
Proof.
  induction 1 as [|a pre Ha _ IH]; simpl; intros Hx.
  - by rewrite Hx.
  - rewrite Ha. by apply IH.
Qed.

(** X21. Both ways of giving a flag a value are read back: [flag value] as
    two arguments, when the value is not empty and does not start with a
    dash, and [flag=value] as one argument, for any value (the empty one
    too), when the bare flag does not occur.  A bare flag followed by
    nothing, by the empty string or by an argument that starts with a dash
    has no value, whatever else the command line holds. *)
Theorem getArgValue_roundtrip (pre post : list jsstring) (flag v : jsstring) :
  flag ∉ pre →
  (v ≠ [] → startsWith (lit "-") v = false →
   getArgValue (pre ++ flag :: v :: post) flag = Some v)
  ∧ (flag ∉ post → Forall (λ a, startsWith (flag ++ lit "=") a = false) pre →
     getArgValue (pre ++ (flag ++ lit "=" ++ v) :: post) flag = Some v)
  ∧ (v = [] ∨ startsWith (lit "-") v = true →
     getArgValue (pre ++ flag :: v :: post) flag = None)
  ∧ getArgValue (pre ++ [flag]) flag = None.
Proof.
  intros Hpre. repeat split.
  - intros Hv Hdash. unfold getArgValue. rewrite argIndexOf_app by done.
    rewrite lookup_app_r by lia.
    replace (length pre + 1 - length pre) with 1 by lia. simpl.
    by rewrite bool_decide_eq_false_2, Hdash.
  - intros Hpost Hnone. unfold getArgValue.
    rewrite argIndexOf_None.
    2:{ rewrite elem_of_app, elem_of_cons. intros [?|[Heq|?]]; try done.
        apply (f_equal length) in Heq. rewrite length_app in Heq. simpl in Heq.
        lia. }
    cbv zeta. rewrite (find_app_skip _ pre (flag ++ lit "=" ++ v)); try done.
    + rewrite bool_decide_eq_false_2 by (by destruct flag).
      rewrite (assoc app). rewrite drop_app_length. done.
    + rewrite (assoc app). apply startsWith_app.
  - intros Hv. unfold getArgValue. rewrite argIndexOf_app by done.
    rewrite lookup_app_r by lia.
    replace (length pre + 1 - length pre) with 1 by lia. simpl.
    destruct Hv as [->| ->]; [done |]. by rewrite orb_true_r.
  - unfold getArgValue. rewrite argIndexOf_app by done.
    rewrite lookup_ge_None_2; [done |]. rewrite length_app. simpl. lia.
Qed.

Lemma getArgValue_roundtrip_witness :
  let pre := [lit "in.json"; lit "--flat"] in
  getArgValue (pre ++ lit "--workers" :: lit "4" :: [lit "out"]) (lit "--workers")
  = Some (lit "4")
  ∧ getArgValue (pre ++ (lit "--workers" ++ lit "=" ++ lit "4") :: [lit "out"])
      (lit "--workers") = Some (lit "4").
Proof.
  intros pre.
  destruct (getArgValue_roundtrip pre [lit "out"] (lit "--workers") (lit "4"))
    as (Ha & Hb & _).
  - intros H. repeat (apply elem_of_cons in H as [H|H]; [discriminate H |]).
    by apply elem_of_nil in H.
  - split.
    + apply Ha; [done | by vm_compute].
    + apply Hb.
      * intros H. repeat (apply elem_of_cons in H as [H|H]; [discriminate H |]).
        by apply elem_of_nil in H.
      * unfold pre. repeat constructor.
Defined.

(** X22. A value returned by [getArgValue] comes from the command line in
    one of two ways: it is the argument after the first occurrence of the
    bare flag, and then it is not empty, does not start with a dash and is
    also one of the positional arguments of the main program; or the bare
    flag does not occur and [flag=value] is an argument.  In both cases
    [hasFlag] holds. *)
Theorem getArgValue_sound (args : list jsstring) (flag v : jsstring) :
  getArgValue args flag = Some v →
  hasFlag args flag = true
  ∧ ((v ≠ [] ∧ startsWith (lit "-") v = false ∧ v ∈ positionals args
       ∧ (∃ idx, args !! idx = Some flag
                 ∧ (∀ j, j < idx → args !! j ≠ Some flag)
                 ∧ args !! (idx + 1) = Some v))
      ∨ ((flag ∉ args) ∧ (flag ++ lit "=" ++ v) ∈ args)).
Proof.
  unfold getArgValue, hasFlag. intros H.
  pose proof (argIndexOf_spec args flag) as Hidx.
  destruct (argIndexOf args flag) as [idx|].
  - destruct Hidx as [Hidx Hfirst].
    destruct (args !! (idx + 1)) as [val|] eqn:Hval; [| done].
    case_bool_decide as Hnil; [done |]. simpl in H.
    destruct (startsWith (lit "-") val) eqn:Hdash; [done |].
    inversion H; subst val. split.
    + rewrite bool_decide_eq_true_2; [done |].
      by apply list_elem_of_lookup_2 in Hidx.
    + left. split; [done |]. split; [done |]. split; [| by exists idx].
      unfold positionals. apply list_elem_of_filter. split; [done |].
      by apply list_elem_of_lookup_2 in Hval.
  - cbv zeta in H.
    destruct (List.find _ args) as [found|] eqn:Hfind; [| done].
    case_bool_decide; [done |]. inversion H; subst v.
    apply find_some in Hfind as [Hin Hstarts]. split.
    + apply orb_true_iff. right. apply existsb_exists. eauto.
    + right. split; [done |]. rewrite (assoc app).
      rewrite <- (startsWith_inv _ _ Hstarts). by apply list_elem_of_In.
Qed.

Lemma getArgValue_sound_witness :
  let args := [lit "--workers"; lit "4"; lit "bundle.js"] in
  getArgValue args (lit "--workers") = Some (lit "4")
  ∧ positionals args = [lit "4"; lit "bundle.js"]
  ∧ lit "4" ∈ positionals args.
Proof.
  intros args.
  assert (getArgValue args (lit "--workers") = Some (lit "4")) as H
    by (by vm_compute).
  split; [done |]. split; [by vm_compute |].
  destruct (getArgValue_sound args (lit "--workers") (lit "4") H)
    as [_ [(_ & _ & Hpos & _)|[Hno _]]]; [done |].
  exfalso. apply Hno. constructor.
Defined.

Lemma beforeEquals_id a : chr "=" ∉ a → beforeEquals a = a.
Proof.
  induction a as [|c a IH]; cbn [beforeEquals]; [done |].
  intros [Hc Ha]%not_elem_of_cons.
  destruct (N.eqb_spec c (chr "=")); [congruence |]. by rewrite IH.
Qed.

Lemma beforeEquals_app f v :
  chr "=" ∉ f → beforeEquals (f ++ lit "=" ++ v) = f.
Proof.
  induction f as [|c f IH]; [done |].
  rewrite <- app_comm_cons. cbn [beforeEquals].
  intros [Hc Hf]%not_elem_of_cons.
  destruct (N.eqb_spec c (chr "=")); [congruence |]. by rewrite IH.
Qed.

Lemma beforeEquals_split a :
  chr "=" ∈ a → ∃ v, a = beforeEquals a ++ lit "=" ++ v.
Proof.
  induction a as [|c a IH]; cbn [beforeEquals].
  - by intros ?%elem_of_nil.
  - destruct (N.eqb_spec c (chr "=")) as [->|Hne]; [by exists a |].
    intros [?|Hin]%elem_of_cons; [congruence |].
    destruct (IH Hin) as [v Hv]. exists v. by rewrite Hv at 1.
Qed.

Lemma startsWith_weaken pat f rest :
  startsWith pat f = true → startsWith pat (f ++ rest) = true.
Proof.
  intros H%startsWith_inv. rewrite H, <- (assoc app). apply startsWith_app.
Qed.

Lemma knownFlags_no_equals f : f ∈ knownFlags → chr "=" ∉ f.
Proof.
  intros Hin Heq.
  repeat (apply elem_of_cons in Hin as [->|Hin];
          [repeat (apply elem_of_cons in Heq as [Heq|Heq]; [discriminate Heq |]);
           by apply elem_of_nil in Heq |]).
  by apply elem_of_nil in Hin.
Qed.

(** The flags that [assertNoUnknownFlags] lets pass. *)
Lemma flagBase_known a :
  startsWith (lit "-") a = true →
  flagBase a ∈ knownFlags ↔
  a ∈ knownFlags
  ∨ (∃ f v, f ∈ knownFlags ∧ startsWith (lit "--") f = true
            ∧ a = f ++ lit "=" ++ v).
Proof.
  intros Hdash. unfold flagBase. split.
  - destruct (startsWith (lit "--") a) eqn:Hdd; [| by left].
    destruct (decide (chr "=" ∈ a)) as [Heq|Hne].
    + destruct (beforeEquals_split a Heq) as [v Hv]. intros Hin. right.
      exists (beforeEquals a), v. split; [done |]. split; [| done].
      rewrite Hv in Hdd. revert Hdd. generalize (beforeEquals a) Hin.
      clear. intros f Hin.
      repeat (apply elem_of_cons in Hin as [->|Hin]; [by vm_compute |]).
      by apply elem_of_nil in Hin.
    + rewrite beforeEquals_id by done. by left.
  - intros [Hin|(f & v & Hin & Hdd & ->)].
    + destruct (startsWith (lit "--") a); [| done].
      rewrite beforeEquals_id; [done |]. by apply knownFlags_no_equals.
    + rewrite startsWith_weaken by done.
      rewrite beforeEquals_app; [done |]. by apply knownFlags_no_equals.
Qed.

Lemma unknownFlags_nil args :
  unknownFlags args = [] ↔
  ∀ a, a ∈ args → startsWith (lit "-") a = true → flagBase a ∈ knownFlags.
Proof.
  unfold unknownFlags. induction args as [|a args IH].
  - split; [| done]. by intros _ a ?%elem_of_nil.
  - rewrite filter_cons. case_decide as Ha.
    + split; [done |]. intros H. destruct Ha as [Hd Hn]. destruct Hn.
      apply H; [by left | done].
    + rewrite IH. split.
      * intros H x Hin Hd.
        apply elem_of_cons in Hin as [Heq|Hin]; [subst x | by apply H].
        destruct (decide (flagBase a ∈ knownFlags)); [done |].
        destruct Ha. done.
      * intros H x Hin. apply H. by right.
Qed.

(** X23. [assertNoUnknownFlags] accepts a command line exactly when every
    argument that starts with a dash is one of the eight known flags, or
    one of the known double-dash flags followed by [=] and any text; so
    [-h=x], negative numbers and any other dashed word make it throw. *)
Theorem assertNoUnknownFlags_accepts (args : list jsstring) :
  assertNoUnknownFlags args = Ok tt ↔
  ∀ a, a ∈ args → startsWith (lit "-") a = true →
       a ∈ knownFlags
       ∨ (∃ f v, f ∈ knownFlags ∧ startsWith (lit "--") f = true
                 ∧ a = f ++ lit "=" ++ v).
Proof.
  transitivity (unknownFlags args = []).
  - unfold assertNoUnknownFlags. by destruct (unknownFlags args).
  - rewrite unknownFlags_nil. split; intros H a Hin Hd.
    + by apply flagBase_known; [| apply H].
    + by apply flagBase_known; [| apply H].
Qed.

(** ** The function expression of a module file *)

Lemma indexOfFrom_Some pat s i j :
  indexOfFrom pat s i = Some j →
  i ≤ j ∧ startsWithAt pat s (j - i) = true
  ∧ ∀ k, k < j - i → startsWithAt pat s k = false.
Proof.
  unfold startsWithAt. revert i.
  induction s as [|c s IH]; intros i; cbn [indexOfFrom];
    case_bool_decide as Hp.
  - intros [= <-]. rewrite Nat.sub_diag, drop_0.
    rewrite bool_decide_eq_true_2 by done. split; [done |]. split; [done |]. lia.
  - done.
  - intros [= <-]. rewrite Nat.sub_diag, drop_0.
    rewrite bool_decide_eq_true_2 by done. split; [done |]. split; [done |]. lia.
  - intros H. destruct (IH _ H) as (Hle & Hat & Hfirst).
    replace (j - i) with (S (j - S i)) by lia. rewrite skipn_cons.
    split; [lia |]. split; [done |].
    intros [|k] Hk; [by rewrite drop_0, bool_decide_eq_false_2 |].
    rewrite skipn_cons. apply Hfirst. lia.
Qed.

Lemma indexOfFrom_None pat s i :
  indexOfFrom pat s i = None → ∀ k, startsWithAt pat s k = false.
Proof.
  unfold startsWithAt. revert i.
  induction s as [|c s IH]; intros i; cbn [indexOfFrom];
    case_bool_decide as Hp; try done.
  - intros _ k. rewrite drop_nil. by rewrite bool_decide_eq_false_2.
  - intros H [|k]; [by rewrite drop_0, bool_decide_eq_false_2 |].
    rewrite skipn_cons. by apply (IH _ H).
Qed.

Lemma startsWithAt_drop pat s a k :
  startsWithAt pat (drop a s) k = startsWithAt pat s (a + k).
Proof. unfold startsWithAt. by rewrite drop_drop. Qed.

Lemma indexOfAt_Some pat s from j :
  indexOfAt pat s from = Some j →
  from ≤ j ∧ startsWithAt pat s j = true
  ∧ ∀ k, from ≤ k < j → startsWithAt pat s k = false.
Proof.
  unfold indexOfAt. intros H.
  destruct (indexOfFrom_Some _ _ _ _ H) as (Hle & Hat & Hfirst).
  rewrite startsWithAt_drop in Hat.
  replace (from + (j - from)) with j in Hat by lia.
  split; [done |]. split; [done |]. intros k Hk.
  specialize (Hfirst (k - from) ltac:(lia)).
  rewrite startsWithAt_drop in Hfirst.
  by replace (from + (k - from)) with k in Hfirst by lia.
Qed.

Lemma indexOfAt_None pat s from :
  indexOfAt pat s from = None →
  ∀ k, from ≤ k → startsWithAt pat s k = false.
Proof.
  unfold indexOfAt. intros H k Hk.
  pose proof (indexOfFrom_None _ _ _ H (k - from)) as Hn.
  rewrite startsWithAt_drop in Hn.
  by replace (from + (k - from)) with k in Hn by lia.
Qed.

Lemma indexOf_Some pat s j :
  indexOf pat s = Some j →
  startsWithAt pat s j = true ∧ ∀ k, k < j → startsWithAt pat s k = false.
Proof.
  unfold indexOf. intros H.
  destruct (indexOfFrom_Some _ _ _ _ H) as (_ & Hat & Hfirst).
  rewrite Nat.sub_0_r in *. done.
Qed.

Lemma lastIndexOfUpTo_Some pat s n k :
  lastIndexOfUpTo pat s n = Some k →
  k ≤ n ∧ startsWithAt pat s k = true
  ∧ ∀ j, k < j ≤ n → startsWithAt pat s j = false.
Proof.
  induction n as [|n IH]; simpl.
  - destruct (startsWithAt pat s 0) eqn:H0; [| done]. intros [= <-].
    split; [done |]. split; [done |]. lia.
  - destruct (startsWithAt pat s (S n)) eqn:Hn.
    + intros [= <-]. split; [done |]. split; [done |]. lia.
    + intros H. destruct (IH H) as (Hle & Hat & Hlast).
      split; [lia |]. split; [done |].
      intros j Hj. destruct (decide (j = S n)) as [->|]; [done |].
      apply Hlast. lia.
Qed.

Lemma lastIndexOfUpTo_None pat s n :
  lastIndexOfUpTo pat s n = None → ∀ j, j ≤ n → startsWithAt pat s j = false.
Proof.
  induction n as [|n IH]; simpl.
  - destruct (startsWithAt pat s 0) eqn:H0; [done |]. intros _ j Hj.
    by replace j with 0 by lia.
  - destruct (startsWithAt pat s (S n)) eqn:Hn; [done |].
    intros H j Hj. destruct (decide (j = S n)) as [->|]; [done |].
    apply IH; [done | lia].
Qed.

(** A character at an index where [pat] starts, at offset [d] of it. *)
Lemma startsWithAt_lookup pat s k d c :
  startsWithAt pat s k = true → pat !! d = Some c → s !! (k + d) = Some c.
Proof.
  unfold startsWithAt. intros H%bool_decide_eq_true Hd.
  rewrite <- H in Hd. apply lookup_take_Some in Hd as [Hd _].
  by rewrite lookup_drop in Hd.
Qed.

Lemma startsWithAt_1 c s k :
  startsWithAt [c] s k = true ↔ s !! k = Some c.
Proof.
  unfold startsWithAt. rewrite bool_decide_eq_true. simpl.
  rewrite <- (Nat.add_0_r k) at 2. rewrite <- lookup_drop.
  destruct (drop k s) as [|x r]; simpl; [done |]. rewrite take_0.
  split; congruence.
Qed.

Lemma braceDepth_app s t : braceDepth (s ++ t) = (braceDepth s + braceDepth t)%Z.
Proof.
  unfold braceDepth. induction s as [|c s IH]; simpl; [done |].
  rewrite IH. lia.
Qed.

Lemma slice_snoc s a j c :
  a ≤ j → s !! j = Some c → slice s a (j + 1) = slice s a j ++ [c].
Proof.
  intros Ha Hj. rewrite (slice_split s a j (j + 1)) by lia. f_equal.
  unfold slice. replace (j + 1 - j) with 1 by lia.
  by rewrite (drop_S _ _ _ Hj).
Qed.

(** What the brace loop returns: the first closing brace after which the
    count of open braces, started at [depth], is zero. *)
Lemma braceEnd_spec raw o i depth :
  o ≤ i →
  depth = braceDepth (slice raw o i) →
  (∀ j, o ≤ j < i → raw !! j = Some (chr "}") →
        braceDepth (slice raw o (j + 1)) ≠ 0%Z) →
  match braceEnd (drop i raw) i depth with
  | Some e =>
      i ≤ e < length raw ∧ raw !! e = Some (chr "}")
      ∧ braceDepth (slice raw o (e + 1)) = 0%Z
      ∧ ∀ j, o ≤ j < e → raw !! j = Some (chr "}") →
             braceDepth (slice raw o (j + 1)) ≠ 0%Z
  | None =>
      ∀ j, o ≤ j → raw !! j = Some (chr "}") →
           braceDepth (slice raw o (j + 1)) ≠ 0%Z
  end.
Proof.
  remember (length raw - i) as n eqn:Hn. revert i depth Hn.
  induction n as [|n IH]; intros i depth Hn Hoi Hd Hpre.
  - rewrite drop_ge by lia. simpl. intros j Hj Hc.
    apply Hpre; [| done]. apply lookup_lt_Some in Hc. lia.
  - destruct (raw !! i) as [c|] eqn:Hc.
    2:{ apply lookup_ge_None in Hc. lia. }
    rewrite (drop_S _ _ _ Hc). cbn [braceEnd].
    pose proof (slice_snoc raw o i c Hoi Hc) as Hsn.
    assert (braceDepth (slice raw o (i + 1)) = (depth + braceValue c)%Z) as Hd'.
    { rewrite Hsn, braceDepth_app, Hd. unfold braceDepth. simpl. lia. }
    assert (∀ d', d' = braceDepth (slice raw o (S i)) →
                  (c = chr "}" → d' ≠ 0%Z) →
                  match braceEnd (drop (S i) raw) (S i) d' with
                  | Some e =>
                      i ≤ e < length raw ∧ raw !! e = Some (chr "}")
                      ∧ braceDepth (slice raw o (e + 1)) = 0%Z
                      ∧ ∀ j, o ≤ j < e → raw !! j = Some (chr "}") →
                             braceDepth (slice raw o (j + 1)) ≠ 0%Z
                  | None =>
                      ∀ j, o ≤ j → raw !! j = Some (chr "}") →
                           braceDepth (slice raw o (j + 1)) ≠ 0%Z
                  end) as Hnext.
    { intros d' Hd'' Hnz.
      specialize (IH (S i) d' ltac:(lia) ltac:(lia) Hd'').
      assert (∀ j, o ≤ j < S i → raw !! j = Some (chr "}") →
                   braceDepth (slice raw o (j + 1)) ≠ 0%Z) as Hpre'.
      { intros j Hj Hcj. destruct (decide (j = i)) as [->|];
          [| apply Hpre; [lia | done]].
        replace (i + 1) with (S i) by lia. rewrite <- Hd''. apply Hnz.
        congruence. }
      specialize (IH Hpre').
      destruct (braceEnd (drop (S i) raw) (S i) d') as [e|]; [| done].
      destruct IH as ((? & ?) & ? & ? & ?). repeat split; try done; lia. }
    replace (i + 1) with (S i) in Hd' by lia.
    unfold braceValue in Hd'.
    destruct (N.eqb_spec c (chr "{")) as [->|Hno].
    + apply Hnext; [lia | done].
    + destruct (N.eqb_spec c (chr "}")) as [->|Hnc].
      * destruct (Z.eqb_spec (depth - 1) 0) as [Hz|Hnz].
        -- apply lookup_lt_Some in Hc as Hlt.
           replace (i + 1) with (S i) by lia.
           repeat split; try done; try lia.
        -- apply Hnext; [lia | lia].
      * apply Hnext; [lia | done].
Qed.

Lemma startsWithAt_tail c pat s k :
  startsWithAt (c :: pat) s k = true → startsWithAt pat s (k + 1) = true.
Proof.
  unfold startsWithAt. rewrite !bool_decide_eq_true. cbn [length].
  rewrite <- drop_drop. intros H.
  destruct (drop k s) as [|x r]; [done |].
  simpl in H. rewrite skipn_cons, drop_0. congruence.
Qed.

(** Where [extractFunctionExpression] starts is where the word [function]
    starts, or the parenthesis before it; it finds no start only in a text
    without the word. *)
Lemma functionStart_Some raw startIdx :
  functionStart raw = Some startIdx →
  startsWithAt (lit "function") raw startIdx = true
  ∨ (raw !! startIdx = Some (chr "(")
     ∧ startsWithAt (lit "function") raw (startIdx + 1) = true).
Proof.
  unfold functionStart.
  destruct (indexOf (lit "(function") raw) as [s|] eqn:Hp.
  { intros [= <-]. apply indexOf_Some in Hp as [Hp _]. right. split.
    - rewrite <- (Nat.add_0_r s). by apply (startsWithAt_lookup _ _ _ _ _ Hp).
    - by apply (startsWithAt_tail (chr "(")). }
  cbv zeta.
  destruct (indexOf marker raw) as [dIdx|] eqn:Hd.
  - destruct (indexOfAt (lit "function") raw dIdx) as [fnIdx|] eqn:Hf.
    + destruct (forallb isSpace _).
      * intros [= <-]. left. by apply indexOfAt_Some in Hf as (_ & ? & _).
      * intros H. left. by apply indexOf_Some in H as [? _].
    + intros H. left. by apply indexOf_Some in H as [? _].
  - intros H. left. by apply indexOf_Some in H as [? _].
Qed.

Lemma functionStart_None raw :
  functionStart raw = None ↔
  ∀ k, startsWithAt (lit "function") raw k = false.
Proof.
  split.
  - unfold functionStart.
    destruct (indexOf (lit "(function") raw); [done |]. cbv zeta.
    assert (indexOf (lit "function") raw = None →
            ∀ k, startsWithAt (lit "function") raw k = false) as Hnone
      by apply indexOfFrom_None.
    destruct (indexOf marker raw) as [dIdx|]; [| done].
    destruct (indexOfAt (lit "function") raw dIdx); [| done].
    by destruct (forallb isSpace _).
  - intros Hno. destruct (functionStart raw) as [s|] eqn:Hs; [| done].
    apply functionStart_Some in Hs as [Hs|[_ Hs]]; by rewrite Hno in Hs.
Qed.

(** No character of the word [function] is a brace. *)
Lemma function_no_brace raw k o :
  startsWithAt (lit "function") raw k = true → k ≤ o →
  raw !! o = Some (chr "{") → k + 8 ≤ o.
Proof.
  intros Hk Hle Ho. destruct (Nat.le_gt_cases (k + 8) o) as [|Hlt]; [done |].
  exfalso. replace o with (k + (o - k)) in Ho by lia.
  assert (o - k < 8) as Hd by lia.
  destruct (lit "function" !! (o - k)) as [c|] eqn:Hc.
  - rewrite (startsWithAt_lookup _ _ _ _ _ Hk Hc) in Ho.
    injection Ho as ->.
    destruct (o - k) as [|[|[|[|[|[|[|[|d]]]]]]]]; [.. | lia];
      vm_compute in Hc; discriminate Hc.
  - apply lookup_ge_None in Hc. change (length (lit "function")) with 8 in Hc.
    lia.
Qed.

Lemma trim_id c mid :
  isSpace c = false → trim (c :: mid ++ [chr "}"]) = c :: mid ++ [chr "}"].
Proof.
  intros Hc. unfold trim. cbn [dropSpaces]. rewrite Hc.
  rewrite app_comm_cons, reverse_snoc. cbn [dropSpaces].
  change (isSpace (chr "}")) with false. cbv iota.
  by rewrite <- reverse_snoc, reverse_involutive.
Qed.

Lemma indexOfAt_first pat s from o :
  from ≤ o → startsWithAt pat s o = true →
  (∀ j, from ≤ j < o → startsWithAt pat s j = false) →
  indexOfAt pat s from = Some o.
Proof.
  intros Hle Hat Hfirst. destruct (indexOfAt pat s from) as [o'|] eqn:Hi.
  - apply indexOfAt_Some in Hi as (Hle' & Hat' & Hfirst'). f_equal.
    destruct (Nat.lt_trichotomy o' o) as [Hlt|[Heq|Hgt]]; [| done |].
    + rewrite Hfirst in Hat' by lia. done.
    + rewrite Hfirst' in Hat by lia. done.
  - rewrite (indexOfAt_None _ _ _ Hi o Hle) in Hat. done.
Qed.

Lemma lastIndexOfUpTo_last pat s n k :
  k ≤ n → startsWithAt pat s k = true →
  (∀ j, k < j ≤ n → startsWithAt pat s j = false) →
  lastIndexOfUpTo pat s n = Some k.
Proof.
  intros Hle Hat Hlast. destruct (lastIndexOfUpTo pat s n) as [k'|] eqn:Hi.
  - apply lastIndexOfUpTo_Some in Hi as (Hle' & Hat' & Hlast'). f_equal.
    destruct (Nat.lt_trichotomy k' k) as [Hlt|[Heq|Hgt]]; [| done |].
    + rewrite Hlast' in Hat by lia. done.
    + rewrite Hlast in Hat' by lia. done.
  - rewrite (lastIndexOfUpTo_None _ _ _ Hi k Hle) in Hat. done.
Qed.

Lemma braceEnd_first raw o e :
  raw !! o = Some (chr "{") → o < e → raw !! e = Some (chr "}") →
  braceDepth (slice raw o (e + 1)) = 0%Z →
  (∀ j, o ≤ j < e → raw !! j = Some (chr "}") →
        braceDepth (slice raw o (j + 1)) ≠ 0%Z) →
  braceEnd (drop o raw) o 0 = Some e.
Proof.
  intros Hopen Hlt Hclose Hzero Hmin.
  pose proof (braceEnd_spec raw o o 0 (le_n o)) as He.
  destruct (braceEnd (drop o raw) o 0) as [e'|].
  - destruct He as ((Hoe & Hlen) & Hclose' & Hzero' & Hmin').
    { unfold slice. by rewrite Nat.sub_diag. }
    { intros j Hj. lia. }
    f_equal. destruct (Nat.lt_trichotomy e' e) as [Hl|[Heq|Hg]]; [| done |].
    + by destruct (Hmin e' ltac:(lia) Hclose').
    + by destruct (Hmin' e ltac:(lia) Hclose).
  - exfalso. apply (He ltac:(unfold slice; by rewrite Nat.sub_diag)
                       ltac:(intros j Hj; lia) e ltac:(lia) Hclose Hzero).
Qed.

(** X24.  [extractFunctionExpression] returns [r] exactly in this case:
    its search finds a start [s] ([functionStart]: the first [(function],
    else the [function] that follows the first [__d(] after white space
    only, else the first [function]); [o] is the first opening brace at or
    after [s]; [k] is the last [function] at or before [o]; [e] is the
    first closing brace after [o] at which the braces from [o] on balance,
    every brace of the text counted; and [r] is the text from [k] to [e].
    Then [r] starts with [function] and ends with the brace, and [trim]
    removes nothing. *)
Theorem extractFunctionExpression_shape (raw r : jsstring) :
  extractFunctionExpression raw = Ok r ↔
  ∃ s k o e,
    functionStart raw = Some s
    ∧ s ≤ o ∧ raw !! o = Some (chr "{")
    ∧ (∀ j, s ≤ j < o → raw !! j ≠ Some (chr "{"))
    ∧ s ≤ k ∧ k + 8 ≤ o ∧ startsWithAt (lit "function") raw k = true
    ∧ (∀ j, k < j ≤ o → startsWithAt (lit "function") raw j = false)
    ∧ o < e < length raw ∧ raw !! e = Some (chr "}")
    ∧ braceDepth (slice raw o (e + 1)) = 0%Z
    ∧ (∀ j, o ≤ j < e → raw !! j = Some (chr "}") →
            braceDepth (slice raw o (j + 1)) ≠ 0%Z)
    ∧ r = slice raw k (e + 1)
    ∧ startsWith (lit "function") r = true ∧ last r = Some (chr "}").
Proof.
  assert (∀ k e, startsWithAt (lit "function") raw k = true → k + 8 ≤ e →
                 raw !! e = Some (chr "}") →
                 slice raw k (e + 1)
                 = chr "f" :: (lit "unction" ++ slice raw (k + 8) e)
                     ++ [chr "}"]) as Hshape.
  { intros k e Hat Hke Hclose.
    rewrite (slice_snoc raw k e (chr "}")) by (done || lia).
    rewrite (slice_split raw k (k + 8) e) by lia.
    change (k + 8) with (k + length (lit "function")) at 1.
    by rewrite (startsWithAt_slice _ _ _ Hat). }
  unfold extractFunctionExpression. split.
  - destruct (functionStart raw) as [s|] eqn:Hs; [| done].
    destruct (indexOfAt (lit "{") raw s) as [o|] eqn:Ho; [| done].
    apply indexOfAt_Some in Ho as (Hso & Hopen & Hfirst).
    change (lit "{") with [chr "{"] in *. apply startsWithAt_1 in Hopen.
    pose proof (braceEnd_spec raw o o 0 (le_n o)) as He.
    destruct (braceEnd (drop o raw) o 0) as [e|]; [| done].
    destruct He as ((Hoe & Hlen) & Hclose & Hzero & Hmin).
    { unfold slice. by rewrite Nat.sub_diag. }
    { intros j Hj. lia. }
    assert (o < e) as Hlt.
    { destruct (decide (e = o)) as [->|]; [| lia].
      rewrite Hopen in Hclose. vm_compute in Hclose. discriminate Hclose. }
    assert (∃ k', s ≤ k' ≤ o ∧ startsWithAt (lit "function") raw k' = true)
      as (k' & Hk' & Hword).
    { apply functionStart_Some in Hs as [Hs|[Hp Hs]].
      - exists s. split; [lia | done].
      - exists (s + 1). split; [| done].
        destruct (decide (o = s)) as [->|]; [| lia].
        rewrite Hopen in Hp. vm_compute in Hp. discriminate Hp. }
    destruct (lastIndexOfUpTo (lit "function") raw o) as [k|] eqn:Hk.
    2:{ pose proof (lastIndexOfUpTo_None _ _ _ Hk k' ltac:(lia)). congruence. }
    apply lastIndexOfUpTo_Some in Hk as (Hko & Hat & Hlast).
    assert (k' ≤ k) as Hk'k.
    { destruct (Nat.le_gt_cases k' k); [done |].
      rewrite Hlast in Hword by lia. done. }
    pose proof (function_no_brace raw k o Hat Hko Hopen) as Hk8.
    cbv zeta. intros [= <-].
    rewrite (Hshape k e Hat ltac:(lia) Hclose), trim_id by done.
    rewrite <- (Hshape k e Hat ltac:(lia) Hclose).
    exists s, k, o, e. repeat split; try done; try lia.
    + intros j Hj Hc. apply startsWithAt_1 in Hc.
      rewrite Hfirst in Hc; [done | lia].
    + rewrite (Hshape k e Hat ltac:(lia) Hclose). by vm_compute.
    + rewrite (Hshape k e Hat ltac:(lia) Hclose), app_comm_cons.
      by rewrite last_snoc.
  - intros (s & k & o & e & Hs & Hso & Hopen & Hfirst & Hsk & Hk8 & Hat & Hlast
            & (Hoe & Hlen) & Hclose & Hzero & Hmin & -> & _).
    rewrite Hs.
    rewrite (indexOfAt_first (lit "{") raw s o Hso).
    2:{ change (lit "{") with [chr "{"]. by apply startsWithAt_1. }
    2:{ intros j Hj. change (lit "{") with [chr "{"].
        destruct (startsWithAt [chr "{"] raw j) eqn:Hj'; [| done].
        apply startsWithAt_1 in Hj'. by destruct (Hfirst j Hj). }
    rewrite (braceEnd_first raw o e Hopen Hoe Hclose Hzero Hmin).
    rewrite (lastIndexOfUpTo_last (lit "function") raw o k ltac:(lia) Hat Hlast).
    cbv zeta. f_equal.
    rewrite (Hshape k e Hat ltac:(lia) Hclose). by apply trim_id.
Qed.

Lemma extractFunctionExpression_shape_witness :
  let raw := lit "x={};function f(){1};__d('m',[],(function(a,b){if(a){b()}}),1);" in
  let r := lit "function(a,b){if(a){b()}}" in
  extractFunctionExpression raw = Ok r
  ∧ functionStart raw = Some 32
  ∧ startsWith (lit "function") r = true ∧ last r = Some (chr "}").
Proof.
  intros raw r.
  assert (extractFunctionExpression raw = Ok r) as H by (by vm_compute).
  destruct (proj1 (extractFunctionExpression_shape raw r) H)
    as (s & k & o & e & Hs & _ & _ & _ & _ & _ & _ & _ & _ & _ & _ & _ & _
        & Hstart & Hlast).
  split; [exact H |]. split; [by vm_compute |]. done.
Defined.

(** X25. [extractFunctionExpression] throws [No function expression wrapper
    found] exactly for a text in which the word [function] does not
    occur. *)
Theorem extractFunctionExpression_no_function (raw : jsstring) :
  extractFunctionExpression raw
  = Throw (lit "No function expression wrapper found")
  ↔ ∀ k, startsWithAt (lit "function") raw k = false.
Proof.
  rewrite <- functionStart_None. unfold extractFunctionExpression.
  destruct (functionStart raw) as [s|]; [| done].
  destruct (indexOfAt (lit "{") raw s) as [o|];
    [| split; [intros H; vm_compute in H; discriminate H | done]].
  destruct (braceEnd (drop o raw) o 0);
    split; try done; intros H; vm_compute in H; discriminate H.
Qed.

(** ** The output directories of a batch of URLs *)

Lemma jobDirNames_disambiguated safeDirNameFromUrl used earlier idx urls :
  (∀ b, default 0 (used !! b) = length (filter (λ x, x = b) earlier)) →
  jobDirNames safeDirNameFromUrl used idx urls
  = disambiguated earlier
      (imap (λ k url, safeDirNameFromUrl url (idx + k + 1)) urls).
Proof.
  revert used earlier idx.
  induction urls as [|url urls IH]; intros used earlier idx Hused; [done |].
  cbn [jobDirNames imap disambiguated]. rewrite Nat.add_0_r.
  set (dirBase := safeDirNameFromUrl url (idx + 1)).
  rewrite Hused. f_equal.
  rewrite (IH _ (earlier ++ [dirBase])).
  - f_equal. apply imap_ext. intros k u _. simpl. f_equal. lia.
  - intros b. rewrite filter_app, length_app.
    destruct (decide (b = dirBase)) as [->|Hne].
    + rewrite lookup_insert_eq. simpl. rewrite filter_cons_True by done.
      simpl. lia.
    + rewrite lookup_insert_ne by done. rewrite Hused.
      rewrite filter_cons_False by done. simpl. lia.
Qed.

(** X26. When every URL of a batch gets a directory of its own, the job of
    the first URL with a given directory base gets that base as its
    directory name, and two jobs whose URLs give the same base never get the
    same directory name. *)
Theorem jobDirNames_same_base_distinct
    (safeDirNameFromUrl : jsstring → nat → jsstring) (urls : list jsstring)
    (i j : nat) (ui uj : jsstring) :
  let dirs := jobDirNames safeDirNameFromUrl ∅ 0 urls in
  let base k u := safeDirNameFromUrl u (k + 1) in
  urls !! i = Some ui → urls !! j = Some uj →
  (∃ di, dirs !! i = Some di
         ∧ ((∀ k u, k < i → urls !! k = Some u → base k u ≠ base i ui) →
            di = base i ui))
  ∧ (i < j → base i ui = base j uj → dirs !! i ≠ dirs !! j).
Proof.
  intros dirs base Hi Hj. unfold dirs.
  rewrite (jobDirNames_disambiguated _ _ []) by (intros b; by rewrite lookup_empty).
  set (bases := imap (λ k url, safeDirNameFromUrl url (0 + k + 1)) urls).
  assert (bases !! i = Some (base i ui)) as Hbi.
  { unfold bases. by rewrite list_lookup_imap, Hi. }
  assert (bases !! j = Some (base j uj)) as Hbj.
  { unfold bases. by rewrite list_lookup_imap, Hj. }
  split.
  - rewrite (disambiguated_lookup _ _ _ _ Hbi). eexists. split; [done |].
    intros Hfirst. cbv zeta.
    destruct (filter (λ x, x = base i ui) ([] ++ take i bases))
      as [|x rest] eqn:Hf; [done |].
    assert (x ∈ filter (λ x, x = base i ui) ([] ++ take i bases)) as Hin
      by (rewrite Hf; by left).
    apply list_elem_of_filter in Hin as [-> Hin]. simpl in Hin.
    apply elem_of_take in Hin as (k & Hk & Hlt).
    unfold bases in Hk. rewrite list_lookup_imap in Hk.
    destruct (urls !! k) as [u|] eqn:Hu; [| done]. simpl in Hk.
    injection Hk as Hk. by destruct (Hfirst k u Hlt Hu).
  - intros Hij Hsame. rewrite <- Hsame in Hbj.
    destruct (disambiguated [] bases !! i) as [di|] eqn:Hdi.
    2:{ rewrite (disambiguated_lookup _ _ _ _ Hbi) in Hdi. done. }
    destruct (disambiguated [] bases !! j) as [dj|] eqn:Hdj.
    2:{ rewrite (disambiguated_lookup _ _ _ _ Hbj) in Hdj. done. }
    intros [= ->].
    by apply (disambiguated_distinct bases i j _ dj dj Hij Hbi Hbj).
Qed.

Lemma jobDirNames_same_base_distinct_witness :
  let name (url : jsstring) (n : nat) := take 1 url in
  let urls := [lit "a1"; lit "b"; lit "a2"] in
  jobDirNames name ∅ 0 urls = [lit "a"; lit "b"; lit "a_2"]
  ∧ jobDirNames name ∅ 0 urls !! 0 ≠ jobDirNames name ∅ 0 urls !! 2.
Proof.
  intros name urls. split; [by vm_compute |].
  destruct (jobDirNames_same_base_distinct name urls 0 2 (lit "a1") (lit "a2")
              eq_refl eq_refl) as [_ H].
  apply H; [lia | done].
Defined.

(** * The scanners and the lexical structure of the input *)

(** ** The tracker on code, strings and comments *)



























(** ** The call locator and the state of the input *)







(** ** The extent of a call and the parentheses of code *)






(** A call with closing parentheses in a string, a comment, a template
    literal and a regular expression. *)
Example extract_parens_outside_code :
  let source :=
    lit "x;__d('a)',function(){/*)*/return f(`)`,/\)[)]/)})  ;y" in
  let ps := [CodeText (lit "(");
             Quoted (chr "'") (Chr <$> lit "a)");
             CodeText (lit ",function(){");
             BlockComment (lit ")");
             CodeText (lit "return f(");
             TemplateText [Chr (chr ")")];
             CodeText (lit ",");
             RegexLiteral [Plainly (Esc (chr ")")); Class [Chr (chr ")")]];
             CodeText (lit ")})  ;y")] in
  extractDCalls source
  = Some [lit "__d('a)',function(){/*)*/return f(`)`,/\)[)]/)})  ;"]
  ∧ piecesOk source 5 ps = true
  ∧ render ps = drop 5 source
  ∧ codeMatchingClose ps 44
  ∧ callEnd source (2 + 3 + 44) = 53
  ∧ slice source 2 53
    = lit "__d('a)',function(){/*)*/return f(`)`,/\)[)]/)})  ;".
Proof.
  intros source ps. repeat split; try (vm_compute; reflexivity).
  intros j Hj. do 44 (destruct j as [|j]; [vm_compute; reflexivity |]). lia.
Qed.


(** ** The calls after a call that is skipped *)


Lemma piecesOk_wf source b ps :
  piecesOk source b ps = true → forallb wfPiece ps = true.
Proof.
  revert b. induction ps as [|p ps IH]; intros b; [done |].
  cbn [piecesOk forallb]. intros [[Hp _]%andb_prop Hps]%andb_prop.
  rewrite Hp. by apply (IH _ Hps).
Qed.












